(** * Automatic optimization routines for SDFGs

    A shallow embedding of [dace/transformation/auto/auto_optimize.py]:
    the greedy fusion engine ([greedy_fuse]), the write-conflict tiler
    ([tile_wcrs]), the implementation selector ([find_fast_library],
    [set_fast_implementations]) and the storage reclassifier
    ([move_small_arrays_to_stack]).

    The program graph is a tree: a nested-SDFG node owns its inner SDFG.
    The rewrite primitives, the validator, the candidate enumerator and
    the symbolic library are collaborators of the module; they are the
    fields of the class [Collaborators].  Every call to a collaborator,
    every [print] and every warning is recorded in an event trace. *)

From Stdlib Require Import ZArith Lia.
From stdpp Require Import base strings list gmap.

Open Scope string_scope.
Open Scope Z_scope.

(** ** dace.dtypes *)

Module DeviceType.
Inductive t := CPU | GPU | FPGA.
Definition eqb (a b : t) : bool :=
  match a, b with
  | CPU, CPU | GPU, GPU | FPGA, FPGA => true
  | _, _ => false
  end.
End DeviceType.

(** ** dace.libraries.blas.environments: the installation probes *)

Record Environments := {
  IntelMKL_is_installed : bool;
  OpenBLAS_is_installed : bool
}.

(** ** find_fast_library (lines 278-294) *)

Definition find_fast_library (env : Environments) (device : DeviceType.t)
  : list string :=
  match device with
  | DeviceType.GPU => ["cuBLAS"; "CUB"; "pure"]
  | DeviceType.CPU =>
      let result :=
        if IntelMKL_is_installed env then ["MKL"]
        else if OpenBLAS_is_installed env then ["OpenBLAS"]
        else [] in
      result ++ ["pure"]
  | _ => ["pure"]
  end.

(** ** More of dace.dtypes: schedules, storage, lifetimes, reductions *)

Module ScheduleType.
Inductive t := Default | Sequential | CPU_Multicore | GPU_Device.
End ScheduleType.

Module StorageType.
Inductive t := Default | Register | CPU_Heap | GPU_Global.
Definition eqb (a b : t) : bool :=
  match a, b with
  | Default, Default | Register, Register
  | CPU_Heap, CPU_Heap | GPU_Global, GPU_Global => true
  | _, _ => false
  end.
End StorageType.

Module AllocationLifetime.
Inductive t := Scope | State | Global | Persistent.
Definition eqb (a b : t) : bool :=
  match a, b with
  | Scope, Scope | State, State | Global, Global
  | Persistent, Persistent => true
  | _, _ => false
  end.
End AllocationLifetime.

Module ReductionType.
Inductive t := Custom | Min | Max | Sum | Product | Logical_And.
End ReductionType.

(** Element types of buffers, and the values a reduction identity can be. *)
Inductive typeclass := float32 | float64 | int32 | int64 | bool_.

Inductive PyNumber :=
| PyInt (n : Z)
| PyFloat (literal : string)
| PyBool (b : bool).

(** Exceptions the module can raise or let through. *)
Inductive Exn :=
| TypeError
| KeyError
| IndexError
| ValueError
| StopIteration
| AttributeError
| InvalidSDFGError.

Inductive result (A : Type) :=
| Ok (a : A)
| Raise (e : Exn).
Arguments Ok {A} a.
Arguments Raise {A} e.

(** ** Symbolic sizes

    Modelled from the spec: the expression type of dace.symbolic is not
    under src/.  The spec gives a size as "a concrete integer or an
    unresolved symbolic expression"; here a size is an integer, a symbol,
    or a product that the symbolic library left unevaluated.  [sym_mul] is
    the library's [*]: two integers multiply at once. *)

Inductive SymExpr :=
| Integer (n : Z)
| Symbol (name : string)
| Mul (a b : SymExpr).

Definition sym_mul (a b : SymExpr) : SymExpr :=
  match a, b with
  | Integer x, Integer y => Integer (x * y)
  | _, _ => Mul a b
  end.

(** Modelled from the spec: dace.data._prod is not under src/; it is "the
    product of those dimensions' sizes", a left fold of [*] from 1. *)
Definition _prod (sequence : list SymExpr) : SymExpr :=
  foldl sym_mul (Integer 1) sequence.

Fixpoint free_symbols (e : SymExpr) : list string :=
  match e with
  | Integer _ => []
  | Symbol s => [s]
  | Mul a b => free_symbols a ++ free_symbols b
  end.

(** Values of SDFG constants: numbers, or objects that do not compare. *)
Inductive ConstVal :=
| CNum (n : Z)
| CObject.

(** Modelled from the spec: dace.symbolic.issymbolic is not under src/.  A
    value is "a concrete (non-symbolic) number" under the known constants
    when every symbol of it is one of them; it is symbolic when some symbol
    is not. *)
Definition issymbolic (value : SymExpr) (constants : gmap string ConstVal)
  : bool :=
  existsb (fun s => negb (bool_decide (is_Some (constants !! s))))
          (free_symbols value).

(** Modelled from the spec: dace.symbolic.evaluate is not under src/.  The
    spec's evaluator takes an expression and the known constants to "a
    concrete number, or Indeterminate": [subs] substitutes the constants,
    and the result is a number or a value on which a comparison cannot
    decide ([None]).  [evaluate] raises [TypeError] on a symbolic
    expression; line 311 guards the call with [issymbolic]. *)
Fixpoint subs (e : SymExpr) (symbols : gmap string ConstVal) : option Z :=
  match e with
  | Integer n => Some n
  | Symbol s =>
      match symbols !! s with
      | Some (CNum n) => Some n
      | _ => None
      end
  | Mul a b =>
      match subs a symbols, subs b symbols with
      | Some x, Some y => Some (x * y)
      | _, _ => None
      end
  end.

Definition evaluate (e : SymExpr) (symbols : gmap string ConstVal)
  : result (option Z) :=
  if issymbolic e symbols then Raise TypeError else Ok (subs e symbols).

(** ** Process configuration (dace.config) *)

Record Config := {
  autotile_size : Z;
  autotile_partial_parallelism : bool;
  debugprint : bool
}.

(** ** Data descriptors (dace.data)

    Modelled from the spec: the descriptor classes are not under src/.  A
    buffer has "element type, shape, total element count, transient flag,
    storage class, lifetime"; [kind] is the class of the descriptor, which
    line 306 tests. *)

Inductive DataKind := Array | Scalar | Stream | View.

Module Data.
Record t := {
  kind : DataKind;
  dtype : typeclass;
  shape : list SymExpr;
  total_size : SymExpr;
  transient : bool;
  storage : StorageType.t;
  lifetime : AllocationLifetime.t
}.
Definition set_storage (s : StorageType.t) (a : t) : t :=
  {| kind := kind a; dtype := dtype a; shape := shape a;
     total_size := total_size a; transient := transient a;
     storage := s; lifetime := lifetime a |}.
End Data.

(** ** Memlets and edges

    Modelled from the spec: dace.memlet is not under src/.  A data-movement
    edge carries the buffer name, the source and destination subsets, the
    write-conflict rule, its non-atomic mark and the dynamic flag; these are
    the attributes the module reads or writes.  A memlet is empty when it
    names no data and has no subset. *)

Module Memlet.
(** [src_subset] and [dst_subset] hold the subset's [num_elements()]. *)
Record t := {
  data : option string;
  src_subset : option SymExpr;
  dst_subset : option SymExpr;
  wcr : option string;
  wcr_nonatomic : bool;
  dynamic : bool
}.
Definition is_empty (m : t) : bool :=
  match data m, src_subset m, dst_subset m with
  | None, None, None => true
  | _, _, _ => false
  end.
End Memlet.

(** Node identities: Python object identity. *)
Definition nid := nat.

Module Edge.
Record t := {
  src : nid;
  dst : nid;
  data : Memlet.t
}.
End Edge.

(** ** Nodes, states, SDFGs

    Modelled from the spec: dace.sdfg is not under src/.  A program is "an
    ordered collection of states, a table of named buffers and a table of
    named constants"; a state is a graph of nodes and edges; a node is a
    scope entry, a scope exit, a tasklet, an access node, a nested program
    or a call-style (library) node. *)

Module Map.
(** [range] holds [range.size()], one size per parameter. *)
Record t := {
  params : list string;
  range : list SymExpr;
  schedule : ScheduleType.t
}.
Definition set_schedule (s : ScheduleType.t) (m : t) : t :=
  {| params := params m; range := range m; schedule := s |}.
End Map.

Module LibraryNode.
(** [type] is the node's class, [implementation] its current choice
    ([None] when unset). *)
Record t := {
  name : string;
  type : string;
  implementations : list string;
  implementation : option string;
  default_implementation : option string
}.
Definition set_implementation (i : string) (n : t) : t :=
  {| name := name n; type := type n;
     implementations := implementations n;
     implementation := Some i;
     default_implementation := default_implementation n |}.
End LibraryNode.

Record SDFGState_ (N : Type) := {
  nodes : list (nid * N);
  edges : list Edge.t
}.
Arguments nodes {N} _.
Arguments edges {N} _.

Record SDFG_ (N : Type) := {
  arrays : list (string * Data.t);
  constants : gmap string ConstVal;
  states : list (SDFGState_ N)
}.
Arguments arrays {N} _.
Arguments constants {N} _.
Arguments states {N} _.

#[warnings="-register-all"]
Inductive Node :=
| MapEntry (map : Map.t)
| MapExit (entry : nid)
| Tasklet (label : string)
| AccessNode (data : string)
| NestedSDFG (sdfg : SDFG_ Node)
| LibraryNode (lib : LibraryNode.t).

Definition SDFGState := SDFGState_ Node.
Definition SDFG := SDFG_ Node.

Definition lookup_node (st : SDFGState) (n : nid) : option Node :=
  snd <$> find (fun p => Nat.eqb (fst p) n) (nodes st).

(** The object behind an identity read now: its value in the graph, or the
    value it had when the reference was taken if a rewrite removed it. *)
Definition node_now (st : option SDFGState) (n : nid) (old : Node) : Node :=
  match st with
  | Some g => default old (lookup_node g n)
  | None => old
  end.

Definition update_node (f : Node -> Node) (n : nid) (st : SDFGState)
  : SDFGState :=
  {| nodes := (fun p => if Nat.eqb (fst p) n then (fst p, f (snd p)) else p)
                <$> nodes st;
     edges := edges st |}.

Definition update_state (f : SDFGState -> SDFGState) (i : nat) (sd : SDFG)
  : SDFG :=
  {| arrays := arrays sd; constants := constants sd;
     states := alter f i (states sd) |}.

(** sdfg.arrays as the dict it is: insertion-ordered, looked up by name. *)
Definition arrays_get (arrs : list (string * Data.t)) (name : string)
  : option Data.t :=
  snd <$> find (fun p => String.eqb (fst p) name) arrs.

(** ** Views, events, the store *)

(** What [GraphViewType] ranges over: an SDFG, one of its states, a
    subgraph of a state, or a subgraph of the SDFG (a list of states).
    States are named by their position in the SDFG. *)
Inductive GraphView :=
| ViewSDFG
| ViewState (state : nat)
| ViewSubgraph (state : nat) (subgraph_nodes : list nid)
| ViewSDFGSubgraph (subgraph_states : list nat).

Record CompositeFusionDefaults := {
  allow_tiling : bool;
  schedule_innermaps : ScheduleType.t;
  stencil_unroll_loops : bool
}.

Inductive Message :=
| AppliedTileFusion (n : nat)
| AppliedSubgraphFusion (n : nat)
| MakingMapSequential (mapentry : nid)
| OptimizedWriteConflictedMaps (n : nat)
| StaticallyAllocating (n : nat)
| SpecializingNode (name : string).

(** Where a call of greedy_fuse was made from. *)
Inductive CallSite :=
| FromStates
| FromScopeBody
| FromNestedSDFG.

Record FuseArgs := {
  fa_validate_all : bool;
  fa_device : DeviceType.t;
  fa_recursive : bool;
  fa_tile : bool
}.

Inductive Event :=
| EvPrint (msg : Message)
| EvWarn (node_name : string)
| EvValidateSDFG
| EvValidateGraph (state : nat)
| EvStrictTransformations (validate_all : bool)
| EvMapFusion (validate_all : bool)
| EvCompositeFusion (state : nat) (map_entries : list nid)
                    (defaults : CompositeFusionDefaults)
| EvGreedyFuse (site : CallSite) (caller callee : FuseArgs)
| EvExtractMapDims (state : nat) (mapentry : nid) (dims : list nat)
| EvMapTiling (state : nat) (tile_size : Z) (mapentry : nid)
| EvStreamTransient (state : nat) (tasklet map_exit outer_map_exit : nid)
| EvAccumulateTransient (state : nat) (ident : PyNumber) (array : string)
                        (map_exit outer_map_exit : nid)
| EvExpand (state : nat) (node : nid).

Record Store := {
  trace : list Event;
  CompositeFusion : CompositeFusionDefaults
}.

Inductive Outcome (A : Type) :=
| Done (a : A) (s : Store)
| Raised (e : Exn) (s : Store)
| OutOfFuel.
Arguments Done {A} a s.
Arguments Raised {A} e s.
Arguments OutOfFuel {A}.

Definition M (A : Type) : Type := Store -> Outcome A.

#[export] Instance M_ret : MRet M := fun A a s => Done a s.
#[export] Instance M_bind : MBind M := fun A B f c s =>
  match c s with
  | Done a s' => f a s'
  | Raised e s' => Raised e s'
  | OutOfFuel => OutOfFuel
  end.

Definition raise {A} (e : Exn) : M A := fun s => Raised e s.
Definition out_of_fuel {A} : M A := fun _ => OutOfFuel.
Definition log (ev : Event) : M unit := fun s =>
  Done tt {| trace := (trace s ++ [ev])%list; CompositeFusion := CompositeFusion s |}.
Definition get_defaults : M CompositeFusionDefaults := fun s =>
  Done (CompositeFusion s) s.
Definition set_defaults (d : CompositeFusionDefaults) : M unit := fun s =>
  Done tt {| trace := trace s; CompositeFusion := d |}.
Definition lift {A} (r : result A) : M A :=
  match r with
  | Ok a => mret a
  | Raise e => raise e
  end.

#[export] Instance result_ret : MRet result := fun A a => Ok a.
#[export] Instance result_bind : MBind result := fun A B f c =>
  match c with
  | Ok a => f a
  | Raise e => Raise e
  end.

(** [for x in l: acc = body(acc, x)] *)
Definition foldM {S A} (body : S -> A -> M S) : S -> list A -> M S :=
  fix go (acc : S) (l : list A) : M S :=
    match l with
    | [] => mret acc
    | x :: l' => acc' ← body acc x; go acc' l'
    end.

Definition mapR {A B} (f : A -> result B) : list A -> result (list B) :=
  fix go (l : list A) : result (list B) :=
    match l with
    | [] => Ok []
    | x :: l' => y ← f x; ys ← go l'; Ok (y :: ys)
    end.

(** ** The collaborators *)

Inductive Reason :=
| ReasonNode (n : nid)
| ReasonState.

Class Collaborators := {
  (** symbolic library: [Some true] when [s < n] is provably true,
      [Some false] when provably false, [None] for a relational *)
  sym_lt : SymExpr -> Z -> option bool;
  (** dace.codegen.targets.cpp *)
  is_write_conflicted_with_reason : SDFGState -> Edge.t -> option Reason;
  write_conflicted_map_params : Map.t -> Edge.t -> list string;
  (** dace.frontend.operations, dace.dtypes *)
  detect_reduction_type : string -> ReductionType.t;
  reduction_identity : typeclass -> ReductionType.t -> option PyNumber;
  (** graph queries *)
  memlet_path : SDFGState -> Edge.t -> list Edge.t;
  scope_subgraph : SDFGState -> nid -> list nid;
  (** rewrite primitives; [apply_to] raises when the pattern does not match *)
  extract_map_dims : SDFG -> nat -> nid -> list nat -> result SDFG;
  MapTiling_apply_to : SDFG -> nat -> Z -> nid -> result (SDFG * nid);
  StreamTransient_apply_to : SDFG -> nat -> nid -> nid -> nid -> result SDFG;
  AccumulateTransient_apply_to :
    SDFG -> nat -> PyNumber -> string -> nid -> nid -> result SDFG;
  expand : SDFG -> nat -> nid -> result SDFG;
  apply_strict_transformations : bool -> SDFG -> result SDFG;
  apply_transformations_repeated_MapFusion : bool -> SDFG -> result SDFG;
  CompositeFusion_apply :
    CompositeFusionDefaults -> SDFG -> nat -> list nid -> result (SDFG * nid);
  (** candidate enumerator: the finite sequence it yields *)
  GreedyEnumerator : SDFG -> nat -> list nid -> bool -> list (list nid);
  (** validator: [false] is an InvalidSDFGError *)
  validate_sdfg : SDFG -> bool;
  validate_state : SDFG -> nat -> bool
}.

(** Python's [x in l] on names, and on node identities. *)
Definition name_in (x : string) (l : list string) : bool :=
  existsb (String.eqb x) l.
Definition nid_in (x : nid) (l : list nid) : bool :=
  existsb (Nat.eqb x) l.

(** ** move_small_arrays_to_stack (lines 297-322) *)

(** The body of the loop, for one [(sd, aname, array)]: the array
    afterwards and what it adds to [converted]. *)
Definition small_array_to_stack (tile_size : Z)
    (constants : gmap string ConstVal) (array : Data.t)
  : result (Data.t * nat) :=
  match Data.kind array with
  | Stream => Ok (array, 0%nat)
  | _ =>
      if Data.transient array
         && StorageType.eqb (Data.storage array) StorageType.Default
         && AllocationLifetime.eqb (Data.lifetime array)
                                   AllocationLifetime.Scope
      then
        if negb (issymbolic (Data.total_size array) constants) then
          eval_size ← evaluate (Data.total_size array) constants;
          match eval_size with
          | Some n =>
              if n <=? tile_size
              then Ok (Data.set_storage StorageType.Register array, 1%nat)
              else Ok (array, 0%nat)
          | None => Ok (array, 0%nat)   (* except TypeError: pass *)
          end
        else Ok (array, 0%nat)
      else Ok (array, 0%nat)
  end.

Definition sum_nat (l : list nat) : nat := foldr Nat.add 0%nat l.

(** sdfg.arrays_recursive(): the arrays of the SDFG, then those of every
    nested SDFG, state by state and node by node. [rec] is the walk on a
    node.  Modelled from the spec: the iterator is not under src/; it yields
    every buffer "anywhere in the program (including nested
    subprograms)". *)
Definition arrays_recursive_to_stack (rec : Node -> result (Node * nat))
    (tile_size : Z) (sd : SDFG) : result (SDFG * nat) :=
  arrs ← mapR (fun p : string * Data.t =>
                 r ← small_array_to_stack tile_size (constants sd) (snd p);
                 Ok ((fst p, fst r), snd r))
              (arrays sd);
  sts ← mapR (fun st : SDFGState =>
                nds ← mapR (fun p : nid * Node =>
                              r ← rec (snd p);
                              Ok ((fst p, fst r), snd r))
                           (nodes st);
                Ok ({| nodes := fst <$> nds; edges := edges st |},
                    sum_nat (snd <$> nds)))
             (states sd);
  Ok ({| arrays := fst <$> arrs; constants := constants sd;
         states := fst <$> sts |},
      (sum_nat (snd <$> arrs) + sum_nat (snd <$> sts))%nat).

Fixpoint node_to_stack (tile_size : Z) (n : Node) : result (Node * nat) :=
  match n with
  | NestedSDFG sd =>
      r ← arrays_recursive_to_stack (node_to_stack tile_size) tile_size sd;
      Ok (NestedSDFG (fst r), snd r)
  | _ => Ok (n, 0%nat)
  end.

Definition move_small_arrays_to_stack (cfg : Config) (sdfg : SDFG) : M SDFG :=
  let tile_size := autotile_size cfg in
  r ← lift (arrays_recursive_to_stack (node_to_stack tile_size)
                                      tile_size sdfg);
  let converted := snd r in
  (if debugprint cfg && (0 <? converted)%nat
   then log (EvPrint (StaticallyAllocating converted))
   else mret tt);;
  mret (fst r).

(** ** set_fast_implementations (lines 325-365) *)

(** Lines 338-343. *)
Definition implementation_prio (env : Environments) (device : DeviceType.t)
    (blocklist : option (list string)) : list string :=
  match blocklist with
  | None => find_fast_library env device
  | Some bl =>
      filter (fun i => negb (name_in i bl) = true)
             (find_fast_library env device)
  end.

(** Lines 357-365 for one node: the node afterwards and the names warned
    about. *)
Definition select_implementation (prio ignore_types : list string)
    (node : Node) : Node * list string :=
  match node with
  | LibraryNode l =>
      if negb (name_in (LibraryNode.type l) ignore_types) then
        match find (fun impl => name_in impl (LibraryNode.implementations l))
                   prio with
        | Some impl => (LibraryNode (LibraryNode.set_implementation impl l), [])
        | None => (node, [LibraryNode.name l])
        end
      else (node, [])
  | _ => (node, [])
  end.

(** sdfg.all_nodes_recursive(): every node, and after a nested SDFG node
    the nodes of its SDFG.  Modelled from the spec: the iterator is not
    under src/; it yields every node "across the whole program (including
    nested subprograms)". *)
Definition select_in_sdfg (rec : Node -> Node * list string) (sd : SDFG)
  : SDFG * list string :=
  let sts :=
    (fun st : SDFGState =>
       let nds := (fun p : nid * Node =>
                     let r := rec (snd p) in ((fst p, fst r), snd r))
                  <$> nodes st in
       ({| nodes := fst <$> nds; edges := edges st |},
        concat (snd <$> nds)))
    <$> states sd in
  ({| arrays := arrays sd; constants := constants sd;
      states := fst <$> sts |},
   concat (snd <$> sts)).

Fixpoint select_in_node (prio ignore_types : list string) (n : Node)
  : Node * list string :=
  match n with
  | NestedSDFG sd =>
      let r := select_in_sdfg (select_in_node prio ignore_types) sd in
      (NestedSDFG (fst r), snd r)
  | _ => select_implementation prio ignore_types n
  end.

(** The second loop, lines 356-365. *)
Definition select_fast (prio ignore_types : list string) (sdfg : SDFG)
  : SDFG * list string :=
  select_in_sdfg (select_in_node prio ignore_types) sdfg.

Definition state_at (sd : SDFG) (i : nat) : option SDFGState :=
  states sd !! i.

(** Lines 349-354 for one node of state [i] of [current_sdfg]. *)
Definition pre_expand_node `{Collaborators} (prio : list string) (i : nat)
    (current_sdfg : SDFG) (p : nid * Node) : M SDFG :=
  match node_now (state_at current_sdfg i) (fst p) (snd p) with
  | LibraryNode l =>
      if bool_decide (LibraryNode.default_implementation l = Some "specialize")
         && negb (existsb (fun impl => name_in impl prio)
                          (LibraryNode.implementations l))
      then
        log (EvPrint (SpecializingNode (LibraryNode.name l)));;
        log (EvExpand i (fst p));;
        lift (expand current_sdfg i (fst p))
      else mret current_sdfg
  | _ => mret current_sdfg
  end.

(** Lines 347-354 for one SDFG: its states, and in each its nodes, as they
    are when the loop reaches them. *)
Definition pre_expand_sdfg `{Collaborators} (prio : list string)
    (current_sdfg : SDFG) : M SDFG :=
  foldM (fun sd i =>
           match state_at sd i with
           | Some st => foldM (pre_expand_node prio i) sd (nodes st)
           | None => mret sd
           end)
        current_sdfg (seq 0 (length (states current_sdfg))).

(** [f] on the SDFG of every nested SDFG node of [sd], in order. *)
Definition for_nested_sdfgs (f : SDFG -> M SDFG) (sd : SDFG) : M SDFG :=
  sts ← foldM (fun (acc : list SDFGState) (st : SDFGState) =>
                 nds ← foldM (fun (acc' : list (nid * Node)) (p : nid * Node) =>
                                match snd p with
                                | NestedSDFG inner =>
                                    inner' ← f inner;
                                    mret (acc' ++ [(fst p, NestedSDFG inner')])%list
                                | _ => mret (acc' ++ [p])%list
                                end)
                             [] (nodes st);
                 mret (acc ++ [{| nodes := nds; edges := edges st |}])%list)
              [] (states sd);
  mret {| arrays := arrays sd; constants := constants sd; states := sts |}.

(** The first loop, lines 346-354, over sdfg.all_sdfgs_recursive(): the SDFG
    itself, then the SDFGs nested in it as the first step left it. *)
Fixpoint pre_expand `{Collaborators} (fuel : nat) (prio : list string)
    (sdfg : SDFG) : M SDFG :=
  match fuel with
  | O => out_of_fuel
  | S fuel' =>
      sd ← pre_expand_sdfg prio sdfg;
      for_nested_sdfgs (pre_expand fuel' prio) sd
  end.

Definition set_fast_implementations `{Collaborators} (fuel : nat)
    (env : Environments) (sdfg : SDFG) (device : DeviceType.t)
    (blocklist : option (list string)) (ignore_types : list string)
  : M SDFG :=
  let prio := implementation_prio env device blocklist in
  sd ← pre_expand fuel prio sdfg;
  let r := select_fast prio ignore_types sd in
  foldM (fun _ name => log (EvWarn name)) tt (snd r);;
  mret (fst r).

(** ** tile_wcrs (lines 124-275) *)

Definition empty_state : SDFGState := {| nodes := []; edges := [] |}.

(** The state object behind position [i]. *)
Definition graph_of (sd : SDFG) (i : nat) : SDFGState :=
  default empty_state (state_at sd i).

Definition is_EntryNode (graph : SDFGState) (n : nid) : bool :=
  match lookup_node graph n with
  | Some (MapEntry _) => true
  | _ => false
  end.
Definition is_ExitNode (graph : SDFGState) (n : nid) : bool :=
  match lookup_node graph n with
  | Some (MapExit _) => true
  | _ => false
  end.
Definition is_NestedSDFG (graph : SDFGState) (n : nid) : bool :=
  match lookup_node graph n with
  | Some (NestedSDFG _) => true
  | _ => false
  end.
Definition is_Tasklet (graph : SDFGState) (n : nid) : bool :=
  match lookup_node graph n with
  | Some (Tasklet _) => true
  | _ => false
  end.

(** graph_or_subgraph.edges() and .nodes(), for a state ([None]) or a
    subgraph of it.  Modelled from the spec: the graph classes are not under
    src/; a subgraph view is a set of nodes of its state with the edges
    between them. *)
Definition view_edges (graph : SDFGState) (sub : option (list nid))
  : list Edge.t :=
  match sub with
  | None => edges graph
  | Some ns =>
      filter (fun e => nid_in (Edge.src e) ns && nid_in (Edge.dst e) ns = true)
             (edges graph)
  end.
Definition view_nodes (graph : SDFGState) (sub : option (list nid))
  : list nid :=
  match sub with
  | None => fst <$> nodes graph
  | Some ns => ns
  end.

(** sdfg.arrays[name] *)
Definition arrays_lookup (sdfg : SDFG) (name : option string)
  : result Data.t :=
  match name with
  | Some a =>
      match arrays_get (arrays sdfg) a with
      | Some d => Ok d
      | None => Raise KeyError
      end
  | None => Raise KeyError
  end.

(** A reference to a map entry: its identity, and the map as it was when
    the reference was taken. *)
Definition MapEntryRef : Type := nid * Map.t.

Definition map_now (sd : SDFG) (i : nat) (me : MapEntryRef) : Map.t :=
  match node_now (state_at sd i) (fst me) (MapEntry (snd me)) with
  | MapEntry m => m
  | _ => snd me
  end.

(** [(s < n) == True]: true only when the comparison is definitely true.
    Modelled from the spec: the comparison is SymPy's, "three-valued
    (provably true / provably false / indeterminate)".  Two integers compare
    as integers; on any other expression the answer is the collaborator
    [sym_lt]'s. *)
Definition definitely_lt `{Collaborators} (s : SymExpr) (n : Z) : bool :=
  match s with
  | Integer x => x <? n
  | _ =>
      match sym_lt s n with
      | Some true => true
      | _ => false
      end
  end.

(** Lines 160-181 for one edge: the pair added to edges_to_consider, if
    any. *)
Definition consider_edge `{Collaborators} (sdfg : SDFG) (graph : SDFGState)
    (sub : option (list nid)) (edge : Edge.t)
  : result (option (Edge.t * MapEntryRef)) :=
  match Memlet.wcr (Edge.data edge) with
  | None => Ok None
  | Some wcr =>
      if is_ExitNode graph (Edge.src edge)
         || is_NestedSDFG graph (Edge.src edge)
         || is_EntryNode graph (Edge.dst edge)
      then Ok None
      else
        match is_write_conflicted_with_reason graph edge with
        | Some (ReasonNode reason) =>
            match lookup_node graph reason with
            | Some (MapEntry m) =>
                if negb (nid_in reason (view_nodes graph sub)) then Ok None
                else
                  let redtype := detect_reduction_type wcr in
                  array ← arrays_lookup sdfg (Memlet.data (Edge.data edge));
                  match reduction_identity (Data.dtype array) redtype with
                  | None => Ok None
                  | Some _ => Ok (Some (edge, (reason, m)))
                  end
            | _ => Ok None
            end
        | _ => Ok None
        end
  end.

(** Lines 157-181. *)
Definition discover `{Collaborators} (sdfg : SDFG) (graph : SDFGState)
    (sub : option (list nid)) : result (list (Edge.t * MapEntryRef)) :=
  found ← mapR (consider_edge sdfg graph sub) (view_edges graph sub);
  Ok (omap (M:=list) id found).

(** set(me for _, me in edges_to_consider) *)
Fixpoint maps_of (l : list (Edge.t * MapEntryRef)) : list MapEntryRef :=
  match l with
  | [] => []
  | (_, me) :: l' =>
      if nid_in (fst me) (fst <$> maps_of l') then maps_of l'
      else me :: maps_of l'
  end.

Definition enumerate {A} (l : list A) : list (nat * A) :=
  zip (seq 0 (length l)) l.

(** Lines 199-204: the map parameters some conflicting edge of the map
    involves. *)
Definition conflicts_of `{Collaborators}
    (edges_to_consider : list (Edge.t * MapEntryRef)) (m : Map.t)
    (mapentry : MapEntryRef) : list string :=
  concat ((fun p : Edge.t * MapEntryRef =>
             if Nat.eqb (fst (snd p)) (fst mapentry)
             then write_conflicted_map_params m (fst p)
             else [])
          <$> edges_to_consider).

(** Line 206: set(mapentry.params) - conflicts *)
Definition nonconflicted_dims_of (m : Map.t) (conflicts : list string)
  : list string :=
  filter (fun p => negb (name_in p conflicts) = true) (Map.params m).

(** Lines 208-211 *)
Definition dims_of (m : Map.t) (nonconflicted_dims : list string)
  : list nat :=
  fst <$> filter (fun ip => name_in (snd ip) nonconflicted_dims = true)
                 (enumerate (Map.params m)).

(** Line 212: the sizes of the dimensions [dims] *)
Definition sizes_of (m : Map.t) (dims : list nat) : list SymExpr :=
  snd <$> filter (fun ip => existsb (Nat.eqb (fst ip)) dims = true)
                 (enumerate (Map.range m)).

(** Lines 198-218 for one map entry: the heuristic that extracts the
    dimensions no conflict involves. *)
Definition extract_parallel_dims `{Collaborators} (tile_size : Z) (i : nat)
    (edges_to_consider : list (Edge.t * MapEntryRef))
    (acc : SDFG * list nid) (mapentry : MapEntryRef) : M (SDFG * list nid) :=
  let sdfg := fst acc in
  let transformed := snd acc in
  let m := map_now sdfg i mapentry in
  let conflicts := conflicts_of edges_to_consider m mapentry in
  let nonconflicted_dims := nonconflicted_dims_of m conflicts in
  match nonconflicted_dims with
  | [] => mret acc
  | _ =>
      let dims := dims_of m nonconflicted_dims in
      if definitely_lt (_prod (sizes_of m dims)) tile_size
      then mret acc
      else
        log (EvExtractMapDims i (fst mapentry) dims);;
        sdfg' ← lift (extract_map_dims sdfg i (fst mapentry) dims);
        mret (sdfg', fst mapentry :: transformed)
  end.

(** graph.exit_node(entry).  Modelled from the spec: the state class is not
    under src/; "every parallel-scope entry has exactly one matching exit",
    found by a search that raises when there is none. *)
Definition exit_node (graph : SDFGState) (entry : nid) : result nid :=
  match find (fun p : nid * Node =>
                match snd p with
                | MapExit e => Nat.eqb e entry
                | _ => false
                end)
             (nodes graph) with
  | Some p => Ok (fst p)
  | None => Raise StopIteration
  end.

Definition out_edges (graph : SDFGState) (n : nid) : list Edge.t :=
  filter (fun e => Nat.eqb (Edge.src e) n = true) (edges graph).

(** [x != 0] on what num_elements() returns.  Modelled from the spec: the
    comparison is SymPy's structural one, so only the integer 0 equals 0. *)
Definition ne_zero (s : SymExpr) : bool :=
  match s with
  | Integer n => negb (n =? 0)
  | _ => true
  end.

Definition make_sequential (n : Node) : Node :=
  match n with
  | MapEntry m => MapEntry (Map.set_schedule ScheduleType.Sequential m)
  | _ => n
  end.

(** Lines 245-272 for one edge leaving the tiled map. *)
Definition accumulate_edge `{Collaborators} (i : nat)
    (mapexit outer_mapexit : nid) (sdfg : SDFG) (e : Edge.t) : M SDFG :=
  let graph := graph_of sdfg i in
  array ← lift (arrays_lookup sdfg (Memlet.data (Edge.data e)));
  match Data.kind array with
  | Stream =>
      let mpath := memlet_path graph e in
      match mpath with
      | [] => raise IndexError
      | first :: _ =>
          let tasklet := Edge.src first in
          if negb (is_Tasklet graph tasklet)
             || negb (Nat.eqb (length mpath) 3)
          then mret sdfg
          else
            log (EvStreamTransient i tasklet mapexit outer_mapexit);;
            lift (StreamTransient_apply_to sdfg i tasklet mapexit
                                           outer_mapexit)
      end
  | _ =>
      let memlet := Edge.data e in
      if Memlet.is_empty memlet
         || negb (bool_decide (is_Some (Memlet.wcr memlet)))
         || Memlet.wcr_nonatomic memlet
         || match Memlet.dst_subset memlet with
            | Some num_elements => ne_zero num_elements && Memlet.dynamic memlet
            | None => false
            end
      then mret sdfg
      else
        match Memlet.wcr memlet, Memlet.data memlet with
        | Some wcr, Some name =>
            let dtype := Data.dtype array in
            let redtype := detect_reduction_type wcr in
            match reduction_identity dtype redtype with
            | None => mret sdfg
            | Some ident =>
                log (EvAccumulateTransient i ident name mapexit
                                           outer_mapexit);;
                lift (AccumulateTransient_apply_to sdfg i ident name
                                                   mapexit outer_mapexit)
            end
        | _, _ => mret sdfg
        end
  end.

(** Lines 237-272: MapTiling, then AccumulateTransient or StreamTransient
    on the edges that leave the tiled map. *)
Definition tile_and_accumulate `{Collaborators} (tile_size : Z) (i : nat)
    (sdfg : SDFG) (mapentry : MapEntryRef) : M SDFG :=
  log (EvMapTiling i tile_size (fst mapentry));;
  r ← lift (MapTiling_apply_to sdfg i tile_size (fst mapentry));
  let sdfg1 := fst r in
  let outer_mapentry := snd r in
  mapexit ← lift (exit_node (graph_of sdfg1 i) (fst mapentry));
  outer_mapexit ← lift (exit_node (graph_of sdfg1 i) outer_mapentry);
  foldM (accumulate_edge i mapexit outer_mapexit) sdfg1
        (out_edges (graph_of sdfg1 i) mapexit).

(** Lines 229-235: the map is left as it is and made sequential. *)
Definition make_map_sequential (cfg : Config) (i : nat) (sdfg : SDFG)
    (mapentry : MapEntryRef) : M SDFG :=
  (if debugprint cfg
   then log (EvPrint (MakingMapSequential (fst mapentry)))
   else mret tt);;
  mret (update_state (update_node make_sequential (fst mapentry)) i sdfg).

(** Line 228: all((s < tile_size) == True for s in mapentry.map.range.size()) *)
Definition smaller_than_tile `{Collaborators} (tile_size : Z) (m : Map.t)
  : bool :=
  forallb (fun s => definitely_lt s tile_size) (Map.range m).

(** Lines 222-272 for one pair of edges_to_consider. *)
Definition tile_map `{Collaborators} (cfg : Config) (i : nat)
    (acc : SDFG * list nid) (entry : Edge.t * MapEntryRef)
  : M (SDFG * list nid) :=
  let sdfg := fst acc in
  let mapentry := snd entry in
  let tile_size := autotile_size cfg in
  if nid_in (fst mapentry) (snd acc) then mret acc
  else
    let transformed := fst mapentry :: snd acc in
    sdfg' ← (if smaller_than_tile tile_size (map_now sdfg i mapentry)
             then make_map_sequential cfg i sdfg mapentry
             else tile_and_accumulate tile_size i sdfg mapentry);
    mret (sdfg', transformed).

(** Lines 155-275: the tiler on a state ([sub = None]) or on a subgraph of
    a state. *)
Definition tile_wcrs_in_state `{Collaborators} (cfg : Config) (sdfg : SDFG)
    (i : nat) (sub : option (list nid))
    (prefer_partial_parallelism : option bool) : M SDFG :=
  match state_at sdfg i with
  | None => raise IndexError
  | Some graph =>
      edges_to_consider ← lift (discover sdfg graph sub);
      let tile_size := autotile_size cfg in
      let prefer :=
        match prefer_partial_parallelism with
        | None => autotile_partial_parallelism cfg
        | Some b => b
        end in
      let maps_to_consider := maps_of edges_to_consider in
      acc ← (if prefer
             then foldM (extract_parallel_dims tile_size i edges_to_consider)
                        (sdfg, []) maps_to_consider
             else mret (sdfg, []));
      acc' ← foldM (tile_map cfg i) acc edges_to_consider;
      (if debugprint cfg && (0 <? length (snd acc'))%nat
       then log (EvPrint (OptimizedWriteConflictedMaps (length (snd acc'))))
       else mret tt);;
      mret (fst acc')
  end.

(** tile_wcrs: on an SDFG (or a subgraph of one) it calls itself on every
    state with [validate_all] only (lines 148-151). *)
Definition tile_wcrs `{Collaborators} (cfg : Config) (sdfg : SDFG)
    (graph_or_subgraph : GraphView) (validate_all : bool)
    (prefer_partial_parallelism : option bool) : M SDFG :=
  match graph_or_subgraph with
  | ViewSDFG =>
      foldM (fun sd state => tile_wcrs_in_state cfg sd state None None)
            sdfg (seq 0 (length (states sdfg)))
  | ViewSDFGSubgraph sts =>
      foldM (fun sd state => tile_wcrs_in_state cfg sd state None None)
            sdfg sts
  | ViewState state =>
      tile_wcrs_in_state cfg sdfg state None prefer_partial_parallelism
  | ViewSubgraph state ns =>
      tile_wcrs_in_state cfg sdfg state (Some ns) prefer_partial_parallelism
  end.

(** ** greedy_fuse (lines 28-120) *)

(** Lines 77-83: the class-level defaults of CompositeFusion. *)
Definition set_fusion_defaults (tile : bool) (device : DeviceType.t)
    (d : CompositeFusionDefaults) : CompositeFusionDefaults :=
  if tile then
    {| allow_tiling := true;
       schedule_innermaps := ScheduleType.Sequential;
       stencil_unroll_loops :=
         if DeviceType.eqb device DeviceType.GPU then true
         else stencil_unroll_loops d |}
  else
    {| allow_tiling := false;
       schedule_innermaps := schedule_innermaps d;
       stencil_unroll_loops := stencil_unroll_loops d |}.

(** Lines 86-95: the fusion of one candidate set.  Returns the SDFG, the
    global map entry of the fusion if one was applied, and the counter. *)
Definition fuse_candidates `{Collaborators} (i : nat) (sd : SDFG)
    (applied_transformations : nat) (map_entries : list nid)
  : M (SDFG * option nid * nat) :=
  if (1 <? length map_entries)%nat then
    d ← get_defaults;
    log (EvCompositeFusion i map_entries d);;
    r ← lift (CompositeFusion_apply d sd i map_entries);
    log EvValidateSDFG;;
    (if validate_sdfg (fst r) then mret tt else raise InvalidSDFGError);;
    mret (fst r, Some (snd r), S applied_transformations)
  else mret (sd, None, applied_transformations).

(** Lines 97-98. *)
Definition global_entry_of (cf : option nid) (map_entries : list nid)
  : M nid :=
  match cf with
  | Some global_map_entry => mret global_map_entry
  | None =>
      match map_entries with
      | x :: _ => mret x
      | [] => raise IndexError
      end
  end.

Definition replace_node (n : nid) (new : Node) (i : nat) (sd : SDFG) : SDFG :=
  update_state (update_node (fun _ => new) n) i sd.

(** The type of greedy_fuse: the SDFG, the view, validate_all, device,
    recursive, tile. *)
Definition GreedyFuse : Type :=
  SDFG -> GraphView -> bool -> DeviceType.t -> bool -> bool -> M SDFG.

(** A call of greedy_fuse ([self]) made at [site] by a call that runs with
    the arguments [caller]. *)
Definition call (self : GreedyFuse) (site : CallSite) (caller : FuseArgs)
    (sd : SDFG) (view : GraphView) (validate_all : bool)
    (device : DeviceType.t) (recursive tile : bool) : M SDFG :=
  log (EvGreedyFuse site caller
         {| fa_validate_all := validate_all; fa_device := device;
            fa_recursive := recursive; fa_tile := tile |});;
  self sd view validate_all device recursive tile.

(** Lines 85-102: the loop over the candidate sets of the enumerator. *)
Definition fuse_loop `{Collaborators} (self : GreedyFuse) (caller : FuseArgs)
    (i : nat) (validate_all recursive : bool)
    (acc : SDFG * nat) (map_entries : list nid) : M (SDFG * nat) :=
  f ← fuse_candidates i (fst acc) (snd acc) map_entries;
  let sd1 := fst (fst f) in
  if recursive then
    global_entry ← global_entry_of (snd (fst f)) map_entries;
    sd2 ← call self FromScopeBody caller sd1
            (ViewSubgraph i (scope_subgraph (graph_of sd1 i) global_entry))
            validate_all DeviceType.CPU true false;
    mret (sd2, snd f)
  else mret (sd1, snd f).

(** Lines 104-110: the nested SDFG nodes of the view. *)
Definition fuse_nested (self : GreedyFuse) (caller : FuseArgs) (i : nat)
    (validate_all : bool) (device : DeviceType.t) (recursive tile : bool)
    (sd : SDFG) (node : nid) : M SDFG :=
  match lookup_node (graph_of sd i) node with
  | Some (NestedSDFG inner) =>
      inner' ← call self FromNestedSDFG caller inner ViewSDFG
                 validate_all device recursive tile;
      mret (replace_node node (NestedSDFG inner') i sd)
  | _ => mret sd
  end.

(** Lines 112-120: the message and the validation that end the pass. *)
Definition finish_pass `{Collaborators} (i : nat) (validate_all tile : bool)
    (applied_transformations : nat) (sd : SDFG) : M SDFG :=
  (if (0 <? applied_transformations)%nat then
     if tile
     then log (EvPrint (AppliedTileFusion applied_transformations))
     else log (EvPrint (AppliedSubgraphFusion applied_transformations))
   else mret tt);;
  (if validate_all then
     log (EvValidateGraph i);;
     if validate_state sd i then mret tt else raise InvalidSDFGError
   else mret tt);;
  mret sd.

(** Lines 59-120: the pass in state [i], on the whole state ([sub = None])
    or on the nodes [sub] of a subgraph. *)
Definition fuse_in_graph `{Collaborators} (self : GreedyFuse) (sdfg : SDFG)
    (i : nat) (sub : option (list nid)) (validate_all : bool)
    (device : DeviceType.t) (recursive tile : bool) : M SDFG :=
  let caller := {| fa_validate_all := validate_all; fa_device := device;
                   fa_recursive := recursive; fa_tile := tile |} in
  sd0 ← match sub with
         | None =>
             log (EvMapFusion validate_all);;
             lift (apply_transformations_repeated_MapFusion
                     validate_all sdfg)
         | Some _ => mret sdfg
         end;
  let subgraph := view_nodes (graph_of sd0 i) sub in
  let reverse := if tile then true else false in
  let enumerator := GreedyEnumerator sd0 i subgraph reverse in
  d ← get_defaults;
  set_defaults (set_fusion_defaults tile device d);;
  r ← foldM (fuse_loop self caller i validate_all recursive)
            (sd0, 0%nat) enumerator;
  sd3 ← foldM (fuse_nested self caller i validate_all device recursive tile)
              (fst r) (view_nodes (graph_of (fst r) i) sub);
  finish_pass i validate_all tile (snd r) sd3.

(** Lines 43-56: the pass on an SDFG. *)
Definition fuse_in_sdfg `{Collaborators} (self : GreedyFuse) (sdfg : SDFG)
    (validate_all : bool) (device : DeviceType.t) (recursive tile : bool)
  : M SDFG :=
  let caller := {| fa_validate_all := validate_all; fa_device := device;
                   fa_recursive := recursive; fa_tile := tile |} in
  log (EvStrictTransformations validate_all);;
  sd0 ← lift (apply_strict_transformations validate_all sdfg);
  log (EvMapFusion validate_all);;
  sd1 ← lift (apply_transformations_repeated_MapFusion validate_all sd0);
  foldM (fun (sd : SDFG) (graph : nat) =>
           call self FromStates caller sd (ViewState graph)
                validate_all device recursive tile)
        sd1 (seq 0 (length (states sd1))).

(** The body of greedy_fuse, its calls to itself going to [self]. *)
Definition greedy_fuse_body `{Collaborators} (self : GreedyFuse) : GreedyFuse :=
  fun sdfg graph_or_subgraph validate_all device recursive tile =>
    match graph_or_subgraph with
    | ViewSDFG => fuse_in_sdfg self sdfg validate_all device recursive tile
    | ViewState i =>
        fuse_in_graph self sdfg i None validate_all device recursive tile
    | ViewSubgraph i ns =>
        fuse_in_graph self sdfg i (Some ns) validate_all device recursive tile
    | ViewSDFGSubgraph _ => raise AttributeError
    end.

(** greedy_fuse, with [fuel] calls of depth. *)
Fixpoint greedy_fuse `{Collaborators} (fuel : nat) : GreedyFuse :=
  match fuel with
  | O => fun _ _ _ _ _ _ => out_of_fuel
  | S fuel' => greedy_fuse_body (greedy_fuse fuel')
  end.

(** ** What the reclassifier is to do, in the words of its contract

    A buffer is moved when it is transient, not a stream, in default
    storage, of scope lifetime, and its total size is a number at most the
    threshold. *)

Definition small_transient (tile_size : Z) (constants : gmap string ConstVal)
    (a : Data.t) : bool :=
  match Data.kind a with
  | Stream => false
  | _ =>
      Data.transient a
      && StorageType.eqb (Data.storage a) StorageType.Default
      && AllocationLifetime.eqb (Data.lifetime a) AllocationLifetime.Scope
      && match subs (Data.total_size a) constants with
         | Some n => n <=? tile_size
         | None => false
         end
  end.

Definition reclassify (tile_size : Z) (constants : gmap string ConstVal)
    (a : Data.t) : Data.t :=
  if small_transient tile_size constants a
  then Data.set_storage StorageType.Register a
  else a.

Definition reclassify_sdfg (rec : Node -> Node) (tile_size : Z) (sd : SDFG)
  : SDFG :=
  {| arrays := (fun p : string * Data.t =>
                  (fst p, reclassify tile_size (constants sd) (snd p)))
               <$> arrays sd;
     constants := constants sd;
     states := (fun st : SDFGState =>
                  {| nodes := (fun p : nid * Node => (fst p, rec (snd p)))
                              <$> nodes st;
                     edges := edges st |})
               <$> states sd |}.

Fixpoint reclassify_node (tile_size : Z) (n : Node) : Node :=
  match n with
  | NestedSDFG sd =>
      NestedSDFG (reclassify_sdfg (reclassify_node tile_size) tile_size sd)
  | _ => n
  end.

Definition reclassifySmallBuffers (tile_size : Z) (sdfg : SDFG) : SDFG :=
  reclassify_sdfg (reclassify_node tile_size) tile_size sdfg.

(** How many buffers that moves. *)
Definition count_small_sdfg (rec : Node -> nat) (tile_size : Z) (sd : SDFG)
  : nat :=
  (sum_nat ((fun p : string * Data.t =>
               if small_transient tile_size (constants sd) (snd p)
               then 1%nat else 0%nat)
            <$> arrays sd)
   + sum_nat ((fun st : SDFGState =>
                 sum_nat ((fun p : nid * Node => rec (snd p)) <$> nodes st))
              <$> states sd))%nat.

Fixpoint count_small_node (tile_size : Z) (n : Node) : nat :=
  match n with
  | NestedSDFG sd => count_small_sdfg (count_small_node tile_size) tile_size sd
  | _ => 0%nat
  end.

Definition count_small (tile_size : Z) (sdfg : SDFG) : nat :=
  count_small_sdfg (count_small_node tile_size) tile_size sdfg.

(** ** The library nodes of a program, in the order of
    all_nodes_recursive *)

Definition library_nodes_sdfg (rec : Node -> list LibraryNode.t) (sd : SDFG)
  : list LibraryNode.t :=
  concat ((fun st : SDFGState =>
             concat ((fun p : nid * Node => rec (snd p)) <$> nodes st))
          <$> states sd).

Fixpoint library_nodes_node (n : Node) : list LibraryNode.t :=
  match n with
  | LibraryNode l => [l]
  | NestedSDFG sd => library_nodes_sdfg library_nodes_node sd
  | _ => []
  end.

Definition library_nodes (sdfg : SDFG) : list LibraryNode.t :=
  library_nodes_sdfg library_nodes_node sdfg.

(** A library node that is not ignored and supports no entry of the
    preference list. *)
Definition unsupported (prio ignore_types : list string)
    (l : LibraryNode.t) : bool :=
  negb (name_in (LibraryNode.type l) ignore_types)
  && forallb (fun impl => negb (name_in impl (LibraryNode.implementations l)))
             prio.

(** What the second pass of the selector is to do with a library node:
    leave an ignored one, give another the first entry of the preference
    list it supports, and leave it when it supports none. *)
Definition assigned (prio ignore_types : list string)
    (l l' : LibraryNode.t) : Prop :=
  if name_in (LibraryNode.type l) ignore_types then l' = l
  else
    (exists pre impl post,
        prio = (pre ++ impl :: post)%list
        /\ impl ∈ LibraryNode.implementations l
        /\ (forall x, x ∈ pre -> x ∉ LibraryNode.implementations l)
        /\ l' = LibraryNode.set_implementation impl l)
    \/ ((forall x, x ∈ prio -> x ∉ LibraryNode.implementations l)
        /\ l' = l).

Definition warned (prio ignore_types : list string)
    (ls : list LibraryNode.t) : list string :=
  LibraryNode.name <$> filter (fun l => unsupported prio ignore_types l = true)
                              ls.

(** ** Programs and views the tiler is stated on *)

(** No data edge of the program carries a write-conflict combinator. *)
Definition no_wcr (sdfg : SDFG) : Prop :=
  Forall (fun st : SDFGState =>
            Forall (fun e => Memlet.wcr (Edge.data e) = None) (edges st))
         (states sdfg).

(** The view names states the program has. *)
Definition valid_view (sdfg : SDFG) (v : GraphView) : Prop :=
  match v with
  | ViewSDFG => True
  | ViewState i => (i < length (states sdfg))%nat
  | ViewSubgraph i _ => (i < length (states sdfg))%nat
  | ViewSDFGSubgraph sts =>
      Forall (fun i => (i < length (states sdfg))%nat) sts
  end.

(** The reduction identity of an edge's pair of buffer element type and
    combinator kind, when the edge has a combinator, its buffer exists and
    the identity can be inferred. *)
Definition edge_identity `{Collaborators} (sdfg : SDFG) (e : Edge.t)
  : option PyNumber :=
  match Memlet.wcr (Edge.data e),
        arrays_lookup sdfg (Memlet.data (Edge.data e)) with
  | Some wcr, Ok array =>
      reduction_identity (Data.dtype array) (detect_reduction_type wcr)
  | _, _ => None
  end.

(** An event of the accumulation step on edge [e]: a stream buffering, or
    an accumulation buffer for the buffer of [e] seeded with the identity
    of [e]. *)
Definition accumulates `{Collaborators} (sdfg : SDFG) (e : Edge.t)
    (ev : Event) : Prop :=
  match ev with
  | EvStreamTransient _ _ _ _ => True
  | EvAccumulateTransient _ ident array _ _ =>
      edge_identity sdfg e = Some ident
      /\ Memlet.data (Edge.data e) = Some array
  | _ => False
  end.

(** The events the tiler can add: its two messages, the rewrites it calls,
    and an accumulation buffer only with a value that is the reduction
    identity of some element type and combinator kind. *)
Definition tiler_event `{Collaborators} (ev : Event) : Prop :=
  match ev with
  | EvPrint (MakingMapSequential _) => True
  | EvPrint (OptimizedWriteConflictedMaps _) => True
  | EvExtractMapDims _ _ _ => True
  | EvMapTiling _ _ _ => True
  | EvStreamTransient _ _ _ _ => True
  | EvAccumulateTransient _ ident _ _ _ =>
      exists dtype redtype, reduction_identity dtype redtype = Some ident
  | _ => False
  end.

(** The program with the maps [ns] of state [i] made sequential. *)
Definition make_all_sequential (i : nat) (ns : list nid) (sd : SDFG) : SDFG :=
  foldl (fun sd n => update_state (update_node make_sequential n) i sd) sd ns.

(** The same in one step: in state [i] the map entries among [ns] have the
    sequential schedule, and nothing else differs. *)
Definition sequentialized (i : nat) (ns : list nid) (sd : SDFG) : SDFG :=
  update_state
    (fun g : SDFGState =>
       {| nodes := (fun p : nid * Node =>
                      if nid_in (fst p) ns
                      then (fst p, make_sequential (snd p)) else p)
                   <$> nodes g;
          edges := edges g |})
    i sd.

(** The map entries the tiling loop comes to first, in its order: those of
    the pairs whose entry is not yet among the transformed ones. *)
Fixpoint newly_transformed (transformed : list nid)
    (l : list (Edge.t * MapEntryRef)) : list nid :=
  match l with
  | [] => []
  | p :: l' =>
      if nid_in (fst (snd p)) transformed then newly_transformed transformed l'
      else fst (snd p) :: newly_transformed (fst (snd p) :: transformed) l'
  end.

(** The product of concrete sizes. *)
Definition product (ns : list Z) : Z := foldl Z.mul 1 ns.

(** ** Stores and outcomes *)

Definition outcome_store {A} (o : Outcome A) : option Store :=
  match o with
  | Done _ s => Some s
  | Raised _ s => Some s
  | OutOfFuel => None
  end.

Definition add_events (evs : list Event) (s : Store) : Store :=
  {| trace := (trace s ++ evs)%list; CompositeFusion := CompositeFusion s |}.

Definition initial_store : Store :=
  {| trace := [];
     CompositeFusion := {| allow_tiling := false;
                           schedule_innermaps := ScheduleType.Default;
                           stencil_unroll_loops := false |} |}.

(** A computation only adds events to the trace, each of them one that
    [P] allows; [partial] tells whether it may run out of fuel. *)
Definition appends {A} (partial : bool) (P : Event -> Prop) (c : M A)
  : Prop :=
  forall s,
    match c s with
    | Done _ s' | Raised _ s' =>
        exists evs, trace s' = (trace s ++ evs)%list /\ Forall P evs
    | OutOfFuel => partial = true
    end.

(** What holds of one node and is carried through the nesting. *)
Definition selected (prio ign : list string) (rec : Node -> Node * list string)
    (n : Node) : Prop :=
  Forall2 (assigned prio ign) (library_nodes_node n)
          (library_nodes_node (fst (rec n)))
  /\ snd (rec n) = warned prio ign (library_nodes_node n).

(** Run from [s], the computation ends (it returns or raises) and what it
    added to the trace starts with [ev], followed by events [P] allows. *)
Definition starts_with {A} (ev : Event) (P : Event -> Prop) (c : M A)
    (s : Store) : Prop :=
  match c s with
  | Done _ s' | Raised _ s' =>
      exists evs, trace s' = (trace s ++ ev :: evs)%list /\ Forall P evs
  | OutOfFuel => False
  end.

(** ** Events of the fusion engine *)







(** The candidate sets the pass over a region goes through (lines 62-75):
    what the enumerator yields, on a state after MapFusion. *)
Definition candidate_sets `{Collaborators} (sdfg : SDFG) (i : nat)
    (sub : option (list nid)) (validate_all tile : bool)
  : list (list nid) :=
  let sd0 :=
    match sub with
    | None =>
        match apply_transformations_repeated_MapFusion validate_all sdfg with
        | Ok sd0 => sd0
        | Raise _ => sdfg
        end
    | Some _ => sdfg
    end in
  GreedyEnumerator sd0 i (view_nodes (graph_of sd0 i) sub)
                   (if tile then true else false).

(** The nested SDFG nodes of a region. *)
Definition nested_sdfg_nodes (sd : SDFG) (i : nat) (sub : option (list nid))
  : list nid :=
  filter (fun n => is_NestedSDFG (graph_of sd i) n = true)
         (view_nodes (graph_of sd i) sub).


(** Not the validation that ends a pass. *)
Definition not_end_validation (ev : Event) : Prop :=
  forall i, ev <> EvValidateGraph i.

(** Events other than a call of greedy_fuse and the validation that ends
    a pass. *)
Definition ordinary (ev : Event) : bool :=
  match ev with
  | EvGreedyFuse _ _ _ => false
  | EvValidateGraph _ => false
  | _ => true
  end.

(** The state a view is a region of. *)
Definition region_of (view : GraphView) : option nat :=
  match view with
  | ViewState i => Some i
  | ViewSubgraph i _ => Some i
  | _ => None
  end.

(** When the computation returns, the last event of the trace is [ev]. *)
Definition ends_with {A} (ev : Event) (c : M A) : Prop :=
  forall s a s', c s = Done a s' -> last (trace s') = Some ev.

(** ** A concrete set of collaborators and small programs to run on *)

Module Demo.

Definition sum_wcr : string := "lambda a, b: a + b".
Definition prod_wcr : string := "lambda a, b: a * b".
Definition custom_wcr : string := "lambda a, b: f(a, b)".

Definition detect (wcr : string) : ReductionType.t :=
  if String.eqb wcr sum_wcr then ReductionType.Sum
  else if String.eqb wcr prod_wcr then ReductionType.Product
  else ReductionType.Custom.

Definition identity_of (t : typeclass) (r : ReductionType.t)
  : option PyNumber :=
  match r, t with
  | ReductionType.Sum, (float32 | float64) => Some (PyFloat "0.0")
  | ReductionType.Sum, (int32 | int64) => Some (PyInt 0)
  | ReductionType.Product, (float32 | float64) => Some (PyFloat "1.0")
  | ReductionType.Product, (int32 | int64) => Some (PyInt 1)
  | _, _ => None
  end.

(** The map entry that encloses the source of the edge: in these
    programs the entry whose exit the edge enters. *)
Definition conflict_reason (graph : SDFGState) (e : Edge.t)
  : option Reason :=
  match lookup_node graph (Edge.dst e) with
  | Some (MapExit entry) => Some (ReasonNode entry)
  | _ => None
  end.

(** Parameters named k... are the ones a conflict involves. *)
Definition conflicted_params (m : Map.t) (_ : Edge.t) : list string :=
  filter (fun p => String.prefix "k" p = true) (Map.params m).

(** Every size of the map at [entry] is the tile size. *)
Definition nothing_to_tile (st : SDFGState) (tile_size : Z) (entry : nid)
  : bool :=
  match lookup_node st entry with
  | Some (MapEntry m) =>
      forallb (fun size => match size with
                           | Integer n => n =? tile_size
                           | _ => false
                           end)
              (Map.range m)
  | _ => false
  end.

(** Tiling adds an outer entry and exit around the map.  A dimension whose
    size is the tile size is not tiled: when that is so of all of them the
    graph is left as it is and no outer entry comes back (here an identity
    that names no node). *)
Definition tiling (sd : SDFG) (i : nat) (tile_size : Z) (entry : nid)
  : result (SDFG * nid) :=
  let outer := (100 + entry)%nat in
  let outer_exit := (200 + entry)%nat in
  if nothing_to_tile (graph_of sd i) tile_size entry then Ok (sd, outer)
  else
  Ok (update_state
        (fun st =>
           {| nodes := (nodes st
                        ++ [(outer,
                             MapEntry {| Map.params := ["tile"];
                                         Map.range := [Symbol "tiles"];
                                         Map.schedule :=
                                           ScheduleType.Default |});
                            (outer_exit, MapExit outer)])%list;
              edges := (edges st
                        ++ ((fun e => {| Edge.src := outer_exit;
                                         Edge.dst := Edge.dst e;
                                         Edge.data := Edge.data e |})
                            <$> filter
                                  (fun e => is_ExitNode st (Edge.src e)
                                            = true)
                                  (edges st)))%list |})
        i sd,
      outer).

(** One candidate set: the map entries of the subgraph. *)
Definition candidates (sd : SDFG) (i : nat) (sub : list nid) (_ : bool)
  : list (list nid) :=
  match filter (fun n => is_EntryNode (graph_of sd i) n = true) sub with
  | [] => []
  | l => [l]
  end.

#[export] Instance collaborators : Collaborators := {|
  sym_lt := fun _ _ => None;
  is_write_conflicted_with_reason := conflict_reason;
  write_conflicted_map_params := conflicted_params;
  detect_reduction_type := detect;
  reduction_identity := identity_of;
  memlet_path := fun _ e => [e];
  scope_subgraph := fun _ _ => [];
  extract_map_dims := fun sd _ _ _ => Ok sd;
  MapTiling_apply_to := tiling;
  StreamTransient_apply_to := fun sd _ _ _ _ => Ok sd;
  AccumulateTransient_apply_to := fun sd _ _ _ _ _ => Ok sd;
  expand := fun sd _ _ => Ok sd;
  apply_strict_transformations := fun _ sd => Ok sd;
  apply_transformations_repeated_MapFusion := fun _ sd => Ok sd;
  CompositeFusion_apply := fun _ sd _ entries => Ok (sd, hd 0%nat entries);
  GreedyEnumerator := candidates;
  validate_sdfg := fun _ => true;
  validate_state := fun _ _ => true
|}.

Definition config (tile_size : Z) : Config :=
  {| autotile_size := tile_size;
     autotile_partial_parallelism := false;
     debugprint := true |}.

Definition buffer (k : DataKind) (size : SymExpr) : Data.t :=
  {| Data.kind := k; Data.dtype := float32; Data.shape := [size];
     Data.total_size := size; Data.transient := true;
     Data.storage := StorageType.Default;
     Data.lifetime := AllocationLifetime.Scope |}.

Definition memlet (name : string) (wcr : option string) : Memlet.t :=
  {| Memlet.data := Some name; Memlet.src_subset := None;
     Memlet.dst_subset := Some (Integer 1); Memlet.wcr := wcr;
     Memlet.wcr_nonatomic := false; Memlet.dynamic := false |}.

Definition the_map (params : list string) (range : list SymExpr) : Map.t :=
  {| Map.params := params; Map.range := range;
     Map.schedule := ScheduleType.Default |}.

(** The edge from the tasklet to the exit of the map. *)
Definition inner_edge (w : option string) : Edge.t :=
  {| Edge.src := 1%nat; Edge.dst := 2%nat; Edge.data := memlet "A" w |}.

(** One map (entry 0, tasklet 1, exit 2) that writes to the access node 3
    of the array "A" through [w]. *)
Definition map_state (params : list string) (range : list SymExpr)
    (w : option string) : SDFGState :=
  {| nodes := [(0%nat, MapEntry (the_map params range));
               (1%nat, Tasklet "t");
               (2%nat, MapExit 0%nat);
               (3%nat, AccessNode "A")];
     edges := [inner_edge w;
               {| Edge.src := 2%nat; Edge.dst := 3%nat;
                  Edge.data := memlet "A" w |}] |}.

Definition program (params : list string) (range : list SymExpr)
    (w : option string) : SDFG :=
  {| arrays := [("A", buffer Array (Integer 1))];
     constants := ∅;
     states := [map_state params range w] |}.

(** Two maps side by side (entries 0 and 4), no write conflict. *)
Definition two_maps : SDFG :=
  {| arrays := [("A", buffer Array (Integer 1))];
     constants := ∅;
     states :=
       [{| nodes := [(0%nat, MapEntry {| Map.params := ["i"];
                                         Map.range := [Integer 8];
                                         Map.schedule :=
                                           ScheduleType.Default |});
                     (1%nat, Tasklet "t");
                     (2%nat, MapExit 0%nat);
                     (3%nat, AccessNode "A");
                     (4%nat, MapEntry {| Map.params := ["j"];
                                         Map.range := [Integer 8];
                                         Map.schedule :=
                                           ScheduleType.Default |});
                     (5%nat, Tasklet "u");
                     (6%nat, MapExit 4%nat)];
           edges := [{| Edge.src := 1%nat; Edge.dst := 2%nat;
                        Edge.data := memlet "A" None |};
                     {| Edge.src := 2%nat; Edge.dst := 3%nat;
                        Edge.data := memlet "A" None |}] |}] |}.

(** The two maps next to a nested SDFG (node 7) that holds the two maps
    again. *)
Definition nested_maps : SDFG :=
  {| arrays := arrays two_maps;
     constants := ∅;
     states :=
       [{| nodes := (nodes (graph_of two_maps 0)
                     ++ [(7%nat, NestedSDFG two_maps)])%list;
           edges := edges (graph_of two_maps 0) |}] |}.

Definition library_node (name : string) (impls : list string)
  : LibraryNode.t :=
  {| LibraryNode.name := name; LibraryNode.type := "MatMul";
     LibraryNode.implementations := impls;
     LibraryNode.implementation := None;
     LibraryNode.default_implementation := None |}.

(** A library node next to a nested SDFG that holds another one and a
    small buffer. *)
Definition nested_program : SDFG :=
  {| arrays := [("A", buffer Array (Integer 128));
                ("B", buffer Array (Integer 129));
                ("S", buffer Stream (Integer 1));
                ("N", buffer Array (Symbol "N"))];
     constants := ∅;
     states :=
       [{| nodes := [(0%nat, LibraryNode (library_node "gemm"
                                            ["OpenBLAS"; "MKL"; "pure"]));
                     (1%nat, NestedSDFG
                               {| arrays := [("C", buffer Array
                                                     (Integer 4))];
                                  constants := ∅;
                                  states :=
                                    [{| nodes :=
                                          [(0%nat,
                                            LibraryNode
                                              (library_node "odd"
                                                 ["custom"]))];
                                        edges := [] |}] |})];
           edges := [] |}] |}.

End Demo.

(** Collaborators with another MapTiling.apply_to. *)
Definition with_tiling (C : Collaborators)
    (t : SDFG -> nat -> Z -> nid -> result (SDFG * nid)) : Collaborators :=
  {| sym_lt := @sym_lt C;
     is_write_conflicted_with_reason := @is_write_conflicted_with_reason C;
     write_conflicted_map_params := @write_conflicted_map_params C;
     detect_reduction_type := @detect_reduction_type C;
     reduction_identity := @reduction_identity C;
     memlet_path := @memlet_path C;
     scope_subgraph := @scope_subgraph C;
     extract_map_dims := @extract_map_dims C;
     MapTiling_apply_to := t;
     StreamTransient_apply_to := @StreamTransient_apply_to C;
     AccumulateTransient_apply_to := @AccumulateTransient_apply_to C;
     expand := @expand C;
     apply_strict_transformations := @apply_strict_transformations C;
     apply_transformations_repeated_MapFusion :=
       @apply_transformations_repeated_MapFusion C;
     CompositeFusion_apply := @CompositeFusion_apply C;
     GreedyEnumerator := @GreedyEnumerator C;
     validate_sdfg := @validate_sdfg C;
     validate_state := @validate_state C |}.

(** ** Induction on nodes, through the nested SDFGs *)

Section Node_induction.
Variable P : Node -> Prop.
Hypothesis P_MapEntry : forall m, P (MapEntry m).
Hypothesis P_MapExit : forall e, P (MapExit e).
Hypothesis P_Tasklet : forall l, P (Tasklet l).
Hypothesis P_AccessNode : forall d, P (AccessNode d).
Hypothesis P_LibraryNode : forall l, P (LibraryNode l).
Hypothesis P_NestedSDFG : forall sd : SDFG,
  Forall (fun st : SDFGState => Forall (fun p => P (snd p)) (nodes st))
         (states sd) ->
  P (NestedSDFG sd).

Fixpoint Node_nested_ind (n : Node) : P n :=
  match n with
  | MapEntry m => P_MapEntry m
  | MapExit e => P_MapExit e
  | Tasklet l => P_Tasklet l
  | AccessNode d => P_AccessNode d
  | LibraryNode l => P_LibraryNode l
  | NestedSDFG sd =>
      P_NestedSDFG sd
        ((fix on_states (l : list SDFGState)
            : Forall (fun st : SDFGState =>
                        Forall (fun p => P (snd p)) (nodes st)) l :=
            match l with
            | [] => @List.Forall_nil _ _
            | st :: l' =>
                @List.Forall_cons _ _ st l'
                  ((fix on_nodes (ns : list (nid * Node))
                      : Forall (fun p => P (snd p)) ns :=
                      match ns with
                      | [] => @List.Forall_nil _ _
                      | p :: ns' =>
                          @List.Forall_cons _ _ p ns' (Node_nested_ind (snd p))
                                      (on_nodes ns')
                      end) (nodes st))
                  (on_states l')
            end) (states sd))
  end.
End Node_induction.

(** ** Notions the further properties are stated with *)

(** [rec] on every node of every state of an SDFG. *)
Definition map_nodes (rec : Node -> Node) (sd : SDFG) : SDFG :=
  {| arrays := arrays sd; constants := constants sd;
     states := (fun st : SDFGState =>
                  {| nodes := (fun p : nid * Node => (fst p, rec (snd p)))
                              <$> nodes st;
                     edges := edges st |})
               <$> states sd |}.

Definition unset_implementation (l : LibraryNode.t) : LibraryNode.t :=
  {| LibraryNode.name := LibraryNode.name l;
     LibraryNode.type := LibraryNode.type l;
     LibraryNode.implementations := LibraryNode.implementations l;
     LibraryNode.implementation := None;
     LibraryNode.default_implementation :=
       LibraryNode.default_implementation l |}.

(** The program with the choice of every library node forgotten: what is
    left is everything but the [implementation] attributes. *)
Fixpoint without_implementation (n : Node) : Node :=
  match n with
  | LibraryNode l => LibraryNode (unset_implementation l)
  | NestedSDFG sd => NestedSDFG (map_nodes without_implementation sd)
  | _ => n
  end.

Definition without_implementations (sd : SDFG) : SDFG :=
  map_nodes without_implementation sd.

(** The test of lines 350-352: the node asks to be specialized and supports
    no entry of the preference list. *)
Definition asks_expansion (prio : list string) (l : LibraryNode.t) : bool :=
  bool_decide (LibraryNode.default_implementation l = Some "specialize")
  && negb (existsb (fun impl => name_in impl prio)
                   (LibraryNode.implementations l)).

(** How deep the SDFGs nest: 1 for an SDFG without nested SDFG nodes. *)
Definition max_nat (l : list nat) : nat := foldr Nat.max 0%nat l.

Definition depth_sdfg (rec : Node -> nat) (sd : SDFG) : nat :=
  S (max_nat ((fun st : SDFGState =>
                 max_nat ((fun p : nid * Node => rec (snd p)) <$> nodes st))
              <$> states sd)).

Fixpoint depth_node (n : Node) : nat :=
  match n with
  | NestedSDFG sd => depth_sdfg depth_node sd
  | _ => 0%nat
  end.

Definition nesting_depth (sd : SDFG) : nat := depth_sdfg depth_node sd.

(** The preference for partial parallelism a run of the tiler works with:
    on a state or a subgraph of one what the caller passed, or the
    configuration when nothing was passed; on an SDFG the configuration. *)
Definition preference_in_effect (cfg : Config) (view : GraphView)
    (prefer : option bool) : bool :=
  match view with
  | ViewSDFG | ViewSDFGSubgraph _ => autotile_partial_parallelism cfg
  | ViewState _ | ViewSubgraph _ _ =>
      default (autotile_partial_parallelism cfg) prefer
  end.

(** The events the configuration and the preference leave to the tiler:
    a message only with debugprint, an extraction only with the
    preference, never a validation. *)
Definition tiler_event_under (cfg : Config) (prefer : bool) (ev : Event)
  : Prop :=
  match ev with
  | EvPrint _ => debugprint cfg = true
  | EvExtractMapDims _ _ _ => prefer = true
  | EvMapTiling _ _ _ => True
  | EvStreamTransient _ _ _ _ => True
  | EvAccumulateTransient _ _ _ _ _ => True
  | _ => False
  end.

(** The map entry a rewrite of the tiler is applied to, with its state. *)
Definition rewritten_map (ev : Event) : option (nat * nid) :=
  match ev with
  | EvExtractMapDims i mapentry _ => Some (i, mapentry)
  | EvMapTiling i _ mapentry => Some (i, mapentry)
  | _ => None
  end.

(** The states a view of an SDFG names are distinct. *)
Definition distinct_states (view : GraphView) : Prop :=
  match view with
  | ViewSDFGSubgraph sts => NoDup sts
  | _ => True
  end.

(** ** The class-level defaults of CompositeFusion along a run *)

(** Run from a store whose defaults satisfy [pre], the computation adds
    only events that [P] allows and, when it returns or raises, leaves
    defaults that satisfy [post]. *)
Definition keeps {A} (pre post : CompositeFusionDefaults -> Prop)
    (P : Event -> Prop) (c : M A) : Prop :=
  forall s, pre (CompositeFusion s) ->
    match c s with
    | Done _ s' | Raised _ s' =>
        post (CompositeFusion s')
        /\ exists evs, trace s' = (trace s ++ evs)%list /\ Forall P evs
    | OutOfFuel => True
    end.

(** A fusion applied with tiling off. *)
Definition fusion_without_tiling (ev : Event) : Prop :=
  match ev with
  | EvCompositeFusion _ _ d => allow_tiling d = false
  | _ => True
  end.

(** The defaults lines 78-81 set for a tiling pass on [device]. *)
Definition tiling_defaults (device : DeviceType.t)
    (d : CompositeFusionDefaults) : Prop :=
  allow_tiling d = true
  /\ schedule_innermaps d = ScheduleType.Sequential
  /\ (device = DeviceType.GPU -> stencil_unroll_loops d = true).

(** A fusion applied with the defaults of a tiling pass. *)
Definition fusion_with_tiling (device : DeviceType.t) (ev : Event) : Prop :=
  match ev with
  | EvCompositeFusion _ _ d => tiling_defaults device d
  | _ => True
  end.

(** In a list of events, every fusion is followed at once by a validation
    of the whole SDFG, unless the list ends with it. *)
Fixpoint fusions_validated (evs : list Event) : Prop :=
  match evs with
  | [] => True
  | EvCompositeFusion _ _ _ :: rest =>
      match rest with
      | [] => True
      | ev :: _ => ev = EvValidateSDFG
      end
      /\ fusions_validated rest
  | _ :: rest => fusions_validated rest
  end.

(** The list does not end with a fusion. *)
Definition settled (evs : list Event) : Prop :=
  match last evs with
  | Some (EvCompositeFusion _ _ _) => False
  | _ => True
  end.

(** What the computation adds to the trace validates every fusion; when
    it returns, also the last one. *)
Definition validates_fusions {A} (c : M A) : Prop :=
  forall s,
    match c s with
    | Done _ s' =>
        exists evs, trace s' = (trace s ++ evs)%list
                    /\ fusions_validated evs /\ settled evs
    | Raised _ s' =>
        exists evs, trace s' = (trace s ++ evs)%list
                    /\ fusions_validated evs
    | OutOfFuel => True
    end.

(** Collaborators with another validator of SDFGs. *)
Definition with_validator (C : Collaborators) (v : SDFG -> bool)
  : Collaborators :=
  {| sym_lt := @sym_lt C;
     is_write_conflicted_with_reason := @is_write_conflicted_with_reason C;
     write_conflicted_map_params := @write_conflicted_map_params C;
     detect_reduction_type := @detect_reduction_type C;
     reduction_identity := @reduction_identity C;
     memlet_path := @memlet_path C;
     scope_subgraph := @scope_subgraph C;
     extract_map_dims := @extract_map_dims C;
     MapTiling_apply_to := @MapTiling_apply_to C;
     StreamTransient_apply_to := @StreamTransient_apply_to C;
     AccumulateTransient_apply_to := @AccumulateTransient_apply_to C;
     expand := @expand C;
     apply_strict_transformations := @apply_strict_transformations C;
     apply_transformations_repeated_MapFusion :=
       @apply_transformations_repeated_MapFusion C;
     CompositeFusion_apply := @CompositeFusion_apply C;
     GreedyEnumerator := @GreedyEnumerator C;
     validate_sdfg := v;
     validate_state := @validate_state C |}.

(** ** auto_optimize (lines 368-533)

    The passes auto_optimize calls on the SDFG besides the functions of
    this module are collaborators of their own, the fields of [Passes].
    What the pipeline does is recorded as a list of steps; the events of
    greedy_fuse, set_fast_implementations, tile_wcrs and
    move_small_arrays_to_stack are steps among the others. *)

(** The transformations applied to a fixed point: LoopToMap comes with the
    list of strict transformations (lines 409-411). *)
Inductive Transformation :=
| TrivialMapElimination
| LoopToMap_and_strict_transformations
| MapCollapse
| MapFusion.

(** A nested SDFG, named by the way to it from the SDFG at the top: the
    state and the nested SDFG node, level by level. *)
Definition SDFGPath : Type := list (nat * nid).

Class Passes := {
  (** sdfg.apply_strict_transformations(validate, validate_all) *)
  strict_transformations : bool -> bool -> SDFG -> result SDFG;
  (** sdfg.apply_transformations_repeated(xf, strict, validate,
      validate_all) *)
  apply_transformations_repeated :
    Transformation -> bool -> bool -> bool -> SDFG -> result SDFG;
  (** dace.sdfg.propagation.propagate_states(sd) *)
  propagate_states : SDFG -> result SDFG;
  (** dace.sdfg.scope.is_devicelevel_gpu(state.parent, state, node): the
      SDFG at the top and the way to state.parent stand for state.parent
      and what encloses it *)
  is_devicelevel_gpu : SDFG -> SDFGPath -> nat -> nid -> bool;
  (** state.scope_dict()[node] *)
  scope_dict : SDFGState -> nid -> option nid;
  apply_gpu_transformations : SDFG -> result SDFG;
  expand_library_nodes : SDFG -> result SDFG;
  (** sdfg.free_symbols *)
  sdfg_free_symbols : SDFG -> list string;
  (** sdfg.specialize(known_symbols) *)
  sdfg_specialize : list (string * Z) -> SDFG -> result SDFG
}.

(** What the pipeline does, step by step.  [StValidate] is the call of
    sdfg.validate() of line 532 only: the validations greedy_fuse makes
    are events of its own ([StEvent]), and a pass that validates is a step
    with its validate flags set. *)
Inductive Step :=
| StStrictTransformations (validate validate_all : bool)
| StTransformationsRepeated (xf : Transformation)
                            (strict validate validate_all : bool)
| StPropagateStates (sd : SDFGPath)
| StGPUTransformations
| StExpandLibraryNodes
| StOpenMPSectionsOff (sd : SDFGPath)
| StPrintSpecializing (known_symbols : list (string * Z))
| StSpecialize (known_symbols : list (string * Z))
| StValidate
| StEvent (ev : Event).

(** The steps so far, and the class-level defaults of CompositeFusion. *)
Record Run := {
  steps : list Step;
  fusion_defaults : CompositeFusionDefaults
}.

Inductive Ended (A : Type) :=
| Returned (a : A) (r : Run)
| Failed (e : Exn) (r : Run)
| Unfinished.
Arguments Returned {A} a r.
Arguments Failed {A} e r.
Arguments Unfinished {A}.

Definition Pipeline (A : Type) : Type := Run -> Ended A.

#[export] Instance Pipeline_ret : MRet Pipeline := fun A a r => Returned a r.
#[export] Instance Pipeline_bind : MBind Pipeline := fun A B f c r =>
  match c r with
  | Returned a r' => f a r'
  | Failed e r' => Failed e r'
  | Unfinished => Unfinished
  end.

Definition abort {A} (e : Exn) : Pipeline A := fun r => Failed e r.
Definition unfinished {A} : Pipeline A := fun _ => Unfinished.
Definition step (st : Step) : Pipeline unit := fun r =>
  Returned tt {| steps := (steps r ++ [st])%list;
                 fusion_defaults := fusion_defaults r |}.
Definition attempt {A} (x : result A) : Pipeline A :=
  match x with
  | Ok a => mret a
  | Raise e => abort e
  end.

(** A function of this module run as a step of the pipeline: its events
    are added to the steps, the defaults of CompositeFusion are what it
    leaves. *)
Definition run {A} (c : M A) : Pipeline A := fun r =>
  match c {| trace := []; CompositeFusion := fusion_defaults r |} with
  | Done a s =>
      Returned a {| steps := (steps r ++ (StEvent <$> trace s))%list;
                    fusion_defaults := CompositeFusion s |}
  | Raised e s =>
      Failed e {| steps := (steps r ++ (StEvent <$> trace s))%list;
                  fusion_defaults := CompositeFusion s |}
  | OutOfFuel => Unfinished
  end.

Definition foldP {S A} (body : S -> A -> Pipeline S)
  : S -> list A -> Pipeline S :=
  fix go (acc : S) (l : list A) : Pipeline S :=
    match l with
    | [] => mret acc
    | x :: l' => acc' ← body acc x; go acc' l'
    end.

(** [f i x] for the elements [x] of a list with their positions [i], the
    results one after the other. *)
Definition concat_mapi {A B} (f : nat -> A -> list B)
  : nat -> list A -> list B :=
  fix go (i : nat) (l : list A) : list B :=
    match l with
    | [] => []
    | x :: l' => (f i x ++ go (S i) l')%list
    end.

(** *** The SDFGs and the nodes of a program, by their place *)

(** The SDFG at the end of a path, if the path still leads to one. *)
Fixpoint sdfg_at (sd : SDFG) (path : SDFGPath) : option SDFG :=
  match path with
  | [] => Some sd
  | (i, n) :: rest =>
      match state_at sd i with
      | Some st =>
          match lookup_node st n with
          | Some (NestedSDFG inner) => sdfg_at inner rest
          | _ => None
          end
      | None => None
      end
  end.

Fixpoint update_sdfg_at (f : SDFG -> SDFG) (path : SDFGPath) (sd : SDFG)
  : SDFG :=
  match path with
  | [] => f sd
  | (i, n) :: rest =>
      update_state
        (update_node (fun node =>
                        match node with
                        | NestedSDFG inner =>
                            NestedSDFG (update_sdfg_at f rest inner)
                        | _ => node
                        end) n)
        i sd
  end.

(** sdfg.all_sdfgs_recursive() as a list: the SDFG, then the SDFGs nested
    in it, state by state and node by node, each with the way to it. *)
Definition refs_of_sdfg (rec : SDFGPath -> Node -> list (SDFGPath * SDFG))
    (path : SDFGPath) (sd : SDFG) : list (SDFGPath * SDFG) :=
  (path, sd)
  :: concat_mapi
       (fun i (st : SDFGState) =>
          concat ((fun p : nid * Node =>
                     rec (path ++ [(i, fst p)])%list (snd p))
                  <$> nodes st))
       0%nat (states sd).

Fixpoint refs_of_node (path : SDFGPath) (n : Node)
  : list (SDFGPath * SDFG) :=
  match n with
  | NestedSDFG sd => refs_of_sdfg refs_of_node path sd
  | _ => []
  end.

Definition all_sdfgs_recursive (sdfg : SDFG) : list (SDFGPath * SDFG) :=
  refs_of_sdfg refs_of_node [] sdfg.

(** The nodes sdfg.all_nodes_recursive() yields, by their place: the SDFG
    that holds the state, the state, the node; after a nested SDFG node
    the nodes of its SDFG. *)
Definition places_of_sdfg
    (rec : SDFGPath -> Node -> list (SDFGPath * nat * nid))
    (path : SDFGPath) (sd : SDFG) : list (SDFGPath * nat * nid) :=
  concat_mapi
    (fun i (st : SDFGState) =>
       concat ((fun p : nid * Node =>
                  (path, i, fst p)
                  :: rec (path ++ [(i, fst p)])%list (snd p))
               <$> nodes st))
    0%nat (states sd).

Fixpoint places_of_node (path : SDFGPath) (n : Node)
  : list (SDFGPath * nat * nid) :=
  match n with
  | NestedSDFG sd => places_of_sdfg places_of_node path sd
  | _ => []
  end.

Definition all_nodes_recursive (sdfg : SDFG) : list (SDFGPath * nat * nid) :=
  places_of_sdfg places_of_node [] sdfg.

(** *** Lines 407-408: a loop over the generator all_sdfgs_recursive()

    The generator walks the SDFG as the body leaves it: [f] on the SDFG,
    then the loop on the SDFGs nested in the result. *)
Definition for_nested_sdfgs_at (f : SDFGPath -> SDFG -> Pipeline SDFG)
    (path : SDFGPath) (sd : SDFG) : Pipeline SDFG :=
  sts ← foldP
          (fun (acc : list SDFGState) (st : SDFGState) =>
             let i := length acc in
             nds ← foldP
                     (fun (acc' : list (nid * Node)) (p : nid * Node) =>
                        match snd p with
                        | NestedSDFG inner =>
                            inner' ← f (path ++ [(i, fst p)])%list inner;
                            mret (acc' ++ [(fst p, NestedSDFG inner')])%list
                        | _ => mret (acc' ++ [p])%list
                        end)
                     [] (nodes st);
             mret (acc ++ [{| nodes := nds; edges := edges st |}])%list)
          [] (states sd);
  mret {| arrays := arrays sd; constants := constants sd; states := sts |}.

Fixpoint for_all_sdfgs (fuel : nat) (f : SDFGPath -> SDFG -> Pipeline SDFG)
    (path : SDFGPath) (sd : SDFG) : Pipeline SDFG :=
  match fuel with
  | O => unfinished
  | S fuel' =>
      sd' ← f path sd;
      for_nested_sdfgs_at (for_all_sdfgs fuel' f) path sd'
  end.

(** *** Lines 422-433: device-level library nodes on the GPU *)

(** ignore_types.add(type(node)) *)
Definition add_type (t : string) (types : list string) : list string :=
  if name_in t types then types else (types ++ [t])%list.

(** The body of the loop for the node at one place: the SDFG and
    ignore_types afterwards. *)
Definition use_device_implementation `{Passes} (acc : SDFG * list string)
    (place : SDFGPath * nat * nid) : SDFG * list string :=
  let path := fst (fst place) in
  let i := snd (fst place) in
  let n := snd place in
  let sdfg := fst acc in
  match sdfg_at sdfg path with
  | Some parent =>
      match state_at parent i with
      | Some state =>
          match lookup_node state n with
          | Some (LibraryNode l) =>
              if name_in "CUDA (device)" (LibraryNode.implementations l)
                 && negb (is_devicelevel_gpu sdfg path i n)
                 && bool_decide (scope_dict state n = None)
              then
                (update_sdfg_at
                   (update_state
                      (update_node
                         (fun _ =>
                            LibraryNode
                              (LibraryNode.set_implementation
                                 "CUDA (device)" l))
                         n)
                      i)
                   path sdfg,
                 add_type (LibraryNode.type l) (snd acc))
              else acc
          | _ => acc
          end
      | None => acc
      end
  | None => acc
  end.

Definition use_device_implementations `{Passes} (sdfg : SDFG)
  : SDFG * list string :=
  foldl use_device_implementation (sdfg, []) (all_nodes_recursive sdfg).

(** *** Lines 489-490: the tiler on every SDFG of the list taken before
    the loop; an SDFG a rewrite has removed meanwhile is still tiled, as
    it was. *)
Definition tile_wcrs_at `{Collaborators} (cfg : Config)
    (validate_all : bool) (sdfg : SDFG) (ref : SDFGPath * SDFG)
  : Pipeline SDFG :=
  let nsdfg := default (snd ref) (sdfg_at sdfg (fst ref)) in
  nsdfg' ← run (tile_wcrs cfg nsdfg ViewSDFG validate_all None);
  mret (update_sdfg_at (fun _ => nsdfg') (fst ref) sdfg).

(** *** Lines 510-528: lifetimes and write-conflict flags *)

Definition set_lifetime (l : AllocationLifetime.t) (a : Data.t) : Data.t :=
  {| Data.kind := Data.kind a; Data.dtype := Data.dtype a;
     Data.shape := Data.shape a; Data.total_size := Data.total_size a;
     Data.transient := Data.transient a; Data.storage := Data.storage a;
     Data.lifetime := l |}.

Definition is_View (a : Data.t) : bool :=
  match Data.kind a with
  | View => true
  | _ => false
  end.

(** Lines 512-515 for one array; issymbolic is called without
    constants. *)
Definition make_persistent (arr : Data.t) : Data.t :=
  if Data.transient arr && negb (is_View arr)
     && negb (issymbolic (Data.total_size arr) ∅)
  then
    if negb (StorageType.eqb (Data.storage arr) StorageType.Register)
    then set_lifetime AllocationLifetime.Persistent arr
    else arr
  else arr.

(** Lines 519-522 for one array. *)
Definition make_global_persistent (arr : Data.t) : Data.t :=
  if Data.transient arr && negb (is_View arr)
  then
    if StorageType.eqb (Data.storage arr) StorageType.GPU_Global
    then set_lifetime AllocationLifetime.Persistent arr
    else arr
  else arr.

(** Line 528 for one edge. *)
Definition reset_nonatomic (e : Edge.t) : Edge.t :=
  {| Edge.src := Edge.src e; Edge.dst := Edge.dst e;
     Edge.data :=
       {| Memlet.data := Memlet.data (Edge.data e);
          Memlet.src_subset := Memlet.src_subset (Edge.data e);
          Memlet.dst_subset := Memlet.dst_subset (Edge.data e);
          Memlet.wcr := Memlet.wcr (Edge.data e);
          Memlet.wcr_nonatomic := false;
          Memlet.dynamic := Memlet.dynamic (Edge.data e) |} |}.

(** [fa] on the arrays and [fe] on the edges of an SDFG, [rec] on its
    nodes. *)
Definition map_sdfg (fa : Data.t -> Data.t) (fe : Edge.t -> Edge.t)
    (rec : Node -> Node) (sd : SDFG) : SDFG :=
  {| arrays := (fun p : string * Data.t => (fst p, fa (snd p)))
               <$> arrays sd;
     constants := constants sd;
     states := (fun st : SDFGState =>
                  {| nodes := (fun p : nid * Node => (fst p, rec (snd p)))
                              <$> nodes st;
                     edges := fe <$> edges st |})
               <$> states sd |}.

Fixpoint map_node (fa : Data.t -> Data.t) (fe : Edge.t -> Edge.t)
    (n : Node) : Node :=
  match n with
  | NestedSDFG sd => NestedSDFG (map_sdfg fa fe (map_node fa fe) sd)
  | _ => n
  end.

(** A loop over all_sdfgs_recursive() (the arrays) or over the states of
    all_nodes_recursive() (the edges) that changes nothing else. *)
Definition map_everywhere (fa : Data.t -> Data.t) (fe : Edge.t -> Edge.t)
    (sdfg : SDFG) : SDFG :=
  map_sdfg fa fe (map_node fa fe) sdfg.

(** Lines 518-522: the arrays of the SDFG at the top only. *)
Definition map_arrays (fa : Data.t -> Data.t) (sdfg : SDFG) : SDFG :=
  {| arrays := (fun p : string * Data.t => (fst p, fa (snd p)))
               <$> arrays sdfg;
     constants := constants sdfg;
     states := states sdfg |}.

(** Lines 510-528. *)
Definition set_lifetimes (device : DeviceType.t) (sdfg : SDFG) : SDFG :=
  let sdfg := map_everywhere make_persistent id sdfg in
  if DeviceType.eqb device DeviceType.GPU
  then map_everywhere id reset_nonatomic
                      (map_arrays make_global_persistent sdfg)
  else sdfg.

(** *** The pipeline *)

(** Lines 398-508: the passes, up to the reclassifier. *)
Definition optimization_passes `{Collaborators} `{Passes} (fuel : nat)
    (cfg : Config) (env : Environments) (sdfg : SDFG)
    (device : DeviceType.t) (validate validate_all : bool)
    (symbols : list (string * Z))
    (trivial_fuse subgraph_fuse auto_parallelize : bool) : Pipeline SDFG :=
  (* Strict transformations *)
  step (StStrictTransformations false validate_all);;
  sd ← attempt (strict_transformations false validate_all sdfg);
  (* Try to eliminate trivial maps *)
  step (StTransformationsRepeated TrivialMapElimination false validate
                                  validate_all);;
  sd ← attempt (apply_transformations_repeated TrivialMapElimination false
                                                validate validate_all sd);
  sd ← (if auto_parallelize then
          sd ← for_all_sdfgs fuel
                 (fun path nsd =>
                    step (StPropagateStates path);;
                    attempt (propagate_states nsd))
                 [] sd;
          step (StTransformationsRepeated
                  LoopToMap_and_strict_transformations true false
                  validate_all);;
          attempt (apply_transformations_repeated
                     LoopToMap_and_strict_transformations true false
                     validate_all sd)
        else mret sd);
  (* Collapse maps *)
  step (StTransformationsRepeated MapCollapse true false validate_all);;
  sd ← attempt (apply_transformations_repeated MapCollapse true false
                                                validate_all sd);
  (* Apply GPU transformations and set library node implementations *)
  r ← (if DeviceType.eqb device DeviceType.GPU then
         let r := use_device_implementations sd in
         step StGPUTransformations;;
         sd ← attempt (apply_gpu_transformations (fst r));
         step (StStrictTransformations true false);;
         sd ← attempt (strict_transformations true false sd);
         mret (sd, snd r)
       else mret (sd, []));
  let ignore_types : list string := snd r in
  sd ← (if subgraph_fuse then
          (* fuse greedily, then tile greedily *)
          sd ← run (greedy_fuse fuel (fst r) ViewSDFG validate_all device
                                true false);
          run (greedy_fuse fuel sd ViewSDFG validate_all device false true)
        else if trivial_fuse then
          step (StTransformationsRepeated MapFusion false true false);;
          attempt (apply_transformations_repeated MapFusion false true
                                                  false (fst r))
        else mret (fst r));
  (* Collapse maps *)
  step (StTransformationsRepeated MapCollapse true false validate_all);;
  sd ← attempt (apply_transformations_repeated MapCollapse true false
                                                validate_all sd);
  (* Set all library nodes to expand to fast library calls *)
  sd ← run (set_fast_implementations fuel env sd device (Some [])
                                     ignore_types);
  step StExpandLibraryNodes;;
  sd ← attempt (expand_library_nodes sd);
  (* Tiled WCR and streams *)
  sd ← foldP (tile_wcrs_at cfg validate_all) sd (all_sdfgs_recursive sd);
  (* Disable OpenMP parallel sections on a per-SDFG basis *)
  foldP (fun _ ref => step (StOpenMPSectionsOff (fst ref))) tt
        (all_sdfgs_recursive sd);;
  (* Specialize for all known symbols *)
  let known_symbols :=
    filter (fun sv : string * Z =>
              name_in (fst sv) (sdfg_free_symbols sd) = true)
           symbols in
  (if (0 <? length known_symbols)%nat
   then step (StPrintSpecializing known_symbols)
   else mret tt);;
  step (StSpecialize known_symbols);;
  sd ← attempt (sdfg_specialize known_symbols sd);
  (* Set all Default storage types that are constant sized to registers *)
  run (move_small_arrays_to_stack cfg sd).

(** Lines 530-532: validate at the end. *)
Definition final_validation `{Collaborators} (validate validate_all : bool)
    (sdfg : SDFG) : Pipeline unit :=
  if validate || validate_all then
    step StValidate;;
    if validate_sdfg sdfg then mret tt else abort InvalidSDFGError
  else mret tt.

Definition auto_optimize `{Collaborators} `{Passes} (fuel : nat)
    (cfg : Config) (env : Environments) (sdfg : SDFG)
    (device : DeviceType.t) (validate validate_all : bool)
    (symbols : list (string * Z))
    (trivial_fuse subgraph_fuse auto_parallelize : bool) : Pipeline SDFG :=
  sd ← optimization_passes fuel cfg env sdfg device validate validate_all
                           symbols trivial_fuse subgraph_fuse
                           auto_parallelize;
  let sd := set_lifetimes device sd in
  final_validation validate validate_all sd;;
  mret sd.

(** *** What the properties of the pipeline are stated with *)

(** The SDFG and every SDFG nested in it. *)
Definition sdfgs_of_sdfg (rec : Node -> list SDFG) (sd : SDFG) : list SDFG :=
  sd :: concat ((fun st : SDFGState =>
                   concat ((fun p : nid * Node => rec (snd p)) <$> nodes st))
                <$> states sd).

Fixpoint sdfgs_of_node (n : Node) : list SDFG :=
  match n with
  | NestedSDFG sd => sdfgs_of_sdfg sdfgs_of_node sd
  | _ => []
  end.

Definition all_sdfgs (sdfg : SDFG) : list SDFG :=
  sdfgs_of_sdfg sdfgs_of_node sdfg.

(** A transient array that is no view and whose size has no symbol is in
    registers or persistent. *)
Definition settled_lifetime (a : Data.t) : Prop :=
  Data.transient a = true -> Data.kind a <> View ->
  free_symbols (Data.total_size a) = [] ->
  Data.storage a = StorageType.Register
  \/ Data.lifetime a = AllocationLifetime.Persistent.

(** A transient array in GPU global memory that is no view is
    persistent. *)
Definition global_is_persistent (a : Data.t) : Prop :=
  Data.transient a = true -> Data.kind a <> View ->
  Data.storage a = StorageType.GPU_Global ->
  Data.lifetime a = AllocationLifetime.Persistent.

Definition initial_run : Run :=
  {| steps := []; fusion_defaults := CompositeFusion initial_store |}.

(** Passes that leave the SDFG as it is, to run the pipeline with. *)
Module DemoPasses.

#[export] Instance passes : Passes := {|
  strict_transformations := fun _ _ sd => Ok sd;
  apply_transformations_repeated := fun _ _ _ _ sd => Ok sd;
  propagate_states := fun sd => Ok sd;
  is_devicelevel_gpu := fun _ _ _ _ => false;
  scope_dict := fun _ _ => None;
  apply_gpu_transformations := fun sd => Ok sd;
  expand_library_nodes := fun sd => Ok sd;
  sdfg_free_symbols := fun _ => ["N"];
  sdfg_specialize := fun _ sd => Ok sd
|}.

(** A library node with a device-level implementation next to a nested
    SDFG with a map that writes through a non-atomic conflict
    resolution. *)
Definition gpu_program : SDFG :=
  {| arrays := [("A", Demo.buffer Array (Integer 1));
                ("G", {| Data.kind := Array; Data.dtype := float32;
                         Data.shape := [Symbol "N"];
                         Data.total_size := Symbol "N";
                         Data.transient := true;
                         Data.storage := StorageType.GPU_Global;
                         Data.lifetime := AllocationLifetime.Scope |})];
     constants := ∅;
     states :=
       [{| nodes :=
             [(0%nat, LibraryNode
                        {| LibraryNode.name := "reduce";
                           LibraryNode.type := "Reduce";
                           LibraryNode.implementations :=
                             ["CUDA (device)"; "pure"];
                           LibraryNode.implementation := None;
                           LibraryNode.default_implementation := None |});
              (1%nat, NestedSDFG
                        {| arrays := [("A", Demo.buffer Array (Integer 1))];
                           constants := ∅;
                           states :=
                             [{| nodes := nodes (Demo.map_state
                                                   ["i"] [Integer 256] None);
                                 edges :=
                                   [{| Edge.src := 1%nat; Edge.dst := 2%nat;
                                       Edge.data :=
                                         {| Memlet.data := Some "A";
                                            Memlet.src_subset := None;
                                            Memlet.dst_subset :=
                                              Some (Integer 1);
                                            Memlet.wcr :=
                                              Some Demo.custom_wcr;
                                            Memlet.wcr_nonatomic := true;
                                            Memlet.dynamic := false |} |}]
                               |}] |})];
           edges := [] |}] |}.

End DemoPasses.

(** A step of the pipeline only adds steps, each of them one that [P]
    allows. *)
Definition adds {A} (P : Step -> Prop) (c : Pipeline A) : Prop :=
  forall r,
    match c r with
    | Returned _ r' | Failed _ r' =>
        exists sts, steps r' = (steps r ++ sts)%list /\ Forall P sts
    | Unfinished => True
    end.

(** No edge of any state of the SDFG is marked non-atomic. *)
Definition all_atomic (sd : SDFG) : Prop :=
  Forall (fun st : SDFGState =>
            Forall (fun e => Memlet.wcr_nonatomic (Edge.data e) = false)
                   (edges st))
         (states sd).

(** The steps lines 436 and 439 take: the GPU transformations, and the
    strict transformations called without arguments, which validate. *)
Definition gpu_step (st : Step) : Prop :=
  match st with
  | StGPUTransformations | StStrictTransformations true _ => True
  | _ => False
  end.

(** The steps of lines 407-414. *)
Definition parallelizing_step (st : Step) : Prop :=
  match st with
  | StPropagateStates _
  | StTransformationsRepeated LoopToMap_and_strict_transformations _ _ _ =>
      True
  | _ => False
  end.

(** A step that names symbols names symbols of [symbols] only, in their
    order there; the message names at least one. *)
Definition specializes_within (symbols : list (string * Z)) (st : Step)
  : Prop :=
  match st with
  | StSpecialize known_symbols => known_symbols `sublist_of` symbols
  | StPrintSpecializing known_symbols =>
      known_symbols <> [] /\ known_symbols `sublist_of` symbols
  | _ => True
  end.

(** * Properties *)

(** Every SDFG holds nodes a property of nodes can be carried to. *)
Lemma all_nodes_of_sdfg (P : Node -> Prop) (sd : SDFG) :
  (forall n, P n) ->
  Forall (fun st : SDFGState => Forall (fun p => P (snd p)) (nodes st))
         (states sd).
Proof.
  intros HP. apply Forall_forall. intros st _.
  apply Forall_forall. intros p _. apply HP.
Qed.

(** ** Names and lists *)

Lemma name_in_spec (x : string) (l : list string) :
  name_in x l = true <-> x ∈ l.
Proof.
  unfold name_in. rewrite existsb_exists. split.
  - intros (y & Hy & Heq). apply String.eqb_eq in Heq. subst.
    by apply list_elem_of_In.
  - intros Hx. exists x. split; [by apply list_elem_of_In|].
    apply String.eqb_refl.
Qed.

Lemma name_in_false (x : string) (l : list string) :
  name_in x l = false <-> x ∉ l.
Proof.
  rewrite <- name_in_spec. destruct (name_in x l); naive_solver.
Qed.

Lemma nid_in_spec (x : nid) (l : list nid) : nid_in x l = true <-> x ∈ l.
Proof.
  unfold nid_in. rewrite existsb_exists. split.
  - intros (y & Hy & Heq). apply Nat.eqb_eq in Heq. subst.
    by apply list_elem_of_In.
  - intros Hx. exists x. split; [by apply list_elem_of_In|].
    apply Nat.eqb_refl.
Qed.

Lemma mapR_Ok {A B} (f : A -> result B) (g : A -> B) (l : list A) :
  Forall (fun x => f x = Ok (g x)) l -> mapR f l = Ok (g <$> l).
Proof.
  induction 1 as [|x l Hx _ IH]; [done|].
  change (mapR f (x :: l)) with (y ← f x; ys ← mapR f l; Ok (y :: ys)).
  rewrite Hx, IH. done.
Qed.

(** ** C6: find_fast_library *)

(** C6. The preference list: for the GPU the vendor libraries in a fixed
    order and then "pure", last and only once; for the CPU at most one
    vendor library, the best installed one ("MKL" exactly when its probe
    holds, "OpenBLAS" exactly when MKL is missing and its own probe holds),
    then "pure"; for any other device "pure" alone. *)
Theorem find_fast_library_preference (env : Environments)
    (device : DeviceType.t) :
  match device with
  | DeviceType.GPU =>
      find_fast_library env device = ["cuBLAS"; "CUB"; "pure"]
  | DeviceType.CPU =>
      (exists vendor : list string,
          find_fast_library env device = (vendor ++ ["pure"])%list
          /\ (length vendor <= 1)%nat
          /\ ("pure" ∉ vendor)
          /\ (vendor ⊆ ["MKL"; "OpenBLAS"]))
      /\ name_in "MKL" (find_fast_library env device)
         = IntelMKL_is_installed env
      /\ name_in "OpenBLAS" (find_fast_library env device)
         = negb (IntelMKL_is_installed env) && OpenBLAS_is_installed env
  | _ => find_fast_library env device = ["pure"]
  end.
Proof.
  destruct device; cbn; [|done|done].
  destruct env as [[] []]; cbn; (split; [|done]).
  - exists ["MKL"]. split; [done|]. split; [cbn; lia|]. split; set_solver.
  - exists ["MKL"]. split; [done|]. split; [cbn; lia|]. split; set_solver.
  - exists ["OpenBLAS"]. split; [done|]. split; [cbn; lia|].
    split; set_solver.
  - exists []. split; [done|]. split; [cbn; lia|]. split; set_solver.
Qed.

(** ** C8: move_small_arrays_to_stack *)

Lemma subs_Some_not_symbolic (e : SymExpr) (c : gmap string ConstVal) n :
  subs e c = Some n -> issymbolic e c = false.
Proof.
  unfold issymbolic. revert n.
  induction e as [x|s|a IHa b IHb]; intros n; cbn.
  - done.
  - destruct (c !! s) as [v|] eqn:Hs; [|done]. intros _.
    rewrite bool_decide_eq_true_2; [done|by eexists].
  - destruct (subs a c) as [x|] eqn:Ha; [|done].
    destruct (subs b c) as [y|] eqn:Hb; [|done]. intros _.
    rewrite existsb_app, (IHa x), (IHb y); done.
Qed.

Lemma small_array_to_stack_spec (tile_size : Z) (c : gmap string ConstVal)
    (a : Data.t) :
  small_array_to_stack tile_size c a
  = Ok (reclassify tile_size c a,
        if small_transient tile_size c a then 1%nat else 0%nat).
Proof.
  unfold small_array_to_stack, reclassify, small_transient, evaluate.
  destruct (Data.kind a); try done;
    (destruct (Data.transient a), (StorageType.eqb _ _),
       (AllocationLifetime.eqb _ _); cbn; try done;
     destruct (subs (Data.total_size a) c) as [n|] eqn:Hn;
     [ rewrite (subs_Some_not_symbolic _ _ _ Hn); cbn;
       by destruct (n <=? tile_size)
     | by destruct (issymbolic _ _) ]).
Qed.

Lemma fmap_fst_pair {A B C} (f : A -> B) (g : A -> C) (l : list A) :
  fst <$> ((fun x => (f x, g x)) <$> l) = f <$> l.
Proof.
  induction l as [|x l IH]; [done|].
  rewrite !fmap_cons. cbn [fst]. f_equal. exact IH.
Qed.

Lemma fmap_snd_pair {A B C} (f : A -> B) (g : A -> C) (l : list A) :
  snd <$> ((fun x => (f x, g x)) <$> l) = g <$> l.
Proof.
  induction l as [|x l IH]; [done|].
  rewrite !fmap_cons. cbn [snd]. f_equal. exact IH.
Qed.

Lemma arrays_recursive_to_stack_spec (tile_size : Z) (sd : SDFG)
    (rec : Node -> result (Node * nat)) (f : Node -> Node) (g : Node -> nat) :
  Forall (fun st : SDFGState =>
            Forall (fun p => rec (snd p) = Ok (f (snd p), g (snd p)))
                   (nodes st))
         (states sd) ->
  arrays_recursive_to_stack rec tile_size sd
  = Ok (reclassify_sdfg f tile_size sd, count_small_sdfg g tile_size sd).
Proof.
  intros Hrec. unfold arrays_recursive_to_stack.
  rewrite (mapR_Ok _
             (fun p : string * Data.t =>
                ((fst p, reclassify tile_size (constants sd) (snd p)),
                 if small_transient tile_size (constants sd) (snd p)
                 then 1%nat else 0%nat))).
  2: { apply Forall_forall. intros p _.
       by rewrite small_array_to_stack_spec. }
  cbn.
  rewrite (mapR_Ok _
             (fun st : SDFGState =>
                ({| nodes := (fun p : nid * Node => (fst p, f (snd p)))
                             <$> nodes st;
                    edges := edges st |},
                 sum_nat ((fun p : nid * Node => g (snd p)) <$> nodes st)))).
  2: { eapply Forall_impl; [exact Hrec|]. intros st Hst. cbn in Hst.
       rewrite (mapR_Ok _ (fun p : nid * Node =>
                             ((fst p, f (snd p)), g (snd p)))).
       2: { eapply Forall_impl; [exact Hst|]. intros p Hp. cbn in Hp.
            by rewrite Hp. }
       cbn. by rewrite fmap_fst_pair, fmap_snd_pair. }
  cbn. unfold reclassify_sdfg, count_small_sdfg.
  by rewrite !fmap_fst_pair, !fmap_snd_pair.
Qed.

Lemma node_to_stack_spec (tile_size : Z) (n : Node) :
  node_to_stack tile_size n
  = Ok (reclassify_node tile_size n, count_small_node tile_size n).
Proof.
  induction n as [| | | | |sd IH] using Node_nested_ind; try done.
  cbn. by rewrite (arrays_recursive_to_stack_spec _ _ _ _ _ IH).
Qed.

Lemma small_transient_true (tile_size : Z) (c : gmap string ConstVal)
    (a : Data.t) :
  small_transient tile_size c a = true
  <-> Data.kind a <> Stream
      /\ Data.transient a = true
      /\ Data.storage a = StorageType.Default
      /\ Data.lifetime a = AllocationLifetime.Scope
      /\ exists n, subs (Data.total_size a) c = Some n /\ n <= tile_size.
Proof.
  unfold small_transient.
  destruct (Data.kind a), (Data.transient a), (Data.storage a),
    (Data.lifetime a); cbn;
    try (split; [done|intros (?&?&?&?&?); done]);
    (destruct (subs _ c) as [n|];
     [ rewrite Z.leb_le; split;
       [ intros Hn; repeat split; try done; by exists n
       | intros (_&_&_&_&m&Hm&Hle); by inversion Hm; subst ]
     | split; [done|intros (_&_&_&_&m&Hm&_); done] ]).
Qed.

(** C8. The reclassifier never fails, and what it returns is the program
    in which exactly the small transient buffers, at every nesting depth,
    have moved to register storage: a buffer counts as small when it is
    transient, not a stream, in default storage, of scope lifetime, and its
    total size is a number at most the tile size (the tile size itself
    included).  A buffer whose size does not evaluate stays as it is. *)
Theorem move_small_arrays_to_stack_spec (cfg : Config) (sdfg : SDFG)
    (s : Store) :
  move_small_arrays_to_stack cfg sdfg s
  = Done (reclassifySmallBuffers (autotile_size cfg) sdfg)
         (if debugprint cfg
             && (0 <? count_small (autotile_size cfg) sdfg)%nat
          then add_events
                 [EvPrint (StaticallyAllocating
                             (count_small (autotile_size cfg) sdfg))] s
          else s)
  /\ (forall (c : gmap string ConstVal) (a : Data.t),
         (small_transient (autotile_size cfg) c a = true
          <-> Data.kind a <> Stream
              /\ Data.transient a = true
              /\ Data.storage a = StorageType.Default
              /\ Data.lifetime a = AllocationLifetime.Scope
              /\ exists n, subs (Data.total_size a) c = Some n
                           /\ n <= autotile_size cfg)
         /\ reclassify (autotile_size cfg) c a
            = if small_transient (autotile_size cfg) c a
              then Data.set_storage StorageType.Register a else a).
Proof.
  split.
  - unfold move_small_arrays_to_stack, reclassifySmallBuffers, count_small.
    unfold mbind, M_bind at 1.
    rewrite (arrays_recursive_to_stack_spec _ _ _
               (reclassify_node (autotile_size cfg))
               (count_small_node (autotile_size cfg))).
    2: { apply (all_nodes_of_sdfg
                  (fun n => node_to_stack (autotile_size cfg) n
                            = Ok (reclassify_node (autotile_size cfg) n,
                                  count_small_node (autotile_size cfg) n))).
         intros n. apply node_to_stack_spec. }
    cbn.
    set (k := count_small_sdfg _ _ _).
    by destruct (debugprint cfg), k.
  - intros c a. split; [apply small_transient_true|done].
Qed.

(** ** C7: the second pass of set_fast_implementations *)

Lemma find_first {A} (f : A -> bool) (l : list A) :
  match find f l with
  | Some x =>
      exists pre post, l = (pre ++ x :: post)%list /\ f x = true
                       /\ forall y, y ∈ pre -> f y = false
  | None => forall y, y ∈ l -> f y = false
  end.
Proof.
  induction l as [|a l IH]; cbn.
  - intros y Hy. by apply elem_of_nil in Hy.
  - destruct (f a) eqn:Ha.
    + exists [], l. repeat split; [done|]. intros y Hy.
      by apply elem_of_nil in Hy.
    + destruct (find f l) as [x|].
      * destruct IH as (pre & post & -> & Hx & Hpre).
        exists (a :: pre), post. repeat split; [done|].
        intros y Hy. apply elem_of_cons in Hy as [->|Hy]; auto.
      * intros y Hy. apply elem_of_cons in Hy as [->|Hy]; auto.
Qed.

Lemma warned_single (prio ign : list string) (l : LibraryNode.t) :
  warned prio ign [l]
  = if unsupported prio ign l then [LibraryNode.name l] else [].
Proof.
  unfold warned. rewrite filter_cons, filter_nil.
  destruct (unsupported prio ign l); by case_decide.
Qed.

Lemma select_implementation_spec (prio ign : list string)
    (l : LibraryNode.t) :
  exists l', fst (select_implementation prio ign (LibraryNode l))
             = LibraryNode l'
             /\ assigned prio ign l l'
             /\ snd (select_implementation prio ign (LibraryNode l))
                = warned prio ign [l].
Proof.
  rewrite warned_single.
  unfold select_implementation, assigned, unsupported.
  destruct (name_in (LibraryNode.type l) ign) eqn:Hign; cbn [negb andb].
  { by exists l. }
  pose proof (find_first
                (fun impl => name_in impl (LibraryNode.implementations l))
                prio) as Hfind.
  destruct (find _ prio) as [impl|]; cbn [fst snd].
  - destruct Hfind as (pre & post & Hprio & Himpl & Hpre).
    exists (LibraryNode.set_implementation impl l). split; [done|]. split.
    + left. exists pre, impl, post. repeat split; [done| |].
      * by apply name_in_spec.
      * intros x Hx. apply name_in_false. by apply Hpre.
    + subst prio. rewrite forallb_app. cbn [forallb].
      rewrite Himpl. cbn [negb andb]. by rewrite andb_false_r.
  - exists l. split; [done|]. split.
    + right. split; [|done]. intros x Hx. apply name_in_false.
      by apply Hfind.
    + assert (Hall : forallb
                       (fun impl =>
                          negb (name_in impl (LibraryNode.implementations l)))
                       prio = true).
      { apply forallb_forall. intros x Hx.
        rewrite (Hfind x); [done|]. by apply list_elem_of_In. }
      by rewrite Hall.
Qed.

Lemma warned_app (prio ign : list string) (a b : list LibraryNode.t) :
  warned prio ign (a ++ b) = (warned prio ign a ++ warned prio ign b)%list.
Proof. unfold warned. by rewrite filter_app, fmap_app. Qed.

Lemma Forall2_concat_fmap {A B C} (R : B -> C -> Prop) (f : A -> list B)
    (g : A -> list C) (l : list A) :
  Forall (fun x => Forall2 R (f x) (g x)) l ->
  Forall2 R (concat (f <$> l)) (concat (g <$> l)).
Proof.
  induction 1 as [|x l Hx _ IH]; [constructor|].
  rewrite !fmap_cons. cbn [concat]. by apply Forall2_app.
Qed.

Lemma warned_concat_fmap {A} (prio ign : list string)
    (f : A -> list LibraryNode.t) (w : A -> list string) (l : list A) :
  Forall (fun x => w x = warned prio ign (f x)) l ->
  concat (w <$> l) = warned prio ign (concat (f <$> l)).
Proof.
  induction 1 as [|x l Hx _ IH]; [done|].
  rewrite !fmap_cons. cbn [concat]. by rewrite warned_app, Hx, IH.
Qed.

Lemma select_in_sdfg_spec (prio ign : list string)
    (rec : Node -> Node * list string) (sd : SDFG) :
  Forall (fun st : SDFGState =>
            Forall (fun p => selected prio ign rec (snd p)) (nodes st))
         (states sd) ->
  Forall2 (assigned prio ign)
          (library_nodes_sdfg library_nodes_node sd)
          (library_nodes_sdfg library_nodes_node
                              (fst (select_in_sdfg rec sd)))
  /\ snd (select_in_sdfg rec sd)
     = warned prio ign (library_nodes_sdfg library_nodes_node sd).
Proof.
  intros Hrec. unfold select_in_sdfg, library_nodes_sdfg. cbn.
  rewrite fmap_fst_pair, fmap_snd_pair. split.
  - rewrite <- list_fmap_compose. apply Forall2_concat_fmap.
    eapply Forall_impl; [exact Hrec|]. intros st Hst. cbn in *.
    rewrite fmap_fst_pair, <- list_fmap_compose.
    apply Forall2_concat_fmap.
    eapply Forall_impl; [exact Hst|]. intros p [Hp _]. exact Hp.
  - apply warned_concat_fmap.
    eapply Forall_impl; [exact Hrec|]. intros st Hst. cbn in *.
    rewrite fmap_snd_pair. apply warned_concat_fmap.
    eapply Forall_impl; [exact Hst|]. intros p [_ Hp]. exact Hp.
Qed.

Lemma select_in_node_spec (prio ign : list string) (n : Node) :
  selected prio ign (select_in_node prio ign) n.
Proof.
  induction n as [| | | |l|sd IH] using Node_nested_ind;
    try (split; [constructor|done]).
  - destruct (select_implementation_spec prio ign l) as (l' & Hl & Ha & Hw).
    split; cbn [select_in_node library_nodes_node].
    + rewrite Hl. cbn. by repeat constructor.
    + exact Hw.
  - destruct (select_in_sdfg_spec prio ign _ sd IH) as [H1 H2].
    split; cbn [select_in_node library_nodes_node fst snd]; done.
Qed.

Lemma add_events_nil (s : Store) : add_events [] s = s.
Proof. unfold add_events. rewrite app_nil_r. by destruct s. Qed.

Lemma add_events_app (a b : list Event) (s : Store) :
  add_events b (add_events a s) = add_events (a ++ b) s.
Proof. unfold add_events. cbn. by rewrite app_assoc. Qed.

Lemma foldM_log_warn (ws : list string) (s : Store) :
  foldM (fun _ name => log (EvWarn name)) tt ws s
  = Done tt (add_events (EvWarn <$> ws) s).
Proof.
  revert s. induction ws as [|w ws IH]; intros s.
  - by rewrite add_events_nil.
  - change (foldM (fun _ name => log (EvWarn name)) tt (w :: ws) s)
      with (foldM (fun _ name => log (EvWarn name)) tt ws
                  (add_events [EvWarn w] s)).
    by rewrite IH, add_events_app.
Qed.

(** C7. The second pass gives every library node of the program, nested
    ones included, that is not of an ignored type the first entry of the
    preference list among those it supports; a node that supports none
    keeps its implementation and its default, and its name is warned
    about.  The pass always completes: after the first pass, the whole
    function returns the selected program with one warning per such
    node. *)
Theorem select_fast_assigns_first_supported `{Collaborators}
    (prio ign : list string) (sdfg : SDFG) :
  Forall2 (assigned prio ign) (library_nodes sdfg)
          (library_nodes (fst (select_fast prio ign sdfg)))
  /\ snd (select_fast prio ign sdfg)
     = LibraryNode.name
       <$> filter (fun l => unsupported prio ign l = true)
                  (library_nodes sdfg)
  /\ forall fuel env device blocklist s,
       set_fast_implementations fuel env sdfg device blocklist ign s
       = match pre_expand fuel (implementation_prio env device blocklist)
                          sdfg s with
         | Done sd s1 =>
             let r := select_fast (implementation_prio env device blocklist)
                                  ign sd in
             Done (fst r) (add_events (EvWarn <$> snd r) s1)
         | Raised e s1 => Raised e s1
         | OutOfFuel => OutOfFuel
         end.
Proof.
  assert (Hsel : forall p sd,
             Forall2 (assigned p ign) (library_nodes sd)
                     (library_nodes (fst (select_fast p ign sd)))
             /\ snd (select_fast p ign sd) = warned p ign (library_nodes sd)).
  { intros p sd. apply select_in_sdfg_spec.
    apply (all_nodes_of_sdfg (selected p ign (select_in_node p ign))).
    apply select_in_node_spec. }
  destruct (Hsel prio sdfg) as [H1 H2].
  split; [exact H1|]. split; [exact H2|].
  intros fuel env device blocklist s. unfold set_fast_implementations.
  unfold mbind at 1, M_bind at 1.
  destruct (pre_expand _ _ _ s) as [sd s1| |]; [|done|done].
  cbv zeta. unfold mbind, M_bind. by rewrite foldM_log_warn.
Qed.

(** ** Running computations *)

Lemma bind_Done {A B} (c : M A) (f : A -> M B) (s s1 : Store) (a : A) :
  c s = Done a s1 -> (c ≫= f) s = f a s1.
Proof. intros Hc. unfold mbind, M_bind. by rewrite Hc. Qed.

Lemma bind_Raised {A B} (c : M A) (f : A -> M B) (s s1 : Store) e :
  c s = Raised e s1 -> (c ≫= f) s = Raised e s1.
Proof. intros Hc. unfold mbind, M_bind. by rewrite Hc. Qed.

Lemma foldM_nil {S A} (body : S -> A -> M S) (acc : S) (s : Store) :
  foldM body acc [] s = Done acc s.
Proof. done. Qed.

Lemma foldM_cons {S A} (body : S -> A -> M S) (acc : S) x (l : list A) :
  foldM body acc (x :: l) = (acc' ← body acc x; foldM body acc' l).
Proof. done. Qed.

Lemma foldM_unchanged {S A} (body : S -> A -> M S) (acc : S) (l : list A)
    (s : Store) :
  Forall (fun x => body acc x s = Done acc s) l ->
  foldM body acc l s = Done acc s.
Proof.
  induction 1 as [|x l Hx _ IH]; [done|].
  rewrite foldM_cons. by rewrite (bind_Done _ _ _ _ _ Hx).
Qed.

(** ** C4: a program without write conflicts *)

Lemma consider_edge_no_wcr `{Collaborators} (sdfg : SDFG) (graph : SDFGState)
    (sub : option (list nid)) (edge : Edge.t) :
  Memlet.wcr (Edge.data edge) = None ->
  consider_edge sdfg graph sub edge = Ok None.
Proof. intros Hw. unfold consider_edge. by rewrite Hw. Qed.

Lemma view_edges_Forall (P : Edge.t -> Prop) (graph : SDFGState)
    (sub : option (list nid)) :
  Forall P (edges graph) -> Forall P (view_edges graph sub).
Proof.
  intros HP. destruct sub as [ns|]; [|done]. cbn.
  apply Forall_forall. intros e He. apply list_elem_of_filter in He as [_ He].
  by eapply Forall_forall in HP.
Qed.

Lemma discover_no_wcr `{Collaborators} (sdfg : SDFG) (graph : SDFGState)
    (sub : option (list nid)) :
  Forall (fun e => Memlet.wcr (Edge.data e) = None) (edges graph) ->
  discover sdfg graph sub = Ok [].
Proof.
  intros Hno. unfold discover.
  rewrite (mapR_Ok _ (fun _ => None)).
  - cbn. f_equal. induction (view_edges graph sub); [done|]. by cbn.
  - eapply Forall_impl; [by apply view_edges_Forall|].
    intros e He. by apply consider_edge_no_wcr.
Qed.

Lemma tile_wcrs_in_state_no_wcr `{Collaborators} (cfg : Config) (sdfg : SDFG)
    (i : nat) (sub : option (list nid)) (prefer : option bool) (s : Store) :
  no_wcr sdfg -> (i < length (states sdfg))%nat ->
  tile_wcrs_in_state cfg sdfg i sub prefer s = Done sdfg s.
Proof.
  intros Hno Hi. unfold tile_wcrs_in_state, state_at.
  destruct (states sdfg !! i) as [graph|] eqn:Hg.
  2: { apply lookup_ge_None in Hg. unfold SDFGState in Hg. lia. }
  assert (Hgraph : Forall (fun e => Memlet.wcr (Edge.data e) = None)
                          (edges graph)).
  { eapply (Forall_lookup_1 _ _ _ _ Hno Hg). }
  rewrite (discover_no_wcr _ _ _ Hgraph).
  unfold mbind, M_bind, mret, M_ret, lift. cbn.
  by destruct prefer as [[]|], (autotile_partial_parallelism cfg),
       (debugprint cfg).
Qed.

(** C4. On a program no data edge of which carries a write-conflict
    combinator, the tiler returns the program as it was, whatever the view
    (the whole program, a state, a subgraph), the flags and the
    collaborators: no node, schedule or buffer differs, no rewrite is
    called and nothing is printed. *)
Theorem tile_wcrs_no_wcr_unchanged `{Collaborators} (cfg : Config)
    (sdfg : SDFG) (view : GraphView) (validate_all : bool)
    (prefer : option bool) (s : Store) :
  no_wcr sdfg -> valid_view sdfg view ->
  tile_wcrs cfg sdfg view validate_all prefer s = Done sdfg s.
Proof.
  intros Hno Hview. destruct view as [|i|i ns|sts]; cbn in *.
  - apply foldM_unchanged. apply Forall_forall. intros i Hi.
    apply tile_wcrs_in_state_no_wcr; [done|].
    apply list_elem_of_In, in_seq in Hi. lia.
  - by apply tile_wcrs_in_state_no_wcr.
  - by apply tile_wcrs_in_state_no_wcr.
  - apply foldM_unchanged. eapply Forall_impl; [exact Hview|].
    intros i Hi. by apply tile_wcrs_in_state_no_wcr.
Qed.

Lemma tile_wcrs_no_wcr_unchanged_witness :
  no_wcr (Demo.program ["i"] [Integer 256] None)
  /\ valid_view (Demo.program ["i"] [Integer 256] None) (ViewState 0)
  /\ @tile_wcrs Demo.collaborators (Demo.config 128)
                (Demo.program ["i"] [Integer 256] None)
                (ViewState 0) false (Some true) initial_store
     = Done (Demo.program ["i"] [Integer 256] None) initial_store.
Proof.
  assert (Hno : no_wcr (Demo.program ["i"] [Integer 256] None)).
  { repeat constructor. }
  assert (Hv : valid_view (Demo.program ["i"] [Integer 256] None)
                          (ViewState 0)).
  { cbn. lia. }
  split; [exact Hno|]. split; [exact Hv|].
  exact (@tile_wcrs_no_wcr_unchanged Demo.collaborators (Demo.config 128)
           _ _ false (Some true) initial_store Hno Hv).
Defined.

(** ** What a computation appends to the trace *)

Lemma appends_ret {A} (partial : bool) (P : Event -> Prop) (a : A) :
  appends partial P (mret a).
Proof. intros s. cbn. exists []. by rewrite app_nil_r. Qed.

Lemma appends_raise {A} (partial : bool) (P : Event -> Prop) (e : Exn) :
  appends partial P (raise (A:=A) e).
Proof. intros s. cbn. exists []. by rewrite app_nil_r. Qed.

Lemma appends_lift {A} (partial : bool) (P : Event -> Prop) (r : result A) :
  appends partial P (lift r).
Proof. destruct r; [apply appends_ret|apply appends_raise]. Qed.

Lemma appends_log (partial : bool) (P : Event -> Prop) (ev : Event) :
  P ev -> appends partial P (log ev).
Proof. intros Hev s. cbn. exists [ev]. split; [done|by constructor]. Qed.

Lemma appends_get_defaults (partial : bool) (P : Event -> Prop) :
  appends partial P get_defaults.
Proof. intros s. cbn. exists []. by rewrite app_nil_r. Qed.

Lemma appends_set_defaults (partial : bool) (P : Event -> Prop) d :
  appends partial P (set_defaults d).
Proof. intros s. cbn. exists []. by rewrite app_nil_r. Qed.

Lemma appends_out_of_fuel {A} (P : Event -> Prop) :
  appends true P (out_of_fuel (A:=A)).
Proof. by intros s. Qed.

Lemma appends_bind {A B} (partial : bool) (P : Event -> Prop) (c : M A)
    (f : A -> M B) :
  appends partial P c -> (forall a, appends partial P (f a)) ->
  appends partial P (c ≫= f).
Proof.
  intros Hc Hf s. specialize (Hc s). unfold mbind, M_bind.
  destruct (c s) as [a s1|e s1|]; [|done|done].
  destruct Hc as (evs & Hevs & HP). specialize (Hf a s1).
  destruct (f a s1) as [b s2|e s2|]; [| |done];
    destruct Hf as (evs' & Hevs' & HP'); exists (evs ++ evs')%list;
    (split; [by rewrite Hevs', Hevs, app_assoc|by apply Forall_app]).
Qed.

Lemma appends_foldM {S A} (partial : bool) (P : Event -> Prop)
    (body : S -> A -> M S) (l : list A) :
  (forall acc x, x ∈ l -> appends partial P (body acc x)) ->
  forall acc, appends partial P (foldM body acc l).
Proof.
  induction l as [|x l IH]; intros Hbody acc.
  - apply appends_ret.
  - rewrite foldM_cons. apply appends_bind.
    + apply Hbody. by left.
    + intros acc'. apply IH. intros acc'' y Hy. apply Hbody. by right.
Qed.

Lemma appends_weaken {A} (partial : bool) (P Q : Event -> Prop) (c : M A) :
  (forall ev, P ev -> Q ev) -> appends partial P c -> appends partial Q c.
Proof.
  intros HPQ Hc s. specialize (Hc s).
  destruct (c s) as [a s1|e s1|]; [| |done];
    destruct Hc as (evs & Hevs & HP); exists evs;
    (split; [done|by eapply Forall_impl]).
Qed.

Lemma appends_total {A} (P : Event -> Prop) (c : M A) :
  appends false P c -> appends true P c.
Proof.
  intros Hc s. specialize (Hc s). by destruct (c s).
Qed.

(** ** C10: the preference for partial parallelism on a whole program *)

(** C10. On a whole SDFG (or a subgraph of one) the tiler runs on every
    state with the preference unset: what the caller passed for it has no
    effect, each state takes the preference from the configuration. *)
Theorem tile_wcrs_prefer_not_forwarded `{Collaborators} (cfg : Config)
    (sdfg : SDFG) (validate_all : bool) (prefer : option bool) :
  tile_wcrs cfg sdfg ViewSDFG validate_all prefer
  = foldM (fun sd state =>
             tile_wcrs cfg sd (ViewState state) validate_all None)
          sdfg (seq 0 (length (states sdfg)))
  /\ (forall sts,
         tile_wcrs cfg sdfg (ViewSDFGSubgraph sts) validate_all prefer
         = foldM (fun sd state =>
                    tile_wcrs cfg sd (ViewState state) validate_all None)
                 sdfg sts)
  /\ tile_wcrs cfg sdfg ViewSDFG validate_all prefer
     = tile_wcrs cfg sdfg ViewSDFG validate_all None
  /\ (forall sd state,
         tile_wcrs cfg sd (ViewState state) validate_all None
         = tile_wcrs cfg sd (ViewState state) validate_all
                     (Some (autotile_partial_parallelism cfg))).
Proof. by repeat split. Qed.

(** On a state the argument does count: with the configuration off, the
    caller's [True] extracts the free dimension; passed with the whole
    program it is dropped and the map is tiled. *)
Example tile_wcrs_prefer_example :
  let sdfg := Demo.program ["i"; "k"] [Integer 128; Integer 64]
                           (Some Demo.sum_wcr) in
  (trace <$> outcome_store
     (@tile_wcrs Demo.collaborators (Demo.config 128) sdfg (ViewState 0)
                 false (Some true) initial_store))
  = Some [EvExtractMapDims 0 0%nat [0%nat];
          EvPrint (OptimizedWriteConflictedMaps 1)]
  /\ (trace <$> outcome_store
        (@tile_wcrs Demo.collaborators (Demo.config 128) sdfg ViewSDFG
                    false (Some true) initial_store))
     = Some [EvMapTiling 0 128 0%nat;
             EvAccumulateTransient 0 (PyFloat "0.0") "A" 2%nat 200%nat;
             EvPrint (OptimizedWriteConflictedMaps 1)].
Proof. split; vm_compute; reflexivity. Qed.

(** ** C3: reduction identities *)

Lemma mapR_Forall2 {A B} (f : A -> result B) (l : list A) (r : list B) :
  mapR f l = Ok r -> Forall2 (fun x y => f x = Ok y) l r.
Proof.
  revert r. induction l as [|x l IH]; intros r.
  - intros [= <-]. constructor.
  - change (mapR f (x :: l)) with (y ← f x; ys ← mapR f l; Ok (y :: ys)).
    destruct (f x) as [y|e] eqn:Hx; [|done]. cbn.
    destruct (mapR f l) as [ys|e]; [|done]. cbn.
    intros [= <-]. constructor; [done|by apply IH].
Qed.

Lemma consider_edge_accept `{Collaborators} (sdfg : SDFG) (graph : SDFGState)
    (sub : option (list nid)) (e : Edge.t) (p : Edge.t * MapEntryRef) :
  consider_edge sdfg graph sub e = Ok (Some p) ->
  fst p = e /\ is_Some (edge_identity sdfg e).
Proof.
  unfold consider_edge, edge_identity.
  destruct (Memlet.wcr (Edge.data e)) as [wcr|]; [|done].
  destruct (_ || _ || _); [done|].
  destruct (is_write_conflicted_with_reason graph e) as [[reason|]|];
    [|done|done].
  destruct (lookup_node graph reason) as [[m| | | | |]|]; try done.
  destruct (negb _); [done|].
  destruct (arrays_lookup sdfg _) as [array|]; [|done]. cbn.
  destruct (reduction_identity _ _) as [ident|]; [|done].
  intros [= <-]. by split; [|eexists].
Qed.

Lemma consider_edge_skip `{Collaborators} (sdfg : SDFG) (graph : SDFGState)
    (sub : option (list nid)) (e : Edge.t) (array : Data.t) :
  arrays_lookup sdfg (Memlet.data (Edge.data e)) = Ok array ->
  edge_identity sdfg e = None ->
  consider_edge sdfg graph sub e = Ok None.
Proof.
  unfold consider_edge, edge_identity. intros Ha.
  destruct (Memlet.wcr (Edge.data e)) as [wcr|]; [|done].
  rewrite Ha. intros Hid.
  destruct (_ || _ || _); [done|].
  destruct (is_write_conflicted_with_reason graph e) as [[reason|]|];
    [|done|done].
  destruct (lookup_node graph reason) as [[m| | | | |]|]; try done.
  destruct (negb _); [done|]. cbn. by rewrite Hid.
Qed.

Lemma discover_accepts `{Collaborators} (sdfg : SDFG) (graph : SDFGState)
    (sub : option (list nid)) (l : list (Edge.t * MapEntryRef)) :
  discover sdfg graph sub = Ok l ->
  Forall (fun p => fst p ∈ view_edges graph sub
                   /\ is_Some (edge_identity sdfg (fst p))) l.
Proof.
  unfold discover.
  destruct (mapR _ _) as [found|] eqn:Hfound; [|done]. cbn.
  intros [= <-]. apply mapR_Forall2 in Hfound.
  induction Hfound as [|e [p|] es found He _ IH]; cbn; [constructor| |].
  - constructor.
    + apply consider_edge_accept in He as [<- Hid]. split; [by left|done].
    + eapply Forall_impl; [exact IH|]. intros q [Hq1 Hq2]. split; [|done].
      by right.
  - eapply Forall_impl; [exact IH|]. intros q [Hq1 Hq2]. split; [|done].
    by right.
Qed.

Lemma appends_bind_lift {A B} (partial : bool) (P : Event -> Prop)
    (r : result A) (f : A -> M B) :
  (forall a, r = Ok a -> appends partial P (f a)) ->
  appends partial P (lift r ≫= f).
Proof.
  intros Hf. destruct r as [a|e].
  - intros s. rewrite (bind_Done _ _ s s a); [|done]. by apply Hf.
  - intros s. rewrite (bind_Raised _ _ s s e); [|done].
    exists []. by rewrite app_nil_r.
Qed.

Lemma accumulate_edge_appends `{Collaborators} (i : nat)
    (mapexit outer_mapexit : nid) (sdfg : SDFG) (e : Edge.t) :
  appends false (accumulates sdfg e)
          (accumulate_edge i mapexit outer_mapexit sdfg e).
Proof.
  unfold accumulate_edge.
  apply appends_bind_lift. intros array Ha.
  destruct (Data.kind array).
  3: { destruct (memlet_path _ e) as [|first path]; [apply appends_raise|].
       destruct (_ || _); [apply appends_ret|].
       apply appends_bind; [by apply appends_log|]. intros _.
       apply appends_lift. }
  all: destruct (_ || _ || _ || _); [apply appends_ret|];
    destruct (Memlet.wcr (Edge.data e)) as [wcr|] eqn:Hw;
      [|apply appends_ret];
    destruct (Memlet.data (Edge.data e)) as [name|] eqn:Hd;
      [|apply appends_ret];
    destruct (reduction_identity _ _) as [ident|] eqn:Hid;
      [|apply appends_ret];
    (apply appends_bind; [|intros _; apply appends_lift]);
    apply appends_log; cbn; unfold edge_identity;
    by rewrite Hw, Hd, Ha.
Qed.

Lemma accumulate_edge_skip `{Collaborators} (i : nat)
    (mapexit outer_mapexit : nid) (sdfg : SDFG) (e : Edge.t)
    (array : Data.t) (s : Store) :
  arrays_lookup sdfg (Memlet.data (Edge.data e)) = Ok array ->
  Data.kind array <> Stream ->
  edge_identity sdfg e = None ->
  accumulate_edge i mapexit outer_mapexit sdfg e s = Done sdfg s.
Proof.
  intros Ha Hk. unfold edge_identity, accumulate_edge. rewrite Ha.
  intros Hid. rewrite (bind_Done _ _ s s array); [|done].
  destruct (Data.kind array); try done;
    (destruct (_ || _ || _ || _); [done|];
     destruct (Memlet.wcr (Edge.data e)) as [wcr|]; [|done];
     destruct (Memlet.data (Edge.data e)) as [name|]; [|done];
     by rewrite Hid).
Qed.

Lemma accumulates_tiler_event `{Collaborators} (sdfg : SDFG) (e : Edge.t)
    (ev : Event) :
  accumulates sdfg e ev -> tiler_event ev.
Proof.
  destruct ev; cbn; try done. unfold edge_identity.
  destruct (Memlet.wcr _); [|by intros [? _]].
  destruct (arrays_lookup _ _) as [a|]; [|by intros [? _]].
  intros [Hid _]. by eexists _, _.
Qed.

Lemma tile_and_accumulate_appends `{Collaborators} (tile_size : Z) (i : nat)
    (sdfg : SDFG) (mapentry : MapEntryRef) :
  appends false tiler_event (tile_and_accumulate tile_size i sdfg mapentry).
Proof.
  unfold tile_and_accumulate.
  apply appends_bind; [by apply appends_log|]. intros _.
  apply appends_bind; [apply appends_lift|]. intros r.
  apply appends_bind; [apply appends_lift|]. intros mapexit.
  apply appends_bind; [apply appends_lift|]. intros outer_mapexit.
  apply appends_foldM. intros sd e _.
  eapply appends_weaken; [|apply accumulate_edge_appends].
  apply accumulates_tiler_event.
Qed.

Lemma make_map_sequential_appends `{Collaborators} (cfg : Config) (i : nat)
    (sdfg : SDFG) (mapentry : MapEntryRef) :
  appends false tiler_event (make_map_sequential cfg i sdfg mapentry).
Proof.
  unfold make_map_sequential.
  apply appends_bind; [|intros _; apply appends_ret].
  destruct (debugprint cfg); [by apply appends_log|apply appends_ret].
Qed.

Lemma tile_map_appends `{Collaborators} (cfg : Config) (i : nat)
    (acc : SDFG * list nid) (entry : Edge.t * MapEntryRef) :
  appends false tiler_event (tile_map cfg i acc entry).
Proof.
  unfold tile_map. destruct (nid_in _ _); [apply appends_ret|].
  apply appends_bind; [|intros sd; apply appends_ret].
  destruct (smaller_than_tile _ _);
    [apply make_map_sequential_appends|apply tile_and_accumulate_appends].
Qed.

Lemma extract_parallel_dims_appends `{Collaborators} (tile_size : Z)
    (i : nat) (edges_to_consider : list (Edge.t * MapEntryRef))
    (acc : SDFG * list nid) (mapentry : MapEntryRef) :
  appends false tiler_event
          (extract_parallel_dims tile_size i edges_to_consider acc mapentry).
Proof.
  unfold extract_parallel_dims.
  destruct (nonconflicted_dims_of _ _); [apply appends_ret|].
  destruct (definitely_lt _ _); [apply appends_ret|].
  apply appends_bind; [by apply appends_log|]. intros _.
  apply appends_bind; [apply appends_lift|]. intros sd.
  apply appends_ret.
Qed.

Lemma tile_wcrs_in_state_appends `{Collaborators} (cfg : Config)
    (sdfg : SDFG) (i : nat) (sub : option (list nid))
    (prefer : option bool) :
  appends false tiler_event (tile_wcrs_in_state cfg sdfg i sub prefer).
Proof.
  unfold tile_wcrs_in_state.
  destruct (state_at sdfg i) as [graph|]; [|apply appends_raise].
  apply appends_bind; [apply appends_lift|]. intros edges_to_consider.
  apply appends_bind.
  { destruct (match prefer with Some b => b | None => _ end);
      [|apply appends_ret].
    apply appends_foldM. intros acc me _.
    apply extract_parallel_dims_appends. }
  intros acc. apply appends_bind.
  { apply appends_foldM. intros acc' entry _. apply tile_map_appends. }
  intros acc'. apply appends_bind; [|intros _; apply appends_ret].
  destruct (_ && _); [by apply appends_log|apply appends_ret].
Qed.

Lemma tile_wcrs_appends `{Collaborators} (cfg : Config) (sdfg : SDFG)
    (view : GraphView) (validate_all : bool) (prefer : option bool) :
  appends false tiler_event (tile_wcrs cfg sdfg view validate_all prefer).
Proof.
  destruct view; cbn; try apply tile_wcrs_in_state_appends;
    apply appends_foldM; intros sd i _; apply tile_wcrs_in_state_appends.
Qed.

(** C3. An edge is taken into edges_to_consider only when the reduction
    identity of its buffer's element type and its combinator is resolvable,
    and an edge whose identity is not resolvable is passed over; at the
    tiled map an accumulation buffer is inserted for an edge only with that
    edge's identity, and an edge to a buffer that is no stream whose
    identity is not resolvable leaves the program as it is.  Whatever the
    tiler runs on, every accumulation buffer it inserts is seeded with the
    reduction identity of some element type and combinator kind. *)
Theorem tiler_accepts_edges_with_identity `{Collaborators} (cfg : Config)
    (sdfg : SDFG) (graph : SDFGState) (sub : option (list nid))
    (i : nat) (mapexit outer_mapexit : nid) (e : Edge.t)
    (view : GraphView) (validate_all : bool) (prefer : option bool) :
  (forall l, discover sdfg graph sub = Ok l ->
             Forall (fun p => fst p ∈ view_edges graph sub
                              /\ is_Some (edge_identity sdfg (fst p))) l)
  /\ (forall array,
         arrays_lookup sdfg (Memlet.data (Edge.data e)) = Ok array ->
         edge_identity sdfg e = None ->
         consider_edge sdfg graph sub e = Ok None)
  /\ appends false (accumulates sdfg e)
             (accumulate_edge i mapexit outer_mapexit sdfg e)
  /\ (forall array s,
         arrays_lookup sdfg (Memlet.data (Edge.data e)) = Ok array ->
         Data.kind array <> Stream ->
         edge_identity sdfg e = None ->
         accumulate_edge i mapexit outer_mapexit sdfg e s = Done sdfg s)
  /\ appends false tiler_event
             (tile_wcrs cfg sdfg view validate_all prefer).
Proof.
  split; [apply discover_accepts|].
  split; [apply consider_edge_skip|].
  split; [apply accumulate_edge_appends|].
  split; [apply accumulate_edge_skip|apply tile_wcrs_appends].
Qed.

(** ** Updating a node of a state *)

Lemma lookup_node_update (f : Node -> Node) (n k : nid) (st : SDFGState) :
  lookup_node (update_node f n st) k
  = (if Nat.eqb k n then f else id) <$> lookup_node st k.
Proof.
  unfold lookup_node, update_node. cbn.
  induction (nodes st) as [|[a x] l IH]; [done|].
  rewrite fmap_cons. cbn [find fst snd].
  destruct (Nat.eqb a n) eqn:Han; cbn [fst snd];
    destruct (Nat.eqb a k) eqn:Hak; cbn; try exact IH.
  - apply Nat.eqb_eq in Han, Hak. subst. by rewrite Nat.eqb_refl.
  - apply Nat.eqb_eq in Hak. subst. by rewrite Han.
Qed.

Lemma state_at_update (f : SDFGState -> SDFGState) (i : nat) (sd : SDFG) :
  state_at (update_state f i sd) i = f <$> state_at sd i.
Proof. unfold state_at, update_state. cbn. apply list_lookup_alter_eq. Qed.

Lemma map_now_make_sequential (n : nid) (i : nat) (sd : SDFG)
    (me : MapEntryRef) :
  map_now (update_state (update_node make_sequential n) i sd) i me
  = if Nat.eqb (fst me) n
    then match state_at sd i with
         | Some g =>
             match lookup_node g (fst me) with
             | Some (MapEntry m) =>
                 Map.set_schedule ScheduleType.Sequential m
             | _ => map_now sd i me
             end
         | None => map_now sd i me
         end
    else map_now sd i me.
Proof.
  unfold map_now, node_now. rewrite state_at_update.
  destruct (state_at sd i) as [g|].
  2: { by destruct (Nat.eqb _ _). }
  change (update_node make_sequential n <$> Some g)
    with (Some (update_node make_sequential n g)). cbv beta iota.
  rewrite lookup_node_update.
  destruct (Nat.eqb (fst me) n); destruct (lookup_node g (fst me)) as [x|];
    try done.
  all: by destruct x.
Qed.

Lemma range_map_now_make_sequential (n : nid) (i : nat) (sd : SDFG)
    (me : MapEntryRef) :
  Map.range (map_now (update_state (update_node make_sequential n) i sd) i me)
  = Map.range (map_now sd i me).
Proof.
  rewrite map_now_make_sequential.
  destruct (Nat.eqb (fst me) n); [|done].
  unfold map_now, node_now.
  destruct (state_at sd i) as [g|]; [|done]. cbn.
  destruct (lookup_node g (fst me)) as [x|]; [|done]. by destruct x.
Qed.

(** ** C1: maps smaller than the tile size *)

Lemma tile_map_sequential `{Collaborators} (cfg : Config) (i : nat)
    (sdfg : SDFG) (transformed : list nid) (edge : Edge.t)
    (mapentry : MapEntryRef) (s : Store) :
  nid_in (fst mapentry) transformed = false ->
  smaller_than_tile (autotile_size cfg) (map_now sdfg i mapentry) = true ->
  tile_map cfg i (sdfg, transformed) (edge, mapentry) s
  = Done (update_state (update_node make_sequential (fst mapentry)) i sdfg,
          fst mapentry :: transformed)
         (add_events (if debugprint cfg
                      then [EvPrint (MakingMapSequential (fst mapentry))]
                      else []) s).
Proof.
  intros Hnew Hsmall. unfold tile_map. cbn [fst snd].
  rewrite Hnew, Hsmall. unfold make_map_sequential.
  unfold mbind, M_bind, mret, M_ret.
  destruct (debugprint cfg); cbn; [done|]. by rewrite add_events_nil.
Qed.

Lemma tile_loop_all_small `{Collaborators} (cfg : Config) (i : nat)
    (l : list (Edge.t * MapEntryRef)) :
  forall (sd : SDFG) (transformed : list nid) (s : Store),
    Forall (fun p => smaller_than_tile (autotile_size cfg)
                                       (map_now sd i (snd p)) = true) l ->
    foldM (tile_map cfg i) (sd, transformed) l s
    = Done (make_all_sequential i (newly_transformed transformed l) sd,
            (rev (newly_transformed transformed l) ++ transformed)%list)
           (add_events
              (if debugprint cfg
               then (fun n => EvPrint (MakingMapSequential n))
                    <$> newly_transformed transformed l
               else []) s).
Proof.
  induction l as [|[edge me] l IH]; intros sd transformed s Hsmall.
  - rewrite foldM_nil.
    cbn [newly_transformed make_all_sequential foldl rev app].
    destruct (debugprint cfg); by rewrite ?fmap_nil, add_events_nil.
  - apply Forall_cons in Hsmall as [Hme Hl]. cbn [snd] in Hme.
    rewrite foldM_cons. cbn [newly_transformed fst snd].
    destruct (nid_in (fst me) transformed) eqn:Hnew.
    + rewrite (bind_Done _ _ s s (sd, transformed)).
      * by apply IH.
      * unfold tile_map. cbn [fst snd]. by rewrite Hnew.
    + rewrite (bind_Done _ _ _ _ _
                 (tile_map_sequential cfg i sd transformed edge me s
                                      Hnew Hme)).
      rewrite IH.
      * cbn [make_all_sequential foldl rev]. rewrite <- app_assoc.
        cbn [app]. rewrite add_events_app.
        by destruct (debugprint cfg).
      * eapply Forall_impl; [exact Hl|]. intros p Hp. cbn in Hp.
        unfold smaller_than_tile in *.
        by rewrite range_map_now_make_sequential.
Qed.

Lemma make_sequential_idemp (n : Node) :
  make_sequential (make_sequential n) = make_sequential n.
Proof. by destruct n. Qed.

Lemma update_state_compose (f g : SDFGState -> SDFGState) (i : nat)
    (sd : SDFG) :
  update_state f i (update_state g i sd) = update_state (f ∘ g) i sd.
Proof.
  unfold update_state. cbn. f_equal. apply list_alter_alter_eq.
Qed.

Lemma update_state_ext (f g : SDFGState -> SDFGState) (i : nat) (sd : SDFG) :
  (forall st, f st = g st) -> update_state f i sd = update_state g i sd.
Proof.
  intros Hfg. unfold update_state. f_equal. apply list_alter_ext; [|done].
  intros st _. apply Hfg.
Qed.

Lemma update_state_id (i : nat) (sd : SDFG) :
  update_state (fun g => {| nodes := id <$> nodes g; edges := edges g |}) i sd
  = sd.
Proof.
  unfold update_state. destruct sd as [a c sts]. cbn. f_equal.
  apply list_alter_id. intros [ns es]. cbn. by rewrite list_fmap_id.
Qed.

Lemma make_all_sequential_closed (i : nat) (ns : list nid) (sd : SDFG) :
  make_all_sequential i ns sd = sequentialized i ns sd.
Proof.
  revert sd. induction ns as [|n ns IH]; intros sd.
  - cbn. unfold sequentialized. cbn. symmetry. apply update_state_id.
  - change (make_all_sequential i (n :: ns) sd)
      with (make_all_sequential i ns
              (update_state (update_node make_sequential n) i sd)).
    rewrite IH. unfold sequentialized. rewrite update_state_compose.
    apply update_state_ext. intros [nds es]. unfold update_node. cbn.
    f_equal. rewrite <- list_fmap_compose. apply list_fmap_ext.
    intros _ [k x] _. cbn.
    destruct (Nat.eqb k n) eqn:Hk; cbn.
    + destruct (nid_in k ns); [|done]. by rewrite make_sequential_idemp.
    + done.
Qed.

Lemma _prod_Integer (ns : list Z) :
  _prod (Integer <$> ns) = Integer (product ns).
Proof.
  unfold _prod, product. generalize 1.
  induction ns as [|n ns IH]; intros a; [done|]. cbn. apply IH.
Qed.

Lemma foldl_mul_ge (ns : list Z) (a : Z) :
  1 <= a -> Forall (fun n => 1 <= n) ns ->
  a <= foldl Z.mul a ns /\ Forall (fun n => n <= foldl Z.mul a ns) ns.
Proof.
  intros Ha Hns. revert a Ha.
  induction Hns as [|n ns Hn _ IH]; intros a Ha; cbn; [by split|].
  destruct (IH (a * n)) as [H1 H2]; [nia|].
  split; [nia|]. constructor; [nia|done].
Qed.

Lemma smaller_than_tile_product `{Collaborators} (tile_size : Z) (m : Map.t)
    (ns : list Z) :
  Map.range m = Integer <$> ns ->
  Forall (fun n => 1 <= n) ns ->
  product ns < tile_size ->
  smaller_than_tile tile_size m = true.
Proof.
  intros Hr Hpos Hlt. unfold smaller_than_tile. rewrite Hr.
  apply forallb_forall. intros s Hs.
  apply list_elem_of_In, list_elem_of_fmap in Hs as (n & -> & Hn).
  cbn. apply Z.ltb_lt.
  destruct (foldl_mul_ge ns 1) as [_ Hle]; [lia|done|].
  eapply Forall_forall in Hle; [|exact Hn]. unfold product in Hlt. lia.
Qed.

Lemma tile_wcrs_in_state_all_small `{Collaborators} (cfg : Config)
    (sdfg : SDFG) (i : nat) (sub : option (list nid))
    (prefer : option bool) (graph : SDFGState)
    (l : list (Edge.t * MapEntryRef)) (s : Store) :
  state_at sdfg i = Some graph ->
  discover sdfg graph sub = Ok l ->
  default (autotile_partial_parallelism cfg) prefer = false ->
  Forall (fun p => smaller_than_tile (autotile_size cfg)
                                     (map_now sdfg i (snd p)) = true) l ->
  tile_wcrs_in_state cfg sdfg i sub prefer s
  = Done (sequentialized i (newly_transformed [] l) sdfg)
         (add_events
            (if debugprint cfg
             then ((fun n => EvPrint (MakingMapSequential n))
                   <$> newly_transformed [] l)
                  ++ match newly_transformed [] l with
                     | [] => []
                     | ns => [EvPrint (OptimizedWriteConflictedMaps
                                         (length ns))]
                     end
             else []) s).
Proof.
  intros Hg Hl Hprefer Hsmall. unfold tile_wcrs_in_state.
  rewrite Hg, Hl.
  rewrite (bind_Done _ _ s s l); [|done].
  assert (Hp : match prefer with
               | Some b => b
               | None => autotile_partial_parallelism cfg
               end = false) by (by destruct prefer).
  rewrite Hp.
  rewrite (bind_Done _ _ s s (sdfg, [])); [|done].
  rewrite (bind_Done _ _ _ _ _ (tile_loop_all_small cfg i l sdfg [] s Hsmall)).
  cbn [fst snd]. rewrite make_all_sequential_closed, app_nil_r, length_rev.
  set (ns := newly_transformed [] l).
  destruct (debugprint cfg); cbn [andb].
  - destruct ns as [|n ns'] eqn:Hns.
    + cbn. by rewrite !add_events_nil.
    + unfold mbind, M_bind. cbn [length Nat.ltb Nat.leb].
      unfold log, mret, M_ret. f_equal.
      rewrite <- Hns. by rewrite <- add_events_app.
  - unfold mbind, M_bind, mret, M_ret. by rewrite add_events_nil.
Qed.

Lemma lookup_node_sequentialized (i : nat) (ns : list nid) (sd : SDFG)
    (g : SDFGState) (n : nid) (m : Map.t) :
  state_at sd i = Some g ->
  lookup_node g n = Some (MapEntry m) ->
  n ∈ ns ->
  exists g', state_at (sequentialized i ns sd) i = Some g'
             /\ lookup_node g' n
                = Some (MapEntry (Map.set_schedule ScheduleType.Sequential m)).
Proof.
  intros Hg Hn Hin. unfold sequentialized. rewrite state_at_update, Hg.
  eexists. split; [done|].
  unfold lookup_node in *. cbn [nodes].
  induction (nodes g) as [|[k x] nds IH]; [done|].
  rewrite fmap_cons. cbn [find fst snd] in *.
  destruct (nid_in k ns) eqn:Hk; cbn [fst snd];
    destruct (Nat.eqb k n) eqn:Hkn; try (by apply IH).
  - cbn in *. by inversion Hn.
  - apply Nat.eqb_eq in Hkn. subst k. apply nid_in_spec in Hin. congruence.
Qed.

(** ** C1, C2: at the threshold *)

Lemma definitely_lt_threshold `{Collaborators} (n : Z) :
  definitely_lt (Integer n) n = false.
Proof. cbn. apply Z.ltb_irrefl. Qed.

Lemma smaller_than_tile_false `{Collaborators} (tile_size : Z) (m : Map.t)
    (size : SymExpr) :
  size ∈ Map.range m -> definitely_lt size tile_size = false ->
  smaller_than_tile tile_size m = false.
Proof.
  intros Hin Hs. unfold smaller_than_tile.
  apply not_true_iff_false. rewrite forallb_forall. intros Hall.
  rewrite Hall in Hs; [done|]. by apply list_elem_of_In.
Qed.

Lemma starts_with_log_bind {A} (ev : Event) (P : Event -> Prop)
    (f : unit -> M A) (s : Store) :
  appends false P (f tt) -> starts_with ev P (log ev ≫= f) s.
Proof.
  intros Hf. unfold starts_with.
  rewrite (bind_Done _ _ s (add_events [ev] s) tt); [|done].
  specialize (Hf (add_events [ev] s)).
  destruct (f tt _) as [a s'|e s'|]; [| |done];
    destruct Hf as (evs & Hevs & HP); exists evs;
    (split; [|done]); rewrite Hevs; cbn; by rewrite <- app_assoc.
Qed.

Lemma starts_with_bind_ret {A B} (ev : Event) (P : Event -> Prop) (c : M A)
    (g : A -> B) (s : Store) :
  starts_with ev P c s -> starts_with ev P (a ← c; mret (g a)) s.
Proof.
  unfold starts_with, mbind, M_bind. by destruct (c s).
Qed.

Lemma tile_and_accumulate_starts `{Collaborators} (tile_size : Z) (i : nat)
    (sdfg : SDFG) (mapentry : MapEntryRef) (s : Store) :
  starts_with (EvMapTiling i tile_size (fst mapentry)) tiler_event
              (tile_and_accumulate tile_size i sdfg mapentry) s.
Proof.
  unfold tile_and_accumulate. apply starts_with_log_bind.
  apply appends_bind; [apply appends_lift|]. intros r.
  apply appends_bind; [apply appends_lift|]. intros mapexit.
  apply appends_bind; [apply appends_lift|]. intros outer_mapexit.
  apply appends_foldM. intros sd e _.
  eapply appends_weaken; [|apply accumulate_edge_appends].
  apply accumulates_tiler_event.
Qed.

Lemma tile_map_tiles `{Collaborators} (cfg : Config) (i : nat)
    (sdfg : SDFG) (transformed : list nid) (edge : Edge.t)
    (mapentry : MapEntryRef) :
  nid_in (fst mapentry) transformed = false ->
  smaller_than_tile (autotile_size cfg) (map_now sdfg i mapentry) = false ->
  tile_map cfg i (sdfg, transformed) (edge, mapentry)
  = (sdfg' ← tile_and_accumulate (autotile_size cfg) i sdfg mapentry;
     mret (sdfg', fst mapentry :: transformed)).
Proof.
  intros Hnew Hbig. unfold tile_map. cbn [fst snd]. by rewrite Hnew, Hbig.
Qed.


Lemma starts_with_bind {A B} (ev : Event) (P : Event -> Prop) (c : M A)
    (f : A -> M B) (s : Store) :
  starts_with ev P c s -> (forall a, appends false P (f a)) ->
  starts_with ev P (c ≫= f) s.
Proof.
  unfold starts_with, mbind, M_bind. intros Hc Hf.
  destruct (c s) as [a s1|e s1|]; [|done|done].
  destruct Hc as (evs & Hevs & HP). specialize (Hf a s1).
  destruct (f a s1) as [b s2|e s2|]; [| |done];
    destruct Hf as (evs' & Hevs' & HP'); exists (evs ++ evs')%list;
    (split; [|by apply Forall_app]);
    by rewrite Hevs', Hevs, <- app_assoc.
Qed.

Lemma tile_map_starts `{Collaborators} (cfg : Config) (i : nat)
    (sdfg : SDFG) (transformed : list nid) (edge : Edge.t)
    (mapentry : MapEntryRef) (s : Store) :
  nid_in (fst mapentry) transformed = false ->
  smaller_than_tile (autotile_size cfg) (map_now sdfg i mapentry) = false ->
  starts_with (EvMapTiling i (autotile_size cfg) (fst mapentry)) tiler_event
              (tile_map cfg i (sdfg, transformed) (edge, mapentry)) s.
Proof.
  intros Hnew Hbig.
  rewrite (tile_map_tiles cfg i sdfg transformed edge mapentry Hnew Hbig).
  apply starts_with_bind_ret, tile_and_accumulate_starts.
Qed.

Lemma tile_wcrs_in_state_starts `{Collaborators} (cfg : Config)
    (sdfg : SDFG) (i : nat) (sub : option (list nid))
    (prefer : option bool) (graph : SDFGState) (edge : Edge.t)
    (mapentry : MapEntryRef) (l : list (Edge.t * MapEntryRef)) (s : Store) :
  state_at sdfg i = Some graph ->
  discover sdfg graph sub = Ok ((edge, mapentry) :: l) ->
  default (autotile_partial_parallelism cfg) prefer = false ->
  smaller_than_tile (autotile_size cfg) (map_now sdfg i mapentry) = false ->
  starts_with (EvMapTiling i (autotile_size cfg) (fst mapentry)) tiler_event
              (tile_wcrs_in_state cfg sdfg i sub prefer) s.
Proof.
  intros Hg Hl Hprefer Hbig.
  assert (Hp : match prefer with
               | Some b => b
               | None => autotile_partial_parallelism cfg
               end = false) by (by destruct prefer).
  unfold tile_wcrs_in_state. rewrite Hg, Hl, Hp.
  change (starts_with (EvMapTiling i (autotile_size cfg) (fst mapentry))
            tiler_event
            (acc' ← foldM (tile_map cfg i) (sdfg, [])
                          ((edge, mapentry) :: l);
             (if debugprint cfg && (0 <? length (snd acc'))%nat
              then log (EvPrint (OptimizedWriteConflictedMaps
                                   (length (snd acc'))))
              else mret tt);;
             mret (fst acc')) s).
  apply starts_with_bind.
  - rewrite foldM_cons. apply starts_with_bind.
    + by apply tile_map_starts.
    + intros acc. apply appends_foldM. intros acc' entry _.
      apply tile_map_appends.
  - intros acc'. apply appends_bind; [|intros _; apply appends_ret].
    destruct (_ && _); [by apply appends_log|apply appends_ret].
Qed.



(** C1, amended. A map entry the tiling loop reaches that is not yet
    transformed and whose range sizes are all definitely below the tile
    size (strictly: [s < tile_size]) is not tiled; its schedule becomes
    sequential, and nothing else changes.  When extraction is off and all
    the implicated maps are that small, the tiler returns the program with
    exactly those maps sequential and calls no rewrite.  For concrete,
    positive sizes the condition holds whenever the full iteration size is
    below the tile size.  A map with a size that is not definitely below
    the tile size, as is a size equal to it, is not made sequential: the
    loop hands it to MapTiling, and when it is the map of the first pair
    and extraction is off, that call is the first thing the tiler does. *)
Theorem small_map_is_made_sequential `{Collaborators} (cfg : Config)
    (sdfg : SDFG) (i : nat) (sub : option (list nid)) (prefer : option bool)
    (graph : SDFGState) (l : list (Edge.t * MapEntryRef)) (s : Store)
    (transformed : list nid) (edge : Edge.t) (mapentry : MapEntryRef)
    (n : nid) (ns' : list nid) (m : Map.t) (ns : list Z) :
  (nid_in (fst mapentry) transformed = false ->
   smaller_than_tile (autotile_size cfg) (map_now sdfg i mapentry) = true ->
   tile_map cfg i (sdfg, transformed) (edge, mapentry) s
   = Done (update_state (update_node make_sequential (fst mapentry)) i sdfg,
           fst mapentry :: transformed)
          (add_events (if debugprint cfg
                       then [EvPrint (MakingMapSequential (fst mapentry))]
                       else []) s))
  /\ (state_at sdfg i = Some graph ->
      discover sdfg graph sub = Ok l ->
      default (autotile_partial_parallelism cfg) prefer = false ->
      Forall (fun p => smaller_than_tile (autotile_size cfg)
                                         (map_now sdfg i (snd p)) = true) l ->
      tile_wcrs_in_state cfg sdfg i sub prefer s
      = Done (sequentialized i (newly_transformed [] l) sdfg)
             (add_events
                (if debugprint cfg
                 then ((fun n => EvPrint (MakingMapSequential n))
                       <$> newly_transformed [] l)
                      ++ match newly_transformed [] l with
                         | [] => []
                         | ns => [EvPrint (OptimizedWriteConflictedMaps
                                             (length ns))]
                         end
                 else []) s))
  /\ (state_at sdfg i = Some graph ->
      lookup_node graph n = Some (MapEntry m) ->
      n ∈ ns' ->
      exists g', state_at (sequentialized i ns' sdfg) i = Some g'
                 /\ lookup_node g' n
                    = Some (MapEntry
                              (Map.set_schedule ScheduleType.Sequential m)))
  /\ (Map.range m = Integer <$> ns ->
      Forall (fun n => 1 <= n) ns ->
      product ns < autotile_size cfg ->
      smaller_than_tile (autotile_size cfg) m = true
      /\ _prod (Map.range m) = Integer (product ns))
  /\ (Integer (autotile_size cfg) ∈ Map.range m ->
      smaller_than_tile (autotile_size cfg) m = false)
  /\ (nid_in (fst mapentry) transformed = false ->
      smaller_than_tile (autotile_size cfg) (map_now sdfg i mapentry) = false ->
      tile_map cfg i (sdfg, transformed) (edge, mapentry)
      = (sdfg' ← tile_and_accumulate (autotile_size cfg) i sdfg mapentry;
         mret (sdfg', fst mapentry :: transformed))
      /\ starts_with (EvMapTiling i (autotile_size cfg) (fst mapentry))
                     tiler_event
                     (tile_map cfg i (sdfg, transformed) (edge, mapentry)) s)
  /\ (state_at sdfg i = Some graph ->
      discover sdfg graph sub = Ok ((edge, mapentry) :: l) ->
      default (autotile_partial_parallelism cfg) prefer = false ->
      smaller_than_tile (autotile_size cfg) (map_now sdfg i mapentry) = false ->
      starts_with (EvMapTiling i (autotile_size cfg) (fst mapentry))
                  tiler_event
                  (tile_wcrs_in_state cfg sdfg i sub prefer) s).
Proof.
  split; [apply tile_map_sequential|].
  split; [apply tile_wcrs_in_state_all_small|].
  split; [apply lookup_node_sequentialized|].
  split.
  { intros Hr Hpos Hlt. split; [by eapply smaller_than_tile_product|].
    rewrite Hr. apply _prod_Integer. }
  split.
  { intros Hin. eapply smaller_than_tile_false; [exact Hin|].
    apply definitely_lt_threshold. }
  split; [|apply tile_wcrs_in_state_starts].
  intros Hnew Hbig. split; [by apply tile_map_tiles|].
  by apply tile_map_starts.
Qed.

Lemma small_map_is_made_sequential_witness :
  let cfg := Demo.config 128 in
  let w := Some Demo.sum_wcr in
  let sdfg := Demo.program ["i"] [Integer 127] w in
  let graph := Demo.map_state ["i"] [Integer 127] w in
  let l := [(Demo.inner_edge w, (0%nat, Demo.the_map ["i"] [Integer 127]))] in
  let sdfg' := Demo.program ["i"] [Integer 128] w in
  let graph' := Demo.map_state ["i"] [Integer 128] w in
  let me' : MapEntryRef := (0%nat, Demo.the_map ["i"] [Integer 128]) in
  (state_at sdfg 0 = Some graph
   /\ @discover Demo.collaborators sdfg graph None = Ok l
   /\ default (autotile_partial_parallelism cfg) (Some false) = false
   /\ Forall (fun p => @smaller_than_tile Demo.collaborators
                         (autotile_size cfg) (map_now sdfg 0 (snd p)) = true)
             l
   /\ @tile_wcrs_in_state Demo.collaborators cfg sdfg 0 None (Some false)
                          initial_store
      = Done (sequentialized 0 [0%nat] sdfg)
             (add_events [EvPrint (MakingMapSequential 0%nat);
                          EvPrint (OptimizedWriteConflictedMaps 1)]
                         initial_store))
  /\ (state_at sdfg' 0 = Some graph'
      /\ @discover Demo.collaborators sdfg' graph' None
         = Ok [(Demo.inner_edge w, me')]
      /\ @smaller_than_tile Demo.collaborators (autotile_size cfg)
           (map_now sdfg' 0 me') = false
      /\ starts_with (EvMapTiling 0 128 0%nat)
                     (@tiler_event Demo.collaborators)
                     (@tile_wcrs_in_state Demo.collaborators cfg sdfg' 0
                                          None (Some false))
                     initial_store).
Proof.
  intros cfg w sdfg graph l sdfg' graph' me'.
  assert (Hg : state_at sdfg 0 = Some graph) by reflexivity.
  assert (Hl : @discover Demo.collaborators sdfg graph None = Ok l)
    by (vm_compute; reflexivity).
  assert (Hp : default (autotile_partial_parallelism cfg) (Some false) = false)
    by reflexivity.
  assert (Hs : Forall (fun p => @smaller_than_tile Demo.collaborators
                                  (autotile_size cfg)
                                  (map_now sdfg 0 (snd p)) = true) l)
    by (repeat constructor).
  assert (Hg' : state_at sdfg' 0 = Some graph') by reflexivity.
  assert (Hl' : @discover Demo.collaborators sdfg' graph' None
                = Ok [(Demo.inner_edge w, me')]) by (vm_compute; reflexivity).
  assert (Hbig : @smaller_than_tile Demo.collaborators (autotile_size cfg)
                   (map_now sdfg' 0 me') = false) by reflexivity.
  split.
  - split; [exact Hg|]. split; [exact Hl|]. split; [exact Hp|].
    split; [exact Hs|].
    exact (proj1 (proj2
             (@small_map_is_made_sequential Demo.collaborators cfg sdfg 0%nat
                None (Some false) graph l initial_store [] (Demo.inner_edge w)
                (0%nat, Demo.the_map ["i"] [Integer 127]) 0%nat []
                (Demo.the_map ["i"] [Integer 127]) []))
           Hg Hl Hp Hs).
  - split; [exact Hg'|]. split; [exact Hl'|]. split; [exact Hbig|].
    exact (proj2 (proj2 (proj2 (proj2 (proj2 (proj2
             (@small_map_is_made_sequential Demo.collaborators cfg sdfg'
                0%nat None (Some false) graph' [] initial_store []
                (Demo.inner_edge w) me' 0%nat []
                (Demo.the_map ["i"] [Integer 128]) []))))))
           Hg' Hl' Hp Hbig).
Defined.

(** C1 as the specification states it fails where the size equals the tile
    size: on the map of 128 iterations, with tile size 128, the tiler does
    not take the sequential branch.  Whatever MapTiling does, the tiler
    calls it on the map first, so that its run is never the one of the
    sequential branch; with the tiling that finds nothing to tile there
    the tiler raises right after that call. *)
Lemma tile_wcrs_at_threshold_is_not_sequential :
  let cfg := Demo.config 128 in
  let sdfg := Demo.program ["i"] [Integer 128] (Some Demo.sum_wcr) in
  _prod (Map.range (Demo.the_map ["i"] [Integer 128]))
  = Integer (autotile_size cfg)
  /\ (forall t : SDFG -> nat -> Z -> nid -> result (SDFG * nid),
        let C := with_tiling Demo.collaborators t in
        starts_with (EvMapTiling 0 128 0%nat) (@tiler_event C)
                    (@tile_wcrs C cfg sdfg (ViewState 0) false (Some false))
                    initial_store
        /\ @tile_wcrs C cfg sdfg (ViewState 0) false (Some false)
                      initial_store
           <> Done (sequentialized 0 [0%nat] sdfg)
                   (add_events [EvPrint (MakingMapSequential 0%nat);
                                EvPrint (OptimizedWriteConflictedMaps 1)]
                               initial_store))
  /\ @tile_wcrs Demo.collaborators cfg sdfg (ViewState 0) false (Some false)
                initial_store
     = Raised StopIteration
              (add_events [EvMapTiling 0 128 0%nat] initial_store).
Proof.
  intros cfg sdfg. split; [reflexivity|]. split; [|vm_compute; reflexivity].
  intros t C.
  assert (Hstarts : starts_with (EvMapTiling 0 128 0%nat) (@tiler_event C)
                      (@tile_wcrs C cfg sdfg (ViewState 0) false
                                  (Some false))
                      initial_store).
  { apply (@tile_wcrs_in_state_starts C cfg sdfg 0%nat None (Some false)
             (Demo.map_state ["i"] [Integer 128] (Some Demo.sum_wcr))
             (Demo.inner_edge (Some Demo.sum_wcr))
             (0%nat, Demo.the_map ["i"] [Integer 128]) []);
      [reflexivity|vm_compute; reflexivity|reflexivity|reflexivity]. }
  split; [exact Hstarts|].
  intros Hseq. unfold starts_with in Hstarts. rewrite Hseq in Hstarts.
  destruct Hstarts as (evs & Hevs & _). by cbn in Hevs.
Qed.




Lemma tiler_accepts_edges_with_identity_witness :
  let w := Some Demo.custom_wcr in
  let sdfg := Demo.program ["i"] [Integer 256] w in
  let graph := Demo.map_state ["i"] [Integer 256] w in
  let e := Demo.inner_edge w in
  let array := Demo.buffer Array (Integer 1) in
  arrays_lookup sdfg (Memlet.data (Edge.data e)) = Ok array
  /\ Data.kind array <> Stream
  /\ @edge_identity Demo.collaborators sdfg e = None
  /\ @consider_edge Demo.collaborators sdfg graph None e = Ok None
  /\ @accumulate_edge Demo.collaborators 0 2%nat 200%nat sdfg e initial_store
     = Done sdfg initial_store.
Proof.
  intros w sdfg graph e array.
  assert (Ha : arrays_lookup sdfg (Memlet.data (Edge.data e)) = Ok array)
    by reflexivity.
  assert (Hk : Data.kind array <> Stream) by discriminate.
  assert (Hid : @edge_identity Demo.collaborators sdfg e = None)
    by reflexivity.
  pose proof (@tiler_accepts_edges_with_identity Demo.collaborators
                (Demo.config 128) sdfg graph None 0%nat 2%nat 200%nat e
                (ViewState 0) false None) as (_ & Hskip & _ & Hleft & _).
  split; [exact Ha|]. split; [exact Hk|]. split; [exact Hid|].
  split; [exact (Hskip array Ha Hid)|].
  exact (Hleft array initial_store Ha Hk Hid).
Defined.

(** ** C9, C5: the fusion engine *)

Section Fusion.
Context `{Collaborators}.
Variable P : Event -> Prop.
Hypothesis P_ordinary : forall ev, ordinary ev = true -> P ev.

Lemma fuse_candidates_appends (partial : bool) (i : nat) (sd : SDFG)
    (applied : nat) (map_entries : list nid) :
  appends partial P (fuse_candidates i sd applied map_entries).
Proof.
  unfold fuse_candidates.
  destruct (1 <? length map_entries)%nat; [|apply appends_ret].
  apply appends_bind; [apply appends_get_defaults|]. intros d.
  apply appends_bind; [by apply appends_log, P_ordinary|]. intros _.
  apply appends_bind; [apply appends_lift|]. intros r.
  apply appends_bind; [by apply appends_log, P_ordinary|]. intros _.
  apply appends_bind; [|intros _; apply appends_ret].
  destruct (validate_sdfg _); [apply appends_ret|apply appends_raise].
Qed.

Lemma global_entry_of_appends (partial : bool) (cf : option nid)
    (map_entries : list nid) :
  appends partial P (global_entry_of cf map_entries).
Proof.
  unfold global_entry_of. destruct cf; [apply appends_ret|].
  destruct map_entries; [apply appends_raise|apply appends_ret].
Qed.

Variable self : GreedyFuse.
Variables (validate_all : bool) (device : DeviceType.t)
          (recursive tile : bool).

Let caller : FuseArgs :=
  {| fa_validate_all := validate_all; fa_device := device;
     fa_recursive := recursive; fa_tile := tile |}.

Hypothesis P_states : P (EvGreedyFuse FromStates caller caller).
Hypothesis P_nested : P (EvGreedyFuse FromNestedSDFG caller caller).
Hypothesis P_scope :
  P (EvGreedyFuse FromScopeBody caller
       {| fa_validate_all := validate_all; fa_device := DeviceType.CPU;
          fa_recursive := true; fa_tile := false |}).
Hypothesis P_validate : validate_all = true -> forall i, P (EvValidateGraph i).
Hypothesis self_same : forall sd view,
  appends true P (self sd view validate_all device recursive tile).
Hypothesis self_scope : forall sd view,
  appends true P (self sd view validate_all DeviceType.CPU true false).

Lemma fuse_loop_appends (i : nat) (acc : SDFG * nat)
    (map_entries : list nid) :
  appends true P (fuse_loop self caller i validate_all recursive acc
                            map_entries).
Proof.
  unfold fuse_loop.
  apply appends_bind; [apply fuse_candidates_appends|]. intros f.
  destruct recursive; [|apply appends_ret].
  apply appends_bind; [apply global_entry_of_appends|]. intros g.
  apply appends_bind; [|intros sd2; apply appends_ret].
  unfold call. apply appends_bind; [by apply appends_log|]. intros _.
  apply self_scope.
Qed.

Lemma fuse_nested_appends (i : nat) (sd : SDFG) (node : nid) :
  appends true P (fuse_nested self caller i validate_all device recursive
                              tile sd node).
Proof.
  unfold fuse_nested.
  destruct (lookup_node _ node) as [[| | | |inner|]|]; try apply appends_ret.
  apply appends_bind; [|intros sd2; apply appends_ret].
  unfold call. apply appends_bind; [by apply appends_log|]. intros _.
  apply self_same.
Qed.

Lemma finish_pass_appends (i : nat) (applied : nat) (sd : SDFG) :
  appends true P (finish_pass i validate_all tile applied sd).
Proof.
  unfold finish_pass. apply appends_bind.
  { destruct (0 <? applied)%nat; [|apply appends_ret].
    destruct tile; by apply appends_log, P_ordinary. }
  intros _. apply appends_bind; [|intros _; apply appends_ret].
  destruct validate_all eqn:Hv; [|apply appends_ret].
  apply appends_bind; [by apply appends_log, P_validate|]. intros _.
  destruct (validate_state _ _); [apply appends_ret|apply appends_raise].
Qed.

Lemma fuse_in_graph_appends (sdfg : SDFG) (i : nat)
    (sub : option (list nid)) :
  appends true P (fuse_in_graph self sdfg i sub validate_all device
                                recursive tile).
Proof.
  unfold fuse_in_graph. apply appends_bind.
  { destruct sub; [apply appends_ret|].
    apply appends_bind; [by apply appends_log, P_ordinary|]. intros _.
    apply appends_lift. }
  intros sd0. apply appends_bind; [apply appends_get_defaults|]. intros d.
  apply appends_bind; [apply appends_set_defaults|]. intros _.
  apply appends_bind.
  { apply appends_foldM. intros acc x _. apply fuse_loop_appends. }
  intros r. apply appends_bind.
  { apply appends_foldM. intros acc x _. apply fuse_nested_appends. }
  intros sd3. apply finish_pass_appends.
Qed.

Lemma fuse_in_sdfg_appends (sdfg : SDFG) :
  appends true P (fuse_in_sdfg self sdfg validate_all device recursive tile).
Proof.
  unfold fuse_in_sdfg.
  apply appends_bind; [by apply appends_log, P_ordinary|]. intros _.
  apply appends_bind; [apply appends_lift|]. intros sd0.
  apply appends_bind; [by apply appends_log, P_ordinary|]. intros _.
  apply appends_bind; [apply appends_lift|]. intros sd1.
  apply appends_foldM. intros sd graph _.
  unfold call. apply appends_bind; [by apply appends_log|]. intros _.
  apply self_same.
Qed.

Lemma greedy_fuse_body_appends (sdfg : SDFG) (view : GraphView) :
  appends true P (greedy_fuse_body self sdfg view validate_all device
                                   recursive tile).
Proof.
  destruct view as [|i|i ns|sts].
  - apply fuse_in_sdfg_appends.
  - apply (fuse_in_graph_appends sdfg i None).
  - apply (fuse_in_graph_appends sdfg i (Some ns)).
  - apply appends_raise.
Qed.

End Fusion.


Lemma not_end_validation_ordinary (ev : Event) :
  ordinary ev = true -> not_end_validation ev.
Proof. destruct ev; try done; by intros _ i. Qed.

(** A run in tile mode for the GPU: the call into the scope body goes out
    with the CPU, without tiling. *)
Example greedy_fuse_descent_example :
  trace <$> outcome_store
    (@greedy_fuse Demo.collaborators 5 Demo.two_maps (ViewState 0) false
                  DeviceType.GPU true true initial_store)
  = Some [EvMapFusion false;
          EvCompositeFusion 0 [0%nat; 4%nat]
            {| allow_tiling := true;
               schedule_innermaps := ScheduleType.Sequential;
               stencil_unroll_loops := true |};
          EvValidateSDFG;
          EvGreedyFuse FromScopeBody
            {| fa_validate_all := false; fa_device := DeviceType.GPU;
               fa_recursive := true; fa_tile := true |}
            {| fa_validate_all := false; fa_device := DeviceType.CPU;
               fa_recursive := true; fa_tile := false |};
          EvPrint (AppliedTileFusion 1)].
Proof. vm_compute. reflexivity. Qed.

Lemma bind_Done_inv {A B} (c : M A) (f : A -> M B) (s s' : Store) (b : B) :
  (c ≫= f) s = Done b s' ->
  exists a s1, c s = Done a s1 /\ f a s1 = Done b s'.
Proof.
  unfold mbind, M_bind. destruct (c s) as [a s1| |]; [|done|done].
  intros Hf. by exists a, s1.
Qed.

(** *** The descents that are made *)






Section Descent.
Context `{Collaborators}.
Variable self : GreedyFuse.
Hypothesis self_appends : forall sd view validate_all device recursive tile,
  appends true (fun _ => True)
          (self sd view validate_all device recursive tile).
Variables (validate_all : bool) (device : DeviceType.t)
          (recursive tile : bool) (i : nat).

Let caller : FuseArgs :=
  {| fa_validate_all := validate_all; fa_device := device;
     fa_recursive := recursive; fa_tile := tile |}.
Let into_scope : FuseArgs :=
  {| fa_validate_all := validate_all; fa_device := DeviceType.CPU;
     fa_recursive := true; fa_tile := false |}.









End Descent.



(** A run in tile mode for the GPU on a region with two maps and a nested
    SDFG: the descent into the body of the fused scope goes out with the
    CPU and without tiling, the descent into the nested SDFG with the
    GPU and tiling, and so do the calls made in there. *)
Example greedy_fuse_nested_descent_example :
  let gpu_tile := {| fa_validate_all := false; fa_device := DeviceType.GPU;
                     fa_recursive := true; fa_tile := true |} in
  let into_scope := {| fa_validate_all := false; fa_device := DeviceType.CPU;
                       fa_recursive := true; fa_tile := false |} in
  let fused := EvCompositeFusion 0 [0%nat; 4%nat]
                 {| allow_tiling := true;
                    schedule_innermaps := ScheduleType.Sequential;
                    stencil_unroll_loops := true |} in
  candidate_sets (H:=Demo.collaborators) Demo.nested_maps 0 None false true
  = [[0%nat; 4%nat]]
  /\ nested_sdfg_nodes Demo.nested_maps 0 None = [7%nat]
  /\ trace <$> outcome_store
        (@greedy_fuse Demo.collaborators 5 Demo.nested_maps (ViewState 0)
                      false DeviceType.GPU true true initial_store)
     = Some [EvMapFusion false;
             fused;
             EvValidateSDFG;
             EvGreedyFuse FromScopeBody gpu_tile into_scope;
             EvGreedyFuse FromNestedSDFG gpu_tile gpu_tile;
             EvStrictTransformations false;
             EvMapFusion false;
             EvGreedyFuse FromStates gpu_tile gpu_tile;
             EvMapFusion false;
             fused;
             EvValidateSDFG;
             EvGreedyFuse FromScopeBody gpu_tile into_scope;
             EvPrint (AppliedTileFusion 1);
             EvPrint (AppliedTileFusion 1)].
Proof. vm_compute. repeat split; reflexivity. Qed.

Lemma ends_with_bind {A B} (ev : Event) (c : M A) (f : A -> M B) :
  (forall a, ends_with ev (f a)) -> ends_with ev (c ≫= f).
Proof.
  intros Hf s b s' Hrun.
  apply bind_Done_inv in Hrun as (a & s1 & _ & Hrun). by eapply Hf.
Qed.

Lemma finish_pass_ends_with `{Collaborators} (i : nat) (tile : bool)
    (applied : nat) (sd : SDFG) :
  ends_with (EvValidateGraph i) (finish_pass i true tile applied sd).
Proof.
  unfold finish_pass. apply ends_with_bind. intros _.
  intros s a s' Hrun.
  apply bind_Done_inv in Hrun as ([] & s1 & Hrun & Hret).
  injection Hret as _ <-.
  apply bind_Done_inv in Hrun as ([] & s2 & Hlog & Hval).
  injection Hlog as <-.
  destruct (validate_state sd i); [|done]. injection Hval as <-.
  cbn. apply last_snoc.
Qed.

Lemma fuse_in_graph_ends_with `{Collaborators} (self : GreedyFuse)
    (sdfg : SDFG) (i : nat) (sub : option (list nid))
    (device : DeviceType.t) (recursive tile : bool) :
  ends_with (EvValidateGraph i)
            (fuse_in_graph self sdfg i sub true device recursive tile).
Proof.
  unfold fuse_in_graph.
  apply ends_with_bind. intros sd0.
  apply ends_with_bind. intros d.
  apply ends_with_bind. intros _.
  apply ends_with_bind. intros r.
  apply ends_with_bind. intros sd3.
  apply finish_pass_ends_with.
Qed.

(** C5, amended. The validation that ends a pass over a region depends on
    validate_all alone: with validate_all unset no pass, however deep,
    validates its region at the end, also when fusions were applied; with
    validate_all set a pass that returns has validated its region as the
    last thing it did, also when no fusion was applied. *)
Theorem greedy_fuse_end_validation `{Collaborators} (fuel : nat)
    (sdfg : SDFG) (view : GraphView) (device : DeviceType.t)
    (recursive tile : bool) :
  appends true not_end_validation
          (greedy_fuse fuel sdfg view false device recursive tile)
  /\ (forall i s sd s',
         region_of view = Some i ->
         greedy_fuse fuel sdfg view true device recursive tile s
         = Done sd s' ->
         last (trace s') = Some (EvValidateGraph i)).
Proof.
  split.
  - revert sdfg view device recursive tile.
    induction fuel as [|fuel IH]; intros sdfg view device recursive tile.
    + apply appends_out_of_fuel.
    + apply greedy_fuse_body_appends.
      * apply not_end_validation_ordinary.
      * by intros i.
      * by intros i.
      * by intros i.
      * done.
      * intros sd v. apply IH.
      * intros sd v. apply IH.
  - intros i s sd s' Hview Hrun. destruct fuel as [|fuel]; [done|].
    destruct view as [|j|j ns|sts]; try done; injection Hview as ->.
    + by eapply (fuse_in_graph_ends_with _ sdfg i None).
    + by eapply (fuse_in_graph_ends_with _ sdfg i (Some ns)).
Qed.

Lemma greedy_fuse_end_validation_witness :
  let sdfg := Demo.program ["i"] [Integer 4] None in
  let s' := add_events [EvMapFusion true; EvValidateGraph 0] initial_store in
  region_of (ViewState 0) = Some 0%nat
  /\ @greedy_fuse Demo.collaborators 5 sdfg (ViewState 0) true DeviceType.CPU
                  false false initial_store = Done sdfg s'
  /\ last (trace s') = Some (EvValidateGraph 0).
Proof.
  intros sdfg s'.
  assert (Hview : region_of (ViewState 0) = Some 0%nat) by reflexivity.
  assert (Hrun : @greedy_fuse Demo.collaborators 5 sdfg (ViewState 0) true
                   DeviceType.CPU false false initial_store = Done sdfg s')
    by (vm_compute; reflexivity).
  split; [exact Hview|]. split; [exact Hrun|].
  exact (proj2 (@greedy_fuse_end_validation Demo.collaborators 5 sdfg
                  (ViewState 0) DeviceType.CPU false false)
               0%nat initial_store sdfg s' Hview Hrun).
Defined.

(** C5 as the specification states it fails with validate_all unset: the
    SDFG is
    validated right after the fusion, and the pass, which applied one
    fusion, ends without validating the region. *)
Lemma greedy_fuse_unset_validation :
  trace <$> outcome_store
    (@greedy_fuse Demo.collaborators 5 Demo.two_maps (ViewState 0) false
                  DeviceType.CPU false false initial_store)
  = Some [EvMapFusion false;
          EvCompositeFusion 0 [0%nat; 4%nat]
            {| allow_tiling := false;
               schedule_innermaps := ScheduleType.Default;
               stencil_unroll_loops := false |};
          EvValidateSDFG;
          EvPrint (AppliedSubgraphFusion 1)].
Proof. vm_compute. reflexivity. Qed.

(** ** The reclassifier and the selector on a nested program *)

Example move_small_arrays_to_stack_example :
  let storage_of (sd : SDFG) :=
    (fun p : string * Data.t => (fst p, Data.storage (snd p))) <$> arrays sd in
  match move_small_arrays_to_stack (Demo.config 128) Demo.nested_program
                                   initial_store with
  | Done sd s =>
      storage_of sd = [("A", StorageType.Register);
                       ("B", StorageType.Default);
                       ("S", StorageType.Default);
                       ("N", StorageType.Default)]
      /\ trace s = [EvPrint (StaticallyAllocating 2)]
  | _ => False
  end.
Proof. vm_compute. split; reflexivity. Qed.

Example set_fast_implementations_example :
  match @set_fast_implementations Demo.collaborators 3
          {| IntelMKL_is_installed := false; OpenBLAS_is_installed := true |}
          Demo.nested_program DeviceType.CPU (Some []) [] initial_store with
  | Done sd s =>
      LibraryNode.implementation <$> library_nodes sd
      = [Some "OpenBLAS"; None]
      /\ trace s = [EvWarn "odd"]
  | _ => False
  end.
Proof. vm_compute. split; reflexivity. Qed.

(** * Further properties *)

(** ** The implementation selector *)

Lemma select_fast_selected (prio ign : list string) (sd : SDFG) :
  Forall2 (assigned prio ign) (library_nodes sd)
          (library_nodes (fst (select_fast prio ign sd)))
  /\ snd (select_fast prio ign sd) = warned prio ign (library_nodes sd).
Proof.
  apply select_in_sdfg_spec.
  apply (all_nodes_of_sdfg (selected prio ign (select_in_node prio ign))).
  apply select_in_node_spec.
Qed.

Lemma pure_in_find_fast_library (env : Environments) (device : DeviceType.t) :
  "pure" ∈ find_fast_library env device.
Proof.
  destruct device; cbn; [|repeat constructor..].
  apply elem_of_app. right. constructor.
Qed.

Lemma elem_of_implementation_prio (env : Environments)
    (device : DeviceType.t) (blocklist : option (list string)) (x : string) :
  x ∈ implementation_prio env device blocklist
  <-> x ∈ find_fast_library env device
      /\ forall bl, blocklist = Some bl -> x ∉ bl.
Proof.
  destruct blocklist as [bl|]; cbn.
  - rewrite list_elem_of_filter, negb_true_iff, name_in_false.
    split.
    + intros [Hx Hin]. split; [done|]. by intros ? [= <-].
    + intros [Hin Hx]. split; [by apply Hx|done].
  - split; [|by intros [? _]]. intros Hx. split; [done|]. by intros.
Qed.

Lemma assigned_unsupported (prio ign : list string) (l : LibraryNode.t)
    (impl : string) :
  impl ∈ prio -> impl ∈ LibraryNode.implementations l ->
  unsupported prio ign l = false.
Proof.
  intros Hp Hi. unfold unsupported. apply andb_false_iff. right.
  apply not_true_iff_false. intros Hall.
  rewrite forallb_forall in Hall.
  specialize (Hall impl (proj1 (list_elem_of_In _ _) Hp)).
  apply negb_true_iff, name_in_false in Hall. done.
Qed.

Lemma warned_none (prio ign : list string) (ls : list LibraryNode.t) :
  Forall (fun l => unsupported prio ign l = false) ls ->
  warned prio ign ls = [].
Proof.
  induction 1 as [|l ls Hl _ IH]; [done|].
  unfold warned in *. rewrite filter_cons. case_decide as Hu; [|done].
  by rewrite Hl in Hu.
Qed.

(** X1. Every preference list ends in "pure" unless the blocklist takes it
    out.  So a library node that is not ignored and supports "pure" always
    gets an implementation of the list that it supports, and when every
    node is ignored or supports "pure" the pass warns about none. *)
Theorem pure_is_never_missing (env : Environments) (device : DeviceType.t)
    (blocklist : option (list string)) (ign : list string) (sdfg : SDFG) :
  (forall bl, blocklist = Some bl -> "pure" ∉ bl) ->
  let prio := implementation_prio env device blocklist in
  Forall2 (fun l l' =>
             name_in (LibraryNode.type l) ign = false ->
             "pure" ∈ LibraryNode.implementations l ->
             exists impl,
               impl ∈ prio /\ impl ∈ LibraryNode.implementations l
               /\ l' = LibraryNode.set_implementation impl l)
          (library_nodes sdfg)
          (library_nodes (fst (select_fast prio ign sdfg)))
  /\ (Forall (fun l => name_in (LibraryNode.type l) ign = true
                       \/ "pure" ∈ LibraryNode.implementations l)
             (library_nodes sdfg) ->
      snd (select_fast prio ign sdfg) = []).
Proof.
  intros Hbl prio.
  assert (Hpure : "pure" ∈ prio).
  { apply elem_of_implementation_prio. split; [|done].
    apply pure_in_find_fast_library. }
  destruct (select_fast_selected prio ign sdfg) as [H1 H2]. split.
  - eapply Forall2_impl; [exact H1|]. intros l l' Ha Hign Hl.
    unfold assigned in Ha. rewrite Hign in Ha.
    destruct Ha as [(pre & impl & post & Hp & Hi & _ & ->)|[Hno _]].
    + exists impl. split; [|done]. rewrite Hp. set_solver.
    + by destruct (Hno "pure" Hpure).
  - intros Hall. rewrite H2. apply warned_none.
    eapply Forall_impl; [exact Hall|]. intros l [Hl|Hl].
    + unfold unsupported. by rewrite Hl.
    + by apply (assigned_unsupported prio ign l "pure").
Qed.

Lemma pure_is_never_missing_witness :
  let env := {| IntelMKL_is_installed := true;
                OpenBLAS_is_installed := false |} in
  let prio := implementation_prio env DeviceType.CPU (Some ["MKL"]) in
  (forall bl, Some ["MKL"] = Some bl -> "pure" ∉ bl)
  /\ Forall2 (fun l l' =>
                name_in (LibraryNode.type l) [] = false ->
                "pure" ∈ LibraryNode.implementations l ->
                exists impl,
                  impl ∈ prio /\ impl ∈ LibraryNode.implementations l
                  /\ l' = LibraryNode.set_implementation impl l)
             (library_nodes Demo.nested_program)
             (library_nodes (fst (select_fast prio [] Demo.nested_program))).
Proof.
  intros env prio.
  assert (Hbl : forall bl, Some ["MKL"] = Some bl -> "pure" ∉ bl).
  { intros bl [= <-] Hin. by apply list_elem_of_singleton in Hin. }
  split; [exact Hbl|].
  exact (proj1 (pure_is_never_missing env DeviceType.CPU (Some ["MKL"]) []
                  Demo.nested_program Hbl)).
Defined.

(** X2. With a blocklist, the pass never gives a library node an
    implementation of the blocklist: a node keeps what it had, or gets an
    implementation that it supports, that is in the list of the device and
    that is not blocklisted.  The empty blocklist (the default) is the
    same as none. *)
Theorem blocklisted_is_never_assigned (env : Environments)
    (device : DeviceType.t) (bl ign : list string) (sdfg : SDFG) :
  Forall2 (fun l l' =>
             l' = l
             \/ (exists impl,
                    l' = LibraryNode.set_implementation impl l
                    /\ impl ∈ find_fast_library env device
                    /\ (impl ∉ bl)
                    /\ impl ∈ LibraryNode.implementations l))
          (library_nodes sdfg)
          (library_nodes
             (fst (select_fast (implementation_prio env device (Some bl))
                               ign sdfg)))
  /\ implementation_prio env device (Some [])
     = implementation_prio env device None.
Proof.
  split.
  - destruct (select_fast_selected
                (implementation_prio env device (Some bl)) ign sdfg)
      as [H1 _].
    eapply Forall2_impl; [exact H1|]. intros l l' Ha.
    unfold assigned in Ha.
    destruct (name_in (LibraryNode.type l) ign); [by left|].
    destruct Ha as [(pre & impl & post & Hp & Hi & _ & ->)|[_ ->]];
      [|by left].
    right. exists impl.
    assert (Hin : impl ∈ implementation_prio env device (Some bl)).
    { rewrite Hp. apply elem_of_app. right. by apply elem_of_cons; left. }
    apply elem_of_implementation_prio in Hin as [Hf Hb].
    repeat split; [done| |done]. by apply Hb.
  - cbn. induction (find_fast_library env device) as [|x l IH]; [done|].
    rewrite filter_cons. cbn. by rewrite IH.
Qed.

(** ** Running the second pass again *)

Lemma select_implementation_idemp (prio ign : list string) (n : Node) :
  select_implementation prio ign (fst (select_implementation prio ign n))
  = select_implementation prio ign n.
Proof.
  destruct n as [| | | | |l]; try done.
  unfold select_implementation at 2 3.
  destruct (name_in (LibraryNode.type l) ign) eqn:Hign; cbn [negb fst].
  { unfold select_implementation. by rewrite Hign. }
  destruct (find _ prio) as [impl|] eqn:Hf; cbn [fst];
    unfold select_implementation.
  - change (LibraryNode.type (LibraryNode.set_implementation impl l))
      with (LibraryNode.type l).
    change (LibraryNode.implementations
              (LibraryNode.set_implementation impl l))
      with (LibraryNode.implementations l).
    by rewrite Hign, Hf.
  - by rewrite Hign, Hf.
Qed.

Lemma map_nodes_compose (f g : Node -> Node) (sd : SDFG) :
  map_nodes f (map_nodes g sd) = map_nodes (fun n => f (g n)) sd.
Proof.
  unfold map_nodes. cbn. f_equal.
  rewrite <- list_fmap_compose. apply list_fmap_ext. intros _ st _. cbn.
  f_equal. rewrite <- list_fmap_compose. by apply list_fmap_ext.
Qed.

Lemma map_nodes_ext (f g : Node -> Node) (sd : SDFG) :
  Forall (fun st : SDFGState =>
            Forall (fun p => f (snd p) = g (snd p)) (nodes st))
         (states sd) ->
  map_nodes f sd = map_nodes g sd.
Proof.
  intros Hfg. unfold map_nodes. f_equal. apply Forall_fmap_ext_1.
  eapply Forall_impl; [exact Hfg|]. intros st Hst. cbn in *. f_equal.
  apply Forall_fmap_ext_1. eapply Forall_impl; [exact Hst|].
  intros p Hp. cbn in *. by rewrite Hp.
Qed.

(** What the walk of the second pass returns: the program with the nodes
    replaced, and the warnings in the order of the walk. *)
Lemma select_in_sdfg_eq (rec : Node -> Node * list string) (sd : SDFG) :
  select_in_sdfg rec sd
  = (map_nodes (fun n => fst (rec n)) sd,
     concat ((fun st : SDFGState =>
                concat ((fun p : nid * Node => snd (rec (snd p)))
                        <$> nodes st))
             <$> states sd)).
Proof.
  unfold select_in_sdfg, map_nodes. rewrite fmap_fst_pair, fmap_snd_pair.
  f_equal.
  - f_equal. apply list_fmap_ext. intros _ st _. cbn.
    by rewrite fmap_fst_pair.
  - f_equal. apply list_fmap_ext. intros _ st _. cbn.
    by rewrite fmap_snd_pair.
Qed.

Lemma select_in_sdfg_idemp (rec : Node -> Node * list string) (sd : SDFG) :
  Forall (fun st : SDFGState =>
            Forall (fun p => rec (fst (rec (snd p))) = rec (snd p))
                   (nodes st))
         (states sd) ->
  select_in_sdfg rec (fst (select_in_sdfg rec sd)) = select_in_sdfg rec sd.
Proof.
  intros Hrec. rewrite !select_in_sdfg_eq. cbn [fst]. f_equal.
  - rewrite map_nodes_compose. apply map_nodes_ext.
    eapply Forall_impl; [exact Hrec|]. intros st Hst. cbn in *.
    eapply Forall_impl; [exact Hst|]. intros p Hp. cbn in *.
    by rewrite Hp.
  - unfold map_nodes. cbn [states]. rewrite <- list_fmap_compose.
    f_equal. apply Forall_fmap_ext_1.
    eapply Forall_impl; [exact Hrec|]. intros st Hst. cbn in *.
    rewrite <- list_fmap_compose. f_equal. apply Forall_fmap_ext_1.
    eapply Forall_impl; [exact Hst|]. intros p Hp. cbn in *.
    by rewrite Hp.
Qed.

Lemma select_in_node_idemp (prio ign : list string) (n : Node) :
  select_in_node prio ign (fst (select_in_node prio ign n))
  = select_in_node prio ign n.
Proof.
  induction n as [| | | |l|sd IH] using Node_nested_ind; try done.
  - change (select_in_node prio ign (LibraryNode l))
      with (select_implementation prio ign (LibraryNode l)).
    pose proof (select_implementation_idemp prio ign (LibraryNode l)) as Hi.
    destruct (select_implementation_spec prio ign l) as (l' & Hl & _).
    rewrite Hl in *. exact Hi.
  - cbn [select_in_node fst]. by rewrite (select_in_sdfg_idemp _ sd IH).
Qed.

(** X3. The second pass is idempotent: run again on its own result, it
    returns that result unchanged and repeats the same warnings. *)
Theorem select_fast_idempotent (prio ign : list string) (sdfg : SDFG) :
  select_fast prio ign (fst (select_fast prio ign sdfg))
  = select_fast prio ign sdfg.
Proof.
  apply select_in_sdfg_idemp.
  apply (all_nodes_of_sdfg
           (fun n => select_in_node prio ign
                       (fst (select_in_node prio ign n))
                     = select_in_node prio ign n)).
  apply select_in_node_idemp.
Qed.

Lemma without_implementation_select (prio ign : list string) (n : Node) :
  without_implementation (fst (select_in_node prio ign n))
  = without_implementation n.
Proof.
  induction n as [| | | |l|sd IH] using Node_nested_ind; try done.
  - cbn. unfold select_implementation.
    destruct (negb _); [|done]. by destruct (find _ prio).
  - cbn [select_in_node fst without_implementation].
    rewrite select_in_sdfg_eq. cbn [fst]. f_equal.
    rewrite map_nodes_compose. by apply map_nodes_ext.
Qed.

(** X4. The second pass changes nothing but the [implementation] of
    library nodes: the arrays, the constants, the states, their edges, the
    nodes and every other attribute of a library node (its name, its type,
    the implementations it supports, its default) are as they were, at
    every depth. *)
Theorem select_fast_only_sets_implementations (prio ign : list string)
    (sdfg : SDFG) :
  without_implementations (fst (select_fast prio ign sdfg))
  = without_implementations sdfg.
Proof.
  unfold select_fast, without_implementations.
  rewrite select_in_sdfg_eq. cbn [fst]. rewrite map_nodes_compose.
  apply map_nodes_ext.
  apply (all_nodes_of_sdfg
           (fun n => without_implementation (fst (select_in_node prio ign n))
                     = without_implementation n)).
  apply without_implementation_select.
Qed.

(** ** The first pass when no node asks to be specialized *)

Lemma lookup_node_Forall (P : Node -> Prop) (st : SDFGState) (n : nid)
    (node : Node) :
  Forall (fun p => P (snd p)) (nodes st) ->
  lookup_node st n = Some node -> P node.
Proof.
  intros Hall. unfold lookup_node.
  pose proof (find_first (fun p : nat * Node => Nat.eqb (fst p) n)
                         (nodes st)) as Hf.
  destruct (find _ _) as [p|]; [|done].
  destruct Hf as (pre & post & Heq & _). intros [= <-].
  rewrite Heq in Hall. apply Forall_app in Hall as [_ Hall].
  by apply Forall_cons in Hall as [Hp _].
Qed.

Lemma library_nodes_Forall (Q : LibraryNode.t -> Prop) (sd : SDFG) :
  Forall Q (library_nodes_sdfg library_nodes_node sd)
  <-> Forall (fun st : SDFGState =>
                Forall (fun p => Forall Q (library_nodes_node (snd p)))
                       (nodes st))
             (states sd).
Proof.
  unfold library_nodes_sdfg. rewrite Forall_concat, Forall_fmap.
  apply Forall_iff. intros st. cbn.
  by rewrite Forall_concat, Forall_fmap.
Qed.

Lemma pre_expand_node_calm `{Collaborators} (prio : list string) (i : nat)
    (sd : SDFG) (st : SDFGState) (p : nid * Node) (s : Store) :
  state_at sd i = Some st ->
  Forall (fun q =>
            Forall (fun l => asks_expansion prio l = false)
                   (library_nodes_node (snd q)))
         (nodes st) ->
  Forall (fun l => asks_expansion prio l = false)
         (library_nodes_node (snd p)) ->
  pre_expand_node prio i sd p s = Done sd s.
Proof.
  intros Hst Hall Hp. unfold pre_expand_node. rewrite Hst.
  unfold node_now.
  assert (Hnode : Forall (fun l => asks_expansion prio l = false)
                         (library_nodes_node
                            (default (snd p) (lookup_node st (fst p))))).
  { destruct (lookup_node st (fst p)) as [node|] eqn:Hl; [|exact Hp].
    exact (lookup_node_Forall
             (fun n => Forall (fun l => asks_expansion prio l = false)
                              (library_nodes_node n))
             st _ _ Hall Hl). }
  destruct (default (snd p) (lookup_node st (fst p))) as [| | | | |l];
    try done.
  apply Forall_cons in Hnode as [Hl _]. unfold asks_expansion in Hl.
  by rewrite Hl.
Qed.

Lemma pre_expand_sdfg_calm `{Collaborators} (prio : list string) (sd : SDFG)
    (s : Store) :
  Forall (fun l => asks_expansion prio l = false) (library_nodes sd) ->
  pre_expand_sdfg prio sd s = Done sd s.
Proof.
  intros Hall. apply library_nodes_Forall in Hall.
  unfold pre_expand_sdfg. apply foldM_unchanged.
  apply Forall_forall. intros i _.
  destruct (state_at sd i) as [st|] eqn:Hst; [|done].
  assert (Hnodes := Forall_lookup_1 _ _ _ _ Hall Hst). cbn in Hnodes.
  apply foldM_unchanged.
  apply Forall_forall. intros p Hp.
  apply (pre_expand_node_calm prio i sd st p s Hst Hnodes).
  by apply (proj1 (Forall_forall _ _) Hnodes).
Qed.

Lemma for_nested_sdfgs_unchanged (f : SDFG -> M SDFG) (sd : SDFG)
    (s : Store) :
  Forall (fun st : SDFGState =>
            Forall (fun p : nid * Node =>
                      forall inner, snd p = NestedSDFG inner ->
                                    f inner s = Done inner s)
                   (nodes st))
         (states sd) ->
  for_nested_sdfgs f sd s = Done sd s.
Proof.
  intros Hall. unfold for_nested_sdfgs.
  set (inner_body := fun (acc' : list (nid * Node)) (p : nid * Node) =>
                       match snd p with
                       | NestedSDFG inner =>
                           inner' ← f inner;
                           mret (acc' ++ [(fst p, NestedSDFG inner')])%list
                       | _ => mret (acc' ++ [p])%list
                       end).
  assert (Hin : forall l acc,
             Forall (fun p : nid * Node =>
                       forall inner, snd p = NestedSDFG inner ->
                                     f inner s = Done inner s) l ->
             foldM inner_body acc l s = Done (acc ++ l)%list s).
  { induction l as [|p l IH]; intros acc Hl.
    - by rewrite app_nil_r.
    - apply Forall_cons in Hl as [Hp Hl]. rewrite foldM_cons.
      assert (Hbody : inner_body acc p s = Done (acc ++ [p])%list s).
      { unfold inner_body. destruct p as [n node]. cbn in *.
        destruct node; try done.
        by rewrite (bind_Done _ _ _ _ _ (Hp _ eq_refl)). }
      rewrite (bind_Done _ _ _ _ _ Hbody), IH by done.
      by rewrite <- app_assoc. }
  set (outer_body := fun (acc : list SDFGState) (st : SDFGState) =>
                       nds ← foldM inner_body [] (nodes st);
                       mret (acc ++ [{| nodes := nds; edges := edges st |}])%list).
  assert (Hout : forall l acc,
             Forall (fun st : SDFGState =>
                       Forall (fun p : nid * Node =>
                                 forall inner, snd p = NestedSDFG inner ->
                                               f inner s = Done inner s)
                              (nodes st)) l ->
             foldM outer_body acc l s = Done (acc ++ l)%list s).
  { induction l as [|st l IH]; intros acc Hl.
    - by rewrite app_nil_r.
    - apply Forall_cons in Hl as [Hst Hl]. rewrite foldM_cons.
      assert (Hbody : outer_body acc st s = Done (acc ++ [st])%list s).
      { unfold outer_body.
        rewrite (bind_Done _ _ _ _ _ (Hin (nodes st) [] Hst)).
        by destruct st. }
      rewrite (bind_Done _ _ _ _ _ Hbody), IH by done.
      by rewrite <- app_assoc. }
  rewrite (bind_Done _ _ _ _ _ (Hout (states sd) [] Hall)).
  by destruct sd.
Qed.

Lemma max_nat_ge (l : list nat) : Forall (fun x => (x <= max_nat l)%nat) l.
Proof.
  induction l as [|x l IH]; constructor.
  - change (max_nat (x :: l)) with (Nat.max x (max_nat l)). lia.
  - eapply Forall_impl; [exact IH|]. intros y Hy.
    change (max_nat (x :: l)) with (Nat.max x (max_nat l)). cbn in Hy. lia.
Qed.

Lemma pre_expand_calm `{Collaborators} (prio : list string) (fuel : nat) :
  forall (sd : SDFG) (s : Store),
    Forall (fun l => asks_expansion prio l = false) (library_nodes sd) ->
    (nesting_depth sd <= fuel)%nat ->
    pre_expand fuel prio sd s = Done sd s.
Proof.
  induction fuel as [|fuel IH]; intros sd s Hall Hdepth.
  { unfold nesting_depth, depth_sdfg in Hdepth. lia. }
  cbn [pre_expand].
  rewrite (bind_Done _ _ _ _ _ (pre_expand_sdfg_calm prio sd s Hall)).
  apply for_nested_sdfgs_unchanged.
  apply library_nodes_Forall in Hall.
  unfold nesting_depth, depth_sdfg in Hdepth.
  apply Forall_forall. intros st Hst.
  pose proof (proj1 (Forall_forall _ _) Hall st Hst) as Hnodes.
  cbn in Hnodes.
  pose proof (proj1 (Forall_forall _ _)
                (max_nat_ge
                   ((fun st : SDFGState =>
                       max_nat ((fun p : nid * Node => depth_node (snd p))
                                <$> nodes st))
                    <$> states sd))
                _ (list_elem_of_fmap_2 _ _ _ Hst)) as Hd1.
  cbn in Hd1.
  apply Forall_forall. intros p Hp inner Hinner.
  pose proof (proj1 (Forall_forall _ _) Hnodes p Hp) as Hlib.
  pose proof (proj1 (Forall_forall _ _)
                (max_nat_ge ((fun p : nid * Node => depth_node (snd p))
                             <$> nodes st))
                _ (list_elem_of_fmap_2 _ _ _ Hp)) as Hd2.
  cbn in Hlib, Hd2. rewrite Hinner in Hlib, Hd2. cbn in Hlib, Hd2.
  apply IH; [exact Hlib|]. unfold nesting_depth. lia.
Qed.

(** X5. When no library node of the program, at any depth, asks to be
    specialized (its default implementation is not 'specialize', or it
    supports an entry of the preference list), the first pass expands
    nothing, and with fuel for the depth of the nesting the whole function
    returns: its result is that of the second pass on the program as it
    was given, and its only events are the warnings. *)
Theorem set_fast_implementations_without_expansion `{Collaborators}
    (fuel : nat) (env : Environments) (sdfg : SDFG) (device : DeviceType.t)
    (blocklist : option (list string)) (ign : list string) (s : Store) :
  let prio := implementation_prio env device blocklist in
  Forall (fun l => asks_expansion prio l = false) (library_nodes sdfg) ->
  (nesting_depth sdfg <= fuel)%nat ->
  set_fast_implementations fuel env sdfg device blocklist ign s
  = Done (fst (select_fast prio ign sdfg))
         (add_events (EvWarn <$> snd (select_fast prio ign sdfg)) s).
Proof.
  intros prio Hall Hdepth. unfold set_fast_implementations.
  fold prio.
  rewrite (bind_Done _ _ _ _ _ (pre_expand_calm prio fuel sdfg s Hall Hdepth)).
  unfold mbind, M_bind. by rewrite foldM_log_warn.
Qed.

Lemma set_fast_implementations_without_expansion_witness :
  let env := {| IntelMKL_is_installed := true;
                OpenBLAS_is_installed := false |} in
  let prio := implementation_prio env DeviceType.CPU None in
  Forall (fun l => asks_expansion prio l = false)
         (library_nodes Demo.nested_program)
  /\ (nesting_depth Demo.nested_program <= 2)%nat
  /\ @set_fast_implementations Demo.collaborators 2 env Demo.nested_program
       DeviceType.CPU None [] initial_store
     = Done (fst (select_fast prio [] Demo.nested_program))
            (add_events
               (EvWarn <$> snd (select_fast prio [] Demo.nested_program))
               initial_store).
Proof.
  intros env prio.
  assert (Hall : Forall (fun l => asks_expansion prio l = false)
                        (library_nodes Demo.nested_program)).
  { repeat constructor. }
  assert (Hdepth : (nesting_depth Demo.nested_program <= 2)%nat).
  { vm_compute. lia. }
  split; [exact Hall|]. split; [exact Hdepth|].
  exact (@set_fast_implementations_without_expansion Demo.collaborators 2
           env Demo.nested_program DeviceType.CPU None [] initial_store
           Hall Hdepth).
Defined.

(** ** The storage reclassifier, run again *)

Lemma move_small_arrays_to_stack_run (cfg : Config) (sdfg : SDFG)
    (s : Store) :
  move_small_arrays_to_stack cfg sdfg s
  = Done (reclassifySmallBuffers (autotile_size cfg) sdfg)
         (if debugprint cfg
             && (0 <? count_small (autotile_size cfg) sdfg)%nat
          then add_events
                 [EvPrint (StaticallyAllocating
                             (count_small (autotile_size cfg) sdfg))] s
          else s).
Proof.
  unfold move_small_arrays_to_stack, reclassifySmallBuffers, count_small.
  unfold mbind, M_bind at 1.
  rewrite (arrays_recursive_to_stack_spec _ _ _
             (reclassify_node (autotile_size cfg))
             (count_small_node (autotile_size cfg))).
  2: { apply (all_nodes_of_sdfg
                (fun n => node_to_stack (autotile_size cfg) n
                          = Ok (reclassify_node (autotile_size cfg) n,
                                count_small_node (autotile_size cfg) n))).
       intros n. apply node_to_stack_spec. }
  cbn.
  set (k := count_small_sdfg _ _ _).
  by destruct (debugprint cfg), k.
Qed.

Lemma small_transient_reclassify (tile_size : Z) (c : gmap string ConstVal)
    (a : Data.t) :
  small_transient tile_size c (reclassify tile_size c a) = false.
Proof.
  unfold reclassify.
  destruct (small_transient tile_size c a) eqn:Hs; [|exact Hs].
  unfold small_transient, Data.set_storage. cbn.
  destruct (Data.kind a); try done; by rewrite andb_false_r.
Qed.

Lemma reclassify_idemp (tile_size : Z) (c : gmap string ConstVal)
    (a : Data.t) :
  reclassify tile_size c (reclassify tile_size c a)
  = reclassify tile_size c a.
Proof.
  unfold reclassify at 1. by rewrite small_transient_reclassify.
Qed.

Lemma sum_nat_zero {A} (f : A -> nat) (l : list A) :
  Forall (fun x => f x = 0%nat) l -> sum_nat (f <$> l) = 0%nat.
Proof.
  induction 1 as [|x l Hx _ IH]; [done|].
  rewrite fmap_cons.
  change (sum_nat (f x :: (f <$> l))) with (f x + sum_nat (f <$> l))%nat.
  by rewrite Hx, IH.
Qed.

Lemma reclassify_sdfg_again (tile_size : Z) (f : Node -> Node)
    (g : Node -> nat) (sd : SDFG) :
  Forall (fun st : SDFGState =>
            Forall (fun p => f (f (snd p)) = f (snd p)
                             /\ g (f (snd p)) = 0%nat)
                   (nodes st))
         (states sd) ->
  reclassify_sdfg f tile_size (reclassify_sdfg f tile_size sd)
  = reclassify_sdfg f tile_size sd
  /\ count_small_sdfg g tile_size (reclassify_sdfg f tile_size sd) = 0%nat.
Proof.
  intros Hall. split.
  - unfold reclassify_sdfg. cbn. f_equal.
    + rewrite <- list_fmap_compose. apply list_fmap_ext. intros _ p _.
      cbn. by rewrite reclassify_idemp.
    + rewrite <- list_fmap_compose. apply Forall_fmap_ext_1.
      eapply Forall_impl; [exact Hall|]. intros st Hst. cbn in *.
      f_equal. rewrite <- list_fmap_compose. apply Forall_fmap_ext_1.
      eapply Forall_impl; [exact Hst|]. intros p [Hp _]. cbn in *.
      by rewrite Hp.
  - unfold count_small_sdfg, reclassify_sdfg. cbn.
    rewrite <- !list_fmap_compose.
    rewrite (sum_nat_zero _ (arrays sd)).
    2: { apply Forall_forall. intros p _. cbn.
         by rewrite small_transient_reclassify. }
    rewrite (sum_nat_zero _ (states sd)); [done|].
    eapply Forall_impl; [exact Hall|]. intros st Hst. cbn in *.
    rewrite <- list_fmap_compose. apply sum_nat_zero.
    eapply Forall_impl; [exact Hst|]. intros p [_ Hp]. exact Hp.
Qed.

Lemma reclassify_node_again (tile_size : Z) (n : Node) :
  reclassify_node tile_size (reclassify_node tile_size n)
  = reclassify_node tile_size n
  /\ count_small_node tile_size (reclassify_node tile_size n) = 0%nat.
Proof.
  induction n as [| | | | |sd IH] using Node_nested_ind; try done.
  destruct (reclassify_sdfg_again tile_size _ _ sd IH) as [H1 H2].
  cbn [reclassify_node count_small_node]. by rewrite H1, H2.
Qed.

(** X6. The reclassifier is idempotent: run again right after itself, it
    finds no buffer left to move, changes nothing and prints nothing, so
    two runs in a row are one run. *)
Theorem move_small_arrays_to_stack_idempotent (cfg : Config) (sdfg : SDFG)
    (s : Store) :
  (sd ← move_small_arrays_to_stack cfg sdfg;
   move_small_arrays_to_stack cfg sd) s
  = move_small_arrays_to_stack cfg sdfg s.
Proof.
  rewrite (bind_Done _ _ _ _ _ (move_small_arrays_to_stack_run cfg sdfg s)).
  rewrite !move_small_arrays_to_stack_run.
  destruct (reclassify_sdfg_again
              (autotile_size cfg)
              (reclassify_node (autotile_size cfg))
              (count_small_node (autotile_size cfg)) sdfg) as [H1 H2].
  { apply (all_nodes_of_sdfg
             (fun n => reclassify_node (autotile_size cfg)
                         (reclassify_node (autotile_size cfg) n)
                       = reclassify_node (autotile_size cfg) n
                       /\ count_small_node (autotile_size cfg)
                            (reclassify_node (autotile_size cfg) n)
                          = 0%nat)).
    apply reclassify_node_again. }
  unfold reclassifySmallBuffers, count_small in *.
  rewrite H1, H2. cbn [Nat.ltb Nat.leb]. by rewrite andb_false_r.
Qed.

(** ** What the tiler does not do *)

Lemma accumulate_edge_under `{Collaborators} (cfg : Config) (prefer : bool)
    (i : nat) (mapexit outer_mapexit : nid) (sdfg : SDFG) (e : Edge.t) :
  appends false (tiler_event_under cfg prefer)
          (accumulate_edge i mapexit outer_mapexit sdfg e).
Proof.
  eapply appends_weaken; [|apply accumulate_edge_appends].
  intros ev. by destruct ev.
Qed.

Lemma tile_and_accumulate_under `{Collaborators} (cfg : Config)
    (prefer : bool) (tile_size : Z) (i : nat) (sdfg : SDFG)
    (mapentry : MapEntryRef) :
  appends false (tiler_event_under cfg prefer)
          (tile_and_accumulate tile_size i sdfg mapentry).
Proof.
  unfold tile_and_accumulate.
  apply appends_bind; [by apply appends_log|]. intros _.
  apply appends_bind; [apply appends_lift|]. intros r.
  apply appends_bind; [apply appends_lift|]. intros mapexit.
  apply appends_bind; [apply appends_lift|]. intros outer_mapexit.
  apply appends_foldM. intros sd e _. apply accumulate_edge_under.
Qed.

Lemma tile_map_under `{Collaborators} (cfg : Config) (prefer : bool)
    (i : nat) (acc : SDFG * list nid) (entry : Edge.t * MapEntryRef) :
  appends false (tiler_event_under cfg prefer) (tile_map cfg i acc entry).
Proof.
  unfold tile_map. destruct (nid_in _ _); [apply appends_ret|].
  apply appends_bind; [|intros sd; apply appends_ret].
  destruct (smaller_than_tile _ _); [|apply tile_and_accumulate_under].
  unfold make_map_sequential.
  apply appends_bind; [|intros _; apply appends_ret].
  destruct (debugprint cfg) eqn:Hd; [by apply appends_log|apply appends_ret].
Qed.

Lemma tile_wcrs_in_state_under `{Collaborators} (cfg : Config)
    (sdfg : SDFG) (i : nat) (sub : option (list nid))
    (prefer : option bool) :
  appends false
          (tiler_event_under cfg
             (default (autotile_partial_parallelism cfg) prefer))
          (tile_wcrs_in_state cfg sdfg i sub prefer).
Proof.
  unfold tile_wcrs_in_state.
  destruct (state_at sdfg i) as [graph|]; [|apply appends_raise].
  apply appends_bind; [apply appends_lift|]. intros edges_to_consider.
  apply appends_bind.
  { assert (Hp : match prefer with
                 | Some b => b
                 | None => autotile_partial_parallelism cfg
                 end = default (autotile_partial_parallelism cfg) prefer)
      by (by destruct prefer).
    rewrite Hp.
    destruct (default _ prefer) eqn:Hpref; [|apply appends_ret].
    apply appends_foldM. intros acc me _.
    unfold extract_parallel_dims.
    destruct (nonconflicted_dims_of _ _); [apply appends_ret|].
    destruct (definitely_lt _ _); [apply appends_ret|].
    apply appends_bind; [by apply appends_log|]. intros _.
    apply appends_bind; [apply appends_lift|]. intros sd.
    apply appends_ret. }
  intros acc. apply appends_bind.
  { apply appends_foldM. intros acc' entry _. apply tile_map_under. }
  intros acc'. apply appends_bind; [|intros _; apply appends_ret].
  destruct (debugprint cfg) eqn:Hd; cbn [andb]; [|apply appends_ret].
  destruct (_ <? _)%nat; [by apply appends_log|apply appends_ret].
Qed.

Lemma tile_wcrs_under `{Collaborators} (cfg : Config) (sdfg : SDFG)
    (view : GraphView) (validate_all : bool) (prefer : option bool) :
  appends false (tiler_event_under cfg (preference_in_effect cfg view prefer))
          (tile_wcrs cfg sdfg view validate_all prefer).
Proof.
  destruct view; cbn [tile_wcrs preference_in_effect];
    try apply tile_wcrs_in_state_under;
    apply appends_foldM; intros sd i _;
    apply (tile_wcrs_in_state_under cfg sd i None None).
Qed.

(** X7. The tiler never validates: whatever validate_all is, no run of
    tile_wcrs calls a validator, and the result does not depend on
    validate_all at all. *)
Theorem tile_wcrs_never_validates `{Collaborators} (cfg : Config)
    (sdfg : SDFG) (view : GraphView) (validate_all : bool)
    (prefer : option bool) :
  appends false
          (fun ev => ev <> EvValidateSDFG /\ forall i, ev <> EvValidateGraph i)
          (tile_wcrs cfg sdfg view validate_all prefer)
  /\ tile_wcrs cfg sdfg view validate_all prefer
     = tile_wcrs cfg sdfg view (negb validate_all) prefer.
Proof.
  split; [|by destruct view].
  eapply appends_weaken; [|apply tile_wcrs_under].
  intros ev. by destruct ev.
Qed.

(** X8. Without debugprint the tiler is silent: it prints neither the
    'Making map ... sequential' nor the 'Optimized ... maps' message, on
    any view and whatever it transforms. *)
Theorem tile_wcrs_silent_without_debugprint `{Collaborators} (cfg : Config)
    (sdfg : SDFG) (view : GraphView) (validate_all : bool)
    (prefer : option bool) :
  debugprint cfg = false ->
  appends false (fun ev => forall msg, ev <> EvPrint msg)
          (tile_wcrs cfg sdfg view validate_all prefer).
Proof.
  intros Hd. eapply appends_weaken; [|apply tile_wcrs_under].
  intros ev. destruct ev; cbn; try done. by rewrite Hd.
Qed.

Lemma tile_wcrs_silent_without_debugprint_witness :
  let cfg := {| autotile_size := 128;
                autotile_partial_parallelism := true;
                debugprint := false |} in
  debugprint cfg = false
  /\ appends false (fun ev => forall msg, ev <> EvPrint msg)
             (@tile_wcrs Demo.collaborators cfg
                (Demo.program ["i"] [Integer 4] (Some Demo.sum_wcr))
                ViewSDFG true None).
Proof.
  intros cfg.
  assert (Hd : debugprint cfg = false) by reflexivity.
  split; [exact Hd|].
  exact (@tile_wcrs_silent_without_debugprint Demo.collaborators cfg
           (Demo.program ["i"] [Integer 4] (Some Demo.sum_wcr))
           ViewSDFG true None Hd).
Defined.

(** X9. Dimensions are extracted only under the preference for partial
    parallelism: when the preference in effect is off (on a state what the
    caller passed or else the configuration, on an SDFG the
    configuration), extract_map_dims is never called. *)
Theorem tile_wcrs_extracts_only_when_preferred `{Collaborators}
    (cfg : Config) (sdfg : SDFG) (view : GraphView) (validate_all : bool)
    (prefer : option bool) :
  preference_in_effect cfg view prefer = false ->
  appends false (fun ev => forall i n dims, ev <> EvExtractMapDims i n dims)
          (tile_wcrs cfg sdfg view validate_all prefer).
Proof.
  intros Hp. eapply appends_weaken; [|apply tile_wcrs_under].
  rewrite Hp. intros ev. by destruct ev.
Qed.

Lemma tile_wcrs_extracts_only_when_preferred_witness :
  let cfg := {| autotile_size := 128;
                autotile_partial_parallelism := true;
                debugprint := false |} in
  preference_in_effect cfg (ViewState 0) (Some false) = false
  /\ appends false
             (fun ev => forall i n dims, ev <> EvExtractMapDims i n dims)
             (@tile_wcrs Demo.collaborators cfg
                (Demo.program ["i"; "k"] [Integer 256; Integer 256]
                              (Some Demo.sum_wcr))
                (ViewState 0) false (Some false)).
Proof.
  intros cfg.
  assert (Hp : preference_in_effect cfg (ViewState 0) (Some false) = false)
    by reflexivity.
  split; [exact Hp|].
  exact (@tile_wcrs_extracts_only_when_preferred Demo.collaborators cfg
           (Demo.program ["i"; "k"] [Integer 256; Integer 256]
                         (Some Demo.sum_wcr))
           (ViewState 0) false (Some false) Hp).
Defined.

(** ** Each map is rewritten at most once *)

Lemma omap_rewritten_none (evs : list Event) :
  Forall (fun ev => rewritten_map ev = None) evs ->
  omap rewritten_map evs = [].
Proof.
  induction 1 as [|ev evs Hev _ IH]; [done|]. cbn. by rewrite Hev, IH.
Qed.

Lemma tile_and_accumulate_rewrites `{Collaborators} (tile_size : Z) (i : nat)
    (sdfg : SDFG) (mapentry : MapEntryRef) (s : Store) :
  match tile_and_accumulate tile_size i sdfg mapentry s with
  | Done _ s' | Raised _ s' =>
      exists evs, trace s' = (trace s ++ evs)%list
                  /\ omap rewritten_map evs = [(i, fst mapentry)]
  | OutOfFuel => False
  end.
Proof.
  assert (Hs : starts_with (EvMapTiling i tile_size (fst mapentry))
                           (fun ev => rewritten_map ev = None)
                           (tile_and_accumulate tile_size i sdfg mapentry) s).
  { unfold tile_and_accumulate. apply starts_with_log_bind.
    apply appends_bind; [apply appends_lift|]. intros r.
    apply appends_bind; [apply appends_lift|]. intros mapexit.
    apply appends_bind; [apply appends_lift|]. intros outer_mapexit.
    apply appends_foldM. intros sd e _.
    eapply appends_weaken; [|apply accumulate_edge_appends].
    intros ev. by destruct ev. }
  unfold starts_with in Hs.
  destruct (tile_and_accumulate _ _ _ _ s) as [a s'|e s'|]; [| |done];
    destruct Hs as (evs & Htr & Hevs);
    exists (EvMapTiling i tile_size (fst mapentry) :: evs);
    (split; [done|]); cbn; by rewrite (omap_rewritten_none _ Hevs).
Qed.

(** Rewrites of maps of state [i] that are not among [transformed], each
    map once. *)
Lemma tile_map_rewrites `{Collaborators} (cfg : Config) (i : nat)
    (acc : SDFG * list nid) (entry : Edge.t * MapEntryRef) (s : Store) :
  match tile_map cfg i acc entry s with
  | Done acc' s' =>
      exists evs, trace s' = (trace s ++ evs)%list
                  /\ (forall n, n ∈ snd acc -> n ∈ snd acc')
                  /\ (omap rewritten_map evs = []
                      \/ (omap rewritten_map evs = [(i, fst (snd entry))]
                          /\ (fst (snd entry) ∉ snd acc)
                          /\ fst (snd entry) ∈ snd acc'))
  | Raised _ s' =>
      exists evs, trace s' = (trace s ++ evs)%list
                  /\ (omap rewritten_map evs = []
                      \/ (omap rewritten_map evs = [(i, fst (snd entry))]
                          /\ fst (snd entry) ∉ snd acc))
  | OutOfFuel => False
  end.
Proof.
  unfold tile_map.
  destruct (nid_in (fst (snd entry)) (snd acc)) eqn:Hin.
  { cbn. exists []. rewrite app_nil_r. split; [done|]. split; [done|].
    by left. }
  apply not_true_iff_false in Hin. rewrite nid_in_spec in Hin.
  unfold mbind, M_bind.
  destruct (smaller_than_tile _ _).
  - unfold make_map_sequential, mbind, M_bind.
    destruct (debugprint cfg); cbn.
    + eexists [_]. split; [done|]. split; [by right|]. by left.
    + exists []. rewrite app_nil_r. split; [done|].
      split; [by right|]. by left.
  - pose proof (tile_and_accumulate_rewrites (autotile_size cfg) i
                  (fst acc) (snd entry) s) as Ht.
    destruct (tile_and_accumulate _ _ _ _ s) as [sd s'|e s'|]; [| |done];
      destruct Ht as (evs & Htr & Hids); exists evs; (split; [done|]).
    + cbn. split; [by right|]. right. split; [done|]. split; [done|].
      by left.
    + by right.
Qed.

Lemma tile_loop_rewrites `{Collaborators} (cfg : Config) (i : nat)
    (l : list (Edge.t * MapEntryRef)) :
  forall (acc : SDFG * list nid) (s : Store),
    match foldM (tile_map cfg i) acc l s with
    | Done _ s' | Raised _ s' =>
        exists evs ns,
          trace s' = (trace s ++ evs)%list
          /\ omap rewritten_map evs = pair i <$> ns
          /\ NoDup ns
          /\ forall n, n ∈ ns -> n ∉ snd acc
    | OutOfFuel => False
    end.
Proof.
  induction l as [|entry l IH]; intros acc s.
  { cbn. exists [], []. rewrite app_nil_r. repeat split; [constructor|].
    by intros n Hn%elem_of_nil. }
  rewrite foldM_cons. unfold mbind, M_bind.
  pose proof (tile_map_rewrites cfg i acc entry s) as H1.
  destruct (tile_map cfg i acc entry s) as [acc1 s1|e s1|]; [| |done].
  - destruct H1 as (evs1 & Htr1 & Hmono & Hids1).
    specialize (IH acc1 s1).
    destruct (foldM _ acc1 l s1) as [acc2 s2|e s2|]; [| |done];
      destruct IH as (evs2 & ns & Htr2 & Hids2 & Hnd & Hfresh);
      (destruct Hids1 as [Hids1|(Hids1 & Hnew & Hin)];
       [ exists (evs1 ++ evs2)%list, ns
       | exists (evs1 ++ evs2)%list, (fst (snd entry) :: ns) ]);
      rewrite omap_app, Hids1, Hids2, Htr2, Htr1, app_assoc;
      (split; [done|]); (split; [done|]).
    all: try (split; [exact Hnd|]; intros n Hn Hacc;
              by apply (Hfresh n Hn), Hmono).
    all: split;
      [ apply NoDup_cons; split; [|exact Hnd];
        intros Hn; by apply (Hfresh _ Hn)
      | intros n [->|Hn]%elem_of_cons; [done|];
        intros Hacc; by apply (Hfresh n Hn), Hmono ].
  - destruct H1 as (evs1 & Htr1 & [Hids1|(Hids1 & Hnew)]).
    + exists evs1, []. rewrite Hids1. repeat split; [done|constructor|].
      by intros n Hn%elem_of_nil.
    + exists evs1, [fst (snd entry)]. rewrite Hids1.
      repeat split; [done|apply NoDup_singleton|].
      by intros n ->%list_elem_of_singleton.
Qed.

Lemma maps_of_NoDup (l : list (Edge.t * MapEntryRef)) :
  NoDup (fst <$> maps_of l).
Proof.
  induction l as [|[e me] l IH]; [constructor|]. cbn [maps_of].
  destruct (nid_in (fst me) (fst <$> maps_of l)) eqn:Hin; [exact IH|].
  rewrite fmap_cons. apply NoDup_cons. split; [|exact IH].
  apply not_true_iff_false in Hin. by rewrite nid_in_spec in Hin.
Qed.

Lemma extract_parallel_dims_rewrites `{Collaborators} (tile_size : Z)
    (i : nat) (edges_to_consider : list (Edge.t * MapEntryRef))
    (acc : SDFG * list nid) (mapentry : MapEntryRef) (s : Store) :
  match extract_parallel_dims tile_size i edges_to_consider acc mapentry s
  with
  | Done acc' s' =>
      exists evs, trace s' = (trace s ++ evs)%list
                  /\ ((omap rewritten_map evs = [] /\ snd acc' = snd acc)
                      \/ (omap rewritten_map evs = [(i, fst mapentry)]
                          /\ snd acc' = fst mapentry :: snd acc))
  | Raised _ s' =>
      exists evs, trace s' = (trace s ++ evs)%list
                  /\ (omap rewritten_map evs = []
                      \/ omap rewritten_map evs = [(i, fst mapentry)])
  | OutOfFuel => False
  end.
Proof.
  unfold extract_parallel_dims.
  destruct (nonconflicted_dims_of _ _).
  { cbn. exists []. rewrite app_nil_r. split; [done|]. by left. }
  destruct (definitely_lt _ _).
  { cbn. exists []. rewrite app_nil_r. split; [done|]. by left. }
  unfold mbind, M_bind, log. cbn [trace].
  destruct (extract_map_dims _ _ _ _) as [sd|e]; cbn;
    eexists [_]; (split; [done|]); by right.
Qed.

Lemma extract_loop_rewrites `{Collaborators} (tile_size : Z) (i : nat)
    (edges_to_consider : list (Edge.t * MapEntryRef))
    (l : list MapEntryRef) :
  forall (acc : SDFG * list nid) (s : Store),
    match foldM (extract_parallel_dims tile_size i edges_to_consider)
                acc l s with
    | Done acc' s' =>
        exists evs ns,
          trace s' = (trace s ++ evs)%list
          /\ omap rewritten_map evs = pair i <$> ns
          /\ ns `sublist_of` (fst <$> l)
          /\ forall n, n ∈ snd acc \/ n ∈ ns -> n ∈ snd acc'
    | Raised _ s' =>
        exists evs ns,
          trace s' = (trace s ++ evs)%list
          /\ omap rewritten_map evs = pair i <$> ns
          /\ ns `sublist_of` (fst <$> l)
    | OutOfFuel => False
    end.
Proof.
  induction l as [|me l IH]; intros acc s.
  { cbn. exists [], []. rewrite app_nil_r. repeat split; [done|].
    intros n [Hn|Hn%elem_of_nil]; done. }
  rewrite foldM_cons. unfold mbind, M_bind.
  pose proof (extract_parallel_dims_rewrites tile_size i edges_to_consider
                acc me s) as H1.
  destruct (extract_parallel_dims _ _ _ acc me s) as [acc1 s1|e s1|];
    [| |done].
  - destruct H1 as (evs1 & Htr1 & Hids1).
    specialize (IH acc1 s1).
    destruct (foldM _ acc1 l s1) as [acc2 s2|e s2|]; [| |done].
    + destruct IH as (evs2 & ns & Htr2 & Hids2 & Hsub & Hin).
      destruct Hids1 as [[Hids1 Hacc]|[Hids1 Hacc]]; rewrite Hacc in Hin.
      * exists (evs1 ++ evs2)%list, ns.
        rewrite omap_app, Hids1, Hids2, Htr2, Htr1, app_assoc.
        repeat split; [|done]. rewrite fmap_cons. by apply sublist_cons.
      * exists (evs1 ++ evs2)%list, (fst me :: ns).
        rewrite omap_app, Hids1, Hids2, Htr2, Htr1, app_assoc.
        repeat split.
        -- rewrite fmap_cons. by apply sublist_skip.
        -- intros n [Hn|[->|Hn]%elem_of_cons]; apply Hin.
           ++ left. by right.
           ++ left. by left.
           ++ by right.
    + destruct IH as (evs2 & ns & Htr2 & Hids2 & Hsub).
      destruct Hids1 as [[Hids1 Hacc]|[Hids1 Hacc]].
      * exists (evs1 ++ evs2)%list, ns.
        rewrite omap_app, Hids1, Hids2, Htr2, Htr1, app_assoc.
        repeat split. rewrite fmap_cons. by apply sublist_cons.
      * exists (evs1 ++ evs2)%list, (fst me :: ns).
        rewrite omap_app, Hids1, Hids2, Htr2, Htr1, app_assoc.
        repeat split. rewrite fmap_cons. by apply sublist_skip.
  - destruct H1 as (evs1 & Htr1 & [Hids1|Hids1]).
    + exists evs1, []. rewrite Hids1. repeat split; [done|].
      apply sublist_nil_l.
    + exists evs1, [fst me]. rewrite Hids1. repeat split; [done|].
      rewrite fmap_cons. apply sublist_skip, sublist_nil_l.
Qed.

Lemma NoDup_pair_fmap (i : nat) (ns : list nid) :
  NoDup ns -> NoDup (pair i <$> ns).
Proof. intros Hnd. apply NoDup_fmap_2; [|done]. by intros x y [= ->]. Qed.

Lemma tile_wcrs_in_state_rewrites `{Collaborators} (cfg : Config)
    (sdfg : SDFG) (i : nat) (sub : option (list nid))
    (prefer : option bool) (s : Store) :
  match tile_wcrs_in_state cfg sdfg i sub prefer s with
  | Done _ s' | Raised _ s' =>
      exists evs,
        trace s' = (trace s ++ evs)%list
        /\ NoDup (omap rewritten_map evs)
        /\ forall p, p ∈ omap rewritten_map evs -> fst p = i
  | OutOfFuel => False
  end.
Proof.
  assert (Hnone : forall (e : Exn) (sx : Store),
             exists evs : list Event,
               trace sx = (trace sx ++ evs)%list
               /\ NoDup (omap rewritten_map evs)
               /\ forall p, p ∈ omap rewritten_map evs -> fst p = i).
  { intros _ sx. exists []. rewrite app_nil_r. repeat split; [constructor|].
    by intros p Hp%elem_of_nil. }
  unfold tile_wcrs_in_state.
  destruct (state_at sdfg i) as [graph|]; [|by apply (Hnone IndexError)].
  unfold mbind at 1, M_bind at 1.
  destruct (discover sdfg graph sub) as [edges_to_consider|e]; cbn [lift];
    [|by apply (Hnone e)].
  cbn [mret M_ret].
  set (prefers := match prefer with
                  | Some b => b
                  | None => autotile_partial_parallelism cfg
                  end).
  unfold mbind at 1, M_bind at 1.
  (* the extraction loop *)
  assert (Hext :
    match (if prefers
           then foldM (extract_parallel_dims (autotile_size cfg) i
                                             edges_to_consider)
                      (sdfg, []) (maps_of edges_to_consider)
           else mret (sdfg, [])) s with
    | Done acc' s' =>
        exists evs ns,
          trace s' = (trace s ++ evs)%list
          /\ omap rewritten_map evs = pair i <$> ns
          /\ NoDup ns
          /\ forall n, n ∈ ns -> n ∈ snd acc'
    | Raised _ s' =>
        exists evs ns,
          trace s' = (trace s ++ evs)%list
          /\ omap rewritten_map evs = pair i <$> ns
          /\ NoDup ns
    | OutOfFuel => False
    end).
  { destruct prefers.
    - pose proof (extract_loop_rewrites (autotile_size cfg) i
                    edges_to_consider (maps_of edges_to_consider)
                    (sdfg, []) s) as He.
      destruct (foldM _ _ _ s) as [acc1 s1|e s1|]; [| |done].
      + destruct He as (evs & ns & Htr & Hids & Hsub & Hin).
        exists evs, ns. repeat split; try done.
        * eapply sublist_NoDup; [apply maps_of_NoDup|exact Hsub].
        * intros n Hn. apply Hin. by right.
      + destruct He as (evs & ns & Htr & Hids & Hsub).
        exists evs, ns. repeat split; try done.
        eapply sublist_NoDup; [apply maps_of_NoDup|exact Hsub].
    - cbn. exists [], []. rewrite app_nil_r. repeat split; [constructor|].
      by intros n Hn%elem_of_nil. }
  match type of Hext with
  | match ?c with _ => _ end => destruct c as [acc1 s1|e s1|]
  end; [| |done].
  2: { destruct Hext as (evs & ns & Htr & Hids & Hnd). exists evs.
       rewrite Hids. repeat split; [done|by apply NoDup_pair_fmap|].
       by intros p (n & -> & _)%list_elem_of_fmap. }
  destruct Hext as (evs1 & ns1 & Htr1 & Hids1 & Hnd1 & Hin1).
  (* the tiling loop *)
  unfold mbind at 1, M_bind at 1.
  pose proof (tile_loop_rewrites cfg i edges_to_consider acc1 s1) as Ht.
  assert (Hall : forall (evs2 : list Event) (ns2 : list nid),
             omap rewritten_map evs2 = pair i <$> ns2 -> NoDup ns2 ->
             (forall n, n ∈ ns2 -> n ∉ snd acc1) ->
             NoDup (omap rewritten_map (evs1 ++ evs2)%list)
             /\ forall p, p ∈ omap rewritten_map (evs1 ++ evs2)%list
                          -> fst p = i).
  { intros evs2 ns2 Hids2 Hnd2 Hfresh.
    rewrite omap_app, Hids1, Hids2, <- fmap_app. split.
    - apply NoDup_pair_fmap, NoDup_app. repeat split; [done| |done].
      intros n Hn1 Hn2. by apply (Hfresh n Hn2), Hin1.
    - by intros p (n & -> & _)%list_elem_of_fmap. }
  destruct (foldM (tile_map cfg i) acc1 edges_to_consider s1)
    as [acc2 s2|e s2|]; [| |done];
    destruct Ht as (evs2 & ns2 & Htr2 & Hids2 & Hnd2 & Hfresh);
    destruct (Hall evs2 ns2 Hids2 Hnd2 Hfresh) as [Hnd Hst].
  2: { exists (evs1 ++ evs2)%list. by rewrite Htr2, Htr1, app_assoc. }
  (* the message *)
  unfold mbind, M_bind.
  destruct (debugprint cfg && _); cbn.
  - exists ((evs1 ++ evs2) ++ [EvPrint (OptimizedWriteConflictedMaps
                                           (length (snd acc2)))])%list.
    rewrite omap_app. cbn. rewrite app_nil_r.
    by rewrite Htr2, Htr1, !app_assoc.
  - exists (evs1 ++ evs2)%list. by rewrite Htr2, Htr1, app_assoc.
Qed.

Lemma tile_wcrs_states_rewrites `{Collaborators} (cfg : Config)
    (sts : list nat) :
  NoDup sts ->
  forall (sd : SDFG) (s : Store),
    match foldM (fun sd state => tile_wcrs_in_state cfg sd state None None)
                sd sts s with
    | Done _ s' | Raised _ s' =>
        exists evs,
          trace s' = (trace s ++ evs)%list
          /\ NoDup (omap rewritten_map evs)
          /\ forall p, p ∈ omap rewritten_map evs -> fst p ∈ sts
    | OutOfFuel => False
    end.
Proof.
  induction 1 as [|i sts Hi Hnd IH]; intros sd s.
  { cbn. exists []. rewrite app_nil_r. repeat split; [constructor|].
    by intros p Hp%elem_of_nil. }
  rewrite foldM_cons. unfold mbind, M_bind.
  pose proof (tile_wcrs_in_state_rewrites cfg sd i None None s) as H1.
  destruct (tile_wcrs_in_state cfg sd i None None s) as [sd1 s1|e s1|];
    [| |done]; destruct H1 as (evs1 & Htr1 & Hnd1 & Hst1).
  2: { exists evs1. split; [done|]. split; [done|].
       intros p Hp. rewrite (Hst1 p Hp). by left. }
  specialize (IH sd1 s1).
  destruct (foldM _ sd1 sts s1) as [sd2 s2|e s2|]; [| |done];
    destruct IH as (evs2 & Htr2 & Hnd2 & Hst2);
    exists (evs1 ++ evs2)%list;
    rewrite omap_app, Htr2, Htr1, app_assoc;
    (split; [done|]); split.
  all: try (apply NoDup_app; split; [done|]; split; [|done];
            intros p Hp1 Hp2; apply Hi;
            rewrite <- (Hst1 p Hp1); by apply Hst2).
  all: intros p [Hp|Hp]%elem_of_app;
    [rewrite (Hst1 p Hp); by left|right; by apply Hst2].
Qed.

(** X10. One run of the tiler rewrites each map entry at most once: the
    calls of extract_map_dims and of MapTiling.apply_to are all on
    different map entries, so a map whose dimensions were extracted is not
    tiled and no map is tiled twice, however many conflicting edges lead to
    it.  The run itself always ends. *)
Theorem tile_wcrs_rewrites_each_map_once `{Collaborators} (cfg : Config)
    (sdfg : SDFG) (view : GraphView) (validate_all : bool)
    (prefer : option bool) (s : Store) :
  distinct_states view ->
  match tile_wcrs cfg sdfg view validate_all prefer s with
  | Done _ s' | Raised _ s' =>
      exists evs,
        trace s' = (trace s ++ evs)%list
        /\ NoDup (omap rewritten_map evs)
  | OutOfFuel => False
  end.
Proof.
  intros Hview.
  assert (Hstate : forall i sub p,
             match tile_wcrs_in_state cfg sdfg i sub p s with
             | Done _ s' | Raised _ s' =>
                 exists evs,
                   trace s' = (trace s ++ evs)%list
                   /\ NoDup (omap rewritten_map evs)
             | OutOfFuel => False
             end).
  { intros i sub p.
    pose proof (tile_wcrs_in_state_rewrites cfg sdfg i sub p s) as Hs.
    destruct (tile_wcrs_in_state cfg sdfg i sub p s); [| |done];
      destruct Hs as (evs & Htr & Hnd & _); by exists evs. }
  assert (Hstates : forall sts, NoDup sts ->
             match foldM (fun sd state =>
                            tile_wcrs_in_state cfg sd state None None)
                         sdfg sts s with
             | Done _ s' | Raised _ s' =>
                 exists evs,
                   trace s' = (trace s ++ evs)%list
                   /\ NoDup (omap rewritten_map evs)
             | OutOfFuel => False
             end).
  { intros sts Hnd.
    pose proof (tile_wcrs_states_rewrites cfg sts Hnd sdfg s) as Hs.
    destruct (foldM _ sdfg sts s); [| |done];
      destruct Hs as (evs & Htr & Hn & _); by exists evs. }
  destruct view as [|i|i ns|sts]; cbn [tile_wcrs].
  - apply Hstates, NoDup_seq.
  - apply Hstate.
  - apply Hstate.
  - by apply Hstates.
Qed.

Lemma tile_wcrs_rewrites_each_map_once_witness :
  let cfg := Demo.config 128 in
  let sdfg := Demo.program ["i"] [Integer 256] (Some Demo.sum_wcr) in
  distinct_states ViewSDFG
  /\ match @tile_wcrs Demo.collaborators cfg sdfg ViewSDFG false None
             initial_store with
     | Done _ s' | Raised _ s' =>
         exists evs,
           trace s' = (trace initial_store ++ evs)%list
           /\ NoDup (omap rewritten_map evs)
     | OutOfFuel => False
     end.
Proof.
  intros cfg sdfg.
  assert (Hview : distinct_states ViewSDFG) by exact I.
  split; [exact Hview|].
  exact (@tile_wcrs_rewrites_each_map_once Demo.collaborators cfg sdfg
           ViewSDFG false None initial_store Hview).
Defined.

(** ** The defaults of CompositeFusion under greedy_fuse *)

Section Keeps.
Variable P : Event -> Prop.

Lemma keeps_ret {A} (Q : CompositeFusionDefaults -> Prop) (a : A) :
  keeps Q Q P (mret a).
Proof.
  intros s Hs. cbn. split; [done|]. exists []. by rewrite app_nil_r.
Qed.

Lemma keeps_raise {A} (Q : CompositeFusionDefaults -> Prop) (e : Exn) :
  keeps Q Q P (raise (A:=A) e).
Proof.
  intros s Hs. cbn. split; [done|]. exists []. by rewrite app_nil_r.
Qed.

Lemma keeps_out_of_fuel {A} (Q R : CompositeFusionDefaults -> Prop) :
  keeps Q R P (out_of_fuel (A:=A)).
Proof. by intros s Hs. Qed.

Lemma keeps_lift {A} (Q : CompositeFusionDefaults -> Prop) (r : result A) :
  keeps Q Q P (lift r).
Proof. destruct r; [apply keeps_ret|apply keeps_raise]. Qed.

Lemma keeps_log (Q : CompositeFusionDefaults -> Prop) (ev : Event) :
  P ev -> keeps Q Q P (log ev).
Proof.
  intros Hev s Hs. cbn. split; [done|]. exists [ev].
  split; [done|by constructor].
Qed.

Lemma keeps_bind {A B} (pre mid post : CompositeFusionDefaults -> Prop)
    (c : M A) (f : A -> M B) :
  keeps pre mid P c -> (forall d, mid d -> post d) ->
  (forall a, keeps mid post P (f a)) ->
  keeps pre post P (c ≫= f).
Proof.
  intros Hc Hmid Hf s Hs. specialize (Hc s Hs). unfold mbind, M_bind.
  destruct (c s) as [a s1|e s1|]; [| |done].
  - destruct Hc as (H1 & evs & Hevs & HP). specialize (Hf a s1 H1).
    destruct (f a s1) as [b s2|e s2|]; [| |done];
      destruct Hf as (H2 & evs' & Hevs' & HP'); (split; [done|]);
      exists (evs ++ evs')%list;
      (split; [by rewrite Hevs', Hevs, app_assoc|by apply Forall_app]).
  - destruct Hc as (H1 & Hevs). split; [by apply Hmid|done].
Qed.

Lemma keeps_seq {A B} (Q : CompositeFusionDefaults -> Prop)
    (c : M A) (f : A -> M B) :
  keeps Q Q P c -> (forall a, keeps Q Q P (f a)) -> keeps Q Q P (c ≫= f).
Proof. intros Hc Hf. by apply (keeps_bind Q Q Q). Qed.

Lemma keeps_foldM {S A} (Q : CompositeFusionDefaults -> Prop)
    (body : S -> A -> M S) (l : list A) :
  (forall acc x, keeps Q Q P (body acc x)) ->
  forall acc, keeps Q Q P (foldM body acc l).
Proof.
  intros Hbody. induction l as [|x l IH]; intros acc.
  - apply keeps_ret.
  - rewrite foldM_cons. by apply keeps_seq.
Qed.

Lemma keeps_post {A} (pre post post' : CompositeFusionDefaults -> Prop)
    (c : M A) :
  (forall d, post d -> post' d) -> keeps pre post P c ->
  keeps pre post' P c.
Proof.
  intros Hpost Hc s Hs. specialize (Hc s Hs).
  destruct (c s) as [a s1|e s1|]; [| |done];
    destruct Hc as [H1 H2]; split; auto.
Qed.

Lemma keeps_appends {A} (c : M A) :
  keeps (fun _ => True) (fun _ => True) P c -> appends true P c.
Proof.
  intros Hc s. specialize (Hc s I).
  destruct (c s) as [a s1|e s1|]; [| |done]; by destruct Hc as [_ Hc].
Qed.

Lemma keeps_get_defaults {B} (Q post : CompositeFusionDefaults -> Prop)
    (f : CompositeFusionDefaults -> M B) :
  (forall d, Q d -> keeps (fun d' => d' = d) post P (f d)) ->
  keeps Q post P (get_defaults ≫= f).
Proof.
  intros Hf s Hs.
  rewrite (bind_Done _ _ s s (CompositeFusion s)); [|done].
  by apply (Hf (CompositeFusion s) Hs s).
Qed.

Lemma keeps_set_defaults (pre post : CompositeFusionDefaults -> Prop)
    (d : CompositeFusionDefaults) :
  post d -> keeps pre post P (set_defaults d).
Proof.
  intros Hd s Hs. cbn. split; [done|]. exists []. by rewrite app_nil_r.
Qed.

Lemma keeps_pre {A} (pre pre' post : CompositeFusionDefaults -> Prop)
    (c : M A) :
  (forall d, pre' d -> pre d) -> keeps pre post P c ->
  keeps pre' post P c.
Proof. intros Hpre Hc s Hs. apply Hc. by apply Hpre. Qed.

Context `{Collaborators}.
Variables W Q : CompositeFusionDefaults -> Prop.
Variables (validate_all : bool) (device : DeviceType.t)
          (recursive tile : bool).
Variable self : GreedyFuse.

Hypothesis P_other :
  forall ev, (forall i m d, ev <> EvCompositeFusion i m d) -> P ev.
Hypothesis P_fusion : forall i m d, Q d -> P (EvCompositeFusion i m d).
Hypothesis Q_W : forall d, Q d -> W d.
Hypothesis W_set : forall d, W d -> Q (set_fusion_defaults tile device d).
Hypothesis self_Q : forall sd view,
  keeps Q Q P (self sd view validate_all device recursive tile).
Hypothesis self_W : forall sd view,
  keeps W W P (self sd view validate_all device recursive tile).
Hypothesis self_scope : recursive = true -> forall sd view,
  keeps Q Q P (self sd view validate_all DeviceType.CPU true false).

Let caller : FuseArgs :=
  {| fa_validate_all := validate_all; fa_device := device;
     fa_recursive := recursive; fa_tile := tile |}.

Lemma fuse_candidates_keeps (i : nat) (sd : SDFG) (applied : nat)
    (map_entries : list nid) :
  keeps Q Q P (fuse_candidates i sd applied map_entries).
Proof.
  unfold fuse_candidates.
  destruct (1 <? length map_entries)%nat; [|apply keeps_ret].
  apply keeps_get_defaults. intros d Hd.
  apply (keeps_post _ (fun d' => d' = d)); [by intros ? ->|].
  apply keeps_seq; [by apply keeps_log, P_fusion|]. intros _.
  apply keeps_seq; [apply keeps_lift|]. intros r.
  apply keeps_seq; [by apply keeps_log, P_other|]. intros _.
  apply keeps_seq; [|intros _; apply keeps_ret].
  destruct (validate_sdfg _); [apply keeps_ret|apply keeps_raise].
Qed.

Lemma fuse_loop_keeps (i : nat) (acc : SDFG * nat) (map_entries : list nid) :
  keeps Q Q P (fuse_loop self caller i validate_all recursive acc
                         map_entries).
Proof.
  unfold fuse_loop.
  apply keeps_seq; [apply fuse_candidates_keeps|]. intros f.
  destruct recursive eqn:Hrec; [|apply keeps_ret].
  apply keeps_seq.
  { unfold global_entry_of. destruct (snd (fst f)); [apply keeps_ret|].
    destruct map_entries; [apply keeps_raise|apply keeps_ret]. }
  intros g. apply keeps_seq; [|intros sd2; apply keeps_ret].
  unfold call. apply keeps_seq; [by apply keeps_log, P_other|]. intros _.
  by apply self_scope.
Qed.

Lemma fuse_nested_keeps (i : nat) (sd : SDFG) (node : nid) :
  keeps Q Q P (fuse_nested self caller i validate_all device recursive
                           tile sd node).
Proof.
  unfold fuse_nested.
  destruct (lookup_node _ node) as [[| | | |inner|]|]; try apply keeps_ret.
  apply keeps_seq; [|intros sd2; apply keeps_ret].
  unfold call. apply keeps_seq; [by apply keeps_log, P_other|]. intros _.
  apply self_Q.
Qed.

Lemma finish_pass_keeps (i : nat) (applied : nat) (sd : SDFG) :
  keeps Q Q P (finish_pass i validate_all tile applied sd).
Proof.
  unfold finish_pass. apply keeps_seq.
  { destruct (0 <? applied)%nat; [|apply keeps_ret].
    destruct tile; by apply keeps_log, P_other. }
  intros _. apply keeps_seq; [|intros _; apply keeps_ret].
  destruct validate_all; [|apply keeps_ret].
  apply keeps_seq; [by apply keeps_log, P_other|]. intros _.
  destruct (validate_state _ _); [apply keeps_ret|apply keeps_raise].
Qed.

(** The pass on a state sets the defaults before it fuses anything: from
    any invariant [R] between [Q] and [W]. *)
Lemma fuse_in_graph_keeps (R : CompositeFusionDefaults -> Prop)
    (sdfg : SDFG) (i : nat) (sub : option (list nid)) :
  (forall d, R d -> W d) -> (forall d, Q d -> R d) ->
  keeps R R P (fuse_in_graph self sdfg i sub validate_all device recursive
                             tile).
Proof.
  intros R_W Q_R. unfold fuse_in_graph. apply keeps_seq.
  { destruct sub; [apply keeps_ret|].
    apply keeps_seq; [by apply keeps_log, P_other|]. intros _.
    apply keeps_lift. }
  intros sd0. apply keeps_get_defaults. intros d Hd.
  apply (keeps_bind _ Q R).
  - apply keeps_set_defaults. by apply W_set, R_W.
  - exact Q_R.
  - intros _. apply (keeps_post _ Q); [exact Q_R|].
    apply keeps_seq.
    { apply keeps_foldM. intros acc x. apply fuse_loop_keeps. }
    intros r. apply keeps_seq.
    { apply keeps_foldM. intros acc x. apply fuse_nested_keeps. }
    intros sd3. apply finish_pass_keeps.
Qed.

Lemma fuse_in_sdfg_keeps (R : CompositeFusionDefaults -> Prop)
    (sdfg : SDFG) :
  (forall sd view,
      keeps R R P (self sd view validate_all device recursive tile)) ->
  keeps R R P (fuse_in_sdfg self sdfg validate_all device recursive tile).
Proof.
  intros self_R. unfold fuse_in_sdfg.
  apply keeps_seq; [by apply keeps_log, P_other|]. intros _.
  apply keeps_seq; [apply keeps_lift|]. intros sd0.
  apply keeps_seq; [by apply keeps_log, P_other|]. intros _.
  apply keeps_seq; [apply keeps_lift|]. intros sd1.
  apply keeps_foldM. intros sd graph.
  unfold call. apply keeps_seq; [by apply keeps_log, P_other|]. intros _.
  apply self_R.
Qed.

Lemma greedy_fuse_body_keeps (sdfg : SDFG) (view : GraphView) :
  keeps Q Q P (greedy_fuse_body self sdfg view validate_all device
                                recursive tile)
  /\ keeps W W P (greedy_fuse_body self sdfg view validate_all device
                                   recursive tile).
Proof.
  destruct view as [|i|i ns|sts]; cbn [greedy_fuse_body]; split.
  - by apply fuse_in_sdfg_keeps.
  - by apply fuse_in_sdfg_keeps.
  - by apply fuse_in_graph_keeps.
  - by apply fuse_in_graph_keeps.
  - by apply fuse_in_graph_keeps.
  - by apply fuse_in_graph_keeps.
  - apply keeps_raise.
  - apply keeps_raise.
Qed.

End Keeps.

(** X11. A pass without tiling never fuses with tiling: whatever the
    class-level defaults were before, every CompositeFusion that
    greedy_fuse applies with tile unset, in the region itself, in the
    bodies of its scopes and in its nested SDFGs, runs with allow_tiling
    off. *)
Theorem greedy_fuse_without_tiling `{Collaborators} (fuel : nat)
    (sdfg : SDFG) (view : GraphView) (validate_all : bool)
    (device : DeviceType.t) (recursive : bool) :
  appends true fusion_without_tiling
          (greedy_fuse fuel sdfg view validate_all device recursive false).
Proof.
  apply keeps_appends.
  set (Q := fun d : CompositeFusionDefaults => allow_tiling d = false).
  set (W := fun _ : CompositeFusionDefaults => True).
  enough (Hall : forall sd v dev rec,
             keeps Q Q fusion_without_tiling
                   (greedy_fuse fuel sd v validate_all dev rec false)
             /\ keeps W W fusion_without_tiling
                      (greedy_fuse fuel sd v validate_all dev rec false))
    by apply Hall.
  induction fuel as [|fuel IH]; intros sd v dev rec.
  { split; apply keeps_out_of_fuel. }
  apply (greedy_fuse_body_keeps fusion_without_tiling W Q).
  - intros ev Hev. destruct ev; try done. by destruct (Hev state map_entries defaults).
  - by intros i m d Hd.
  - done.
  - by intros d _.
  - intros sd' v'. apply IH.
  - intros sd' v'. apply IH.
  - intros _ sd' v'. apply IH.
Qed.

(** X12. A tiling pass that does not recurse into scope bodies fuses with
    the tiling defaults throughout: every CompositeFusion that greedy_fuse
    applies with tile set and recursive unset, nested SDFGs included, runs
    with allow_tiling on and sequential inner maps, and on the GPU with
    unrolled stencil loops. *)
Theorem greedy_fuse_with_tiling `{Collaborators} (fuel : nat)
    (sdfg : SDFG) (view : GraphView) (validate_all : bool)
    (device : DeviceType.t) :
  appends true (fusion_with_tiling device)
          (greedy_fuse fuel sdfg view validate_all device false true).
Proof.
  apply keeps_appends.
  set (W := fun _ : CompositeFusionDefaults => True).
  enough (Hall : forall sd v,
             keeps (tiling_defaults device) (tiling_defaults device)
                   (fusion_with_tiling device)
                   (greedy_fuse fuel sd v validate_all device false true)
             /\ keeps W W (fusion_with_tiling device)
                      (greedy_fuse fuel sd v validate_all device false true))
    by apply Hall.
  induction fuel as [|fuel IH]; intros sd v.
  { split; apply keeps_out_of_fuel. }
  apply (greedy_fuse_body_keeps (fusion_with_tiling device) W
           (tiling_defaults device)).
  - intros ev Hev. destruct ev; try done. by destruct (Hev state map_entries defaults).
  - by intros i m d Hd.
  - done.
  - intros d _. unfold tiling_defaults, set_fusion_defaults. cbn.
    repeat split. by intros ->.
  - intros sd' v'. apply IH.
  - intros sd' v'. apply IH.
  - done.
Qed.

(** X13. Of the class-level defaults of CompositeFusion, a pass without
    tiling changes allow_tiling only: schedule_innermaps and
    stencil_unroll_loops are after the run, whether it returns or raises,
    what they were before it, so what an earlier tiling pass set stays
    set. *)
Theorem greedy_fuse_leaves_other_defaults `{Collaborators} (fuel : nat)
    (sdfg : SDFG) (view : GraphView) (validate_all : bool)
    (device : DeviceType.t) (recursive : bool) (s : Store) :
  match greedy_fuse fuel sdfg view validate_all device recursive false s
  with
  | Done _ s' | Raised _ s' =>
      schedule_innermaps (CompositeFusion s')
      = schedule_innermaps (CompositeFusion s)
      /\ stencil_unroll_loops (CompositeFusion s')
         = stencil_unroll_loops (CompositeFusion s)
  | OutOfFuel => True
  end.
Proof.
  set (Q := fun d : CompositeFusionDefaults =>
              schedule_innermaps d = schedule_innermaps (CompositeFusion s)
              /\ stencil_unroll_loops d
                 = stencil_unroll_loops (CompositeFusion s)).
  set (P := fun _ : Event => True).
  assert (Hall : forall sd v dev rec,
             keeps Q Q P (greedy_fuse fuel sd v validate_all dev rec false)).
  { clear sdfg view device recursive.
    induction fuel as [|fuel IH]; intros sd v dev rec.
    { apply keeps_out_of_fuel. }
    by apply (greedy_fuse_body_keeps P Q Q). }
  pose proof (Hall sdfg view device recursive s (conj eq_refl eq_refl)) as Hs.
  destruct (greedy_fuse _ _ _ _ _ _ _ s); [| |done]; by destruct Hs.
Qed.

(** ** Every fusion is validated *)

Lemma fusions_validated_tail (ev : Event) (l : list Event) :
  fusions_validated (ev :: l) -> fusions_validated l.
Proof. destruct ev; cbn; tauto. Qed.

Lemma fusions_validated_app (a b : list Event) :
  fusions_validated a -> settled a -> fusions_validated b ->
  fusions_validated (a ++ b).
Proof.
  induction a as [|ev a IH]; intros Ha Hs Hb; [done|].
  destruct a as [|ev' a].
  - (* the last event of the list is no fusion *)
    unfold settled in Hs. cbn in Hs. destruct ev; try done; exact Hb.
  - assert (Htail : fusions_validated ((ev' :: a) ++ b)).
    { apply IH; [by apply fusions_validated_tail in Ha|exact Hs|exact Hb]. }
    destruct ev; try exact Htail. split; [exact (proj1 Ha)|exact Htail].
Qed.

Lemma settled_app (a b : list Event) :
  settled a -> settled b -> settled (a ++ b).
Proof.
  intros Ha Hb. unfold settled in *. destruct b as [|ev b].
  - by rewrite app_nil_r.
  - by rewrite last_app_cons.
Qed.

Section Validation.

Lemma validates_ret {A} (a : A) : validates_fusions (mret a).
Proof. intros s. cbn. exists []. by rewrite app_nil_r. Qed.

Lemma validates_raise {A} (e : Exn) : validates_fusions (raise (A:=A) e).
Proof. intros s. cbn. exists []. by rewrite app_nil_r. Qed.

Lemma validates_lift {A} (r : result A) : validates_fusions (lift r).
Proof. destruct r; [apply validates_ret|apply validates_raise]. Qed.

Lemma validates_out_of_fuel {A} : validates_fusions (out_of_fuel (A:=A)).
Proof. by intros s. Qed.

Lemma validates_log (ev : Event) :
  (forall i m d, ev <> EvCompositeFusion i m d) ->
  validates_fusions (log ev).
Proof.
  intros Hev s. cbn. exists [ev]. split; [done|].
  destruct ev; try done. by destruct (Hev state map_entries defaults).
Qed.

Lemma validates_get_defaults : validates_fusions get_defaults.
Proof. intros s. cbn. exists []. by rewrite app_nil_r. Qed.

Lemma validates_set_defaults d : validates_fusions (set_defaults d).
Proof. intros s. cbn. exists []. by rewrite app_nil_r. Qed.

Lemma validates_bind {A B} (c : M A) (f : A -> M B) :
  validates_fusions c -> (forall a, validates_fusions (f a)) ->
  validates_fusions (c ≫= f).
Proof.
  intros Hc Hf s. specialize (Hc s). unfold mbind, M_bind.
  destruct (c s) as [a s1|e s1|]; [|done|done].
  destruct Hc as (evs & Hevs & Hv & Hs). specialize (Hf a s1).
  destruct (f a s1) as [b s2|e s2|]; [| |done].
  - destruct Hf as (evs' & Hevs' & Hv' & Hs'). exists (evs ++ evs')%list.
    split; [by rewrite Hevs', Hevs, app_assoc|].
    split; [by apply fusions_validated_app|by apply settled_app].
  - destruct Hf as (evs' & Hevs' & Hv'). exists (evs ++ evs')%list.
    split; [by rewrite Hevs', Hevs, app_assoc|].
    by apply fusions_validated_app.
Qed.

Lemma validates_foldM {S A} (body : S -> A -> M S) (l : list A) :
  (forall acc x, validates_fusions (body acc x)) ->
  forall acc, validates_fusions (foldM body acc l).
Proof.
  intros Hbody. induction l as [|x l IH]; intros acc.
  - apply validates_ret.
  - rewrite foldM_cons. by apply validates_bind.
Qed.

Context `{Collaborators}.

(** Lines 93-94: the fusion and, right after it, the validation. *)
Lemma fuse_candidates_validates (i : nat) (sd : SDFG) (applied : nat)
    (map_entries : list nid) :
  validates_fusions (fuse_candidates i sd applied map_entries).
Proof.
  unfold fuse_candidates.
  destruct (1 <? length map_entries)%nat; [|apply validates_ret].
  intros s. unfold mbind, M_bind, get_defaults, log. cbn [trace].
  destruct (CompositeFusion_apply _ _ _ _) as [r|e]; cbn.
  - destruct (validate_sdfg (fst r)); cbn;
      exists [EvCompositeFusion i map_entries (CompositeFusion s);
              EvValidateSDFG];
      by rewrite <- app_assoc.
  - eexists [_]. by split.
Qed.

Variable self : GreedyFuse.
Hypothesis self_validates : forall sd view va dev rec tl,
  validates_fusions (self sd view va dev rec tl).

Lemma greedy_fuse_body_validates (sdfg : SDFG) (view : GraphView)
    (validate_all : bool) (device : DeviceType.t) (recursive tile : bool) :
  validates_fusions (greedy_fuse_body self sdfg view validate_all device
                                      recursive tile).
Proof.
  assert (Hcall : forall site caller sd v va dev rec tl,
             validates_fusions (call self site caller sd v va dev rec tl)).
  { intros. unfold call.
    apply validates_bind; [by apply validates_log|]. intros _.
    apply self_validates. }
  assert (Hgraph : forall i sub,
             validates_fusions (fuse_in_graph self sdfg i sub validate_all
                                              device recursive tile)).
  { intros i sub. unfold fuse_in_graph. apply validates_bind.
    { destruct sub; [apply validates_ret|].
      apply validates_bind; [by apply validates_log|]. intros _.
      apply validates_lift. }
    intros sd0.
    apply validates_bind; [apply validates_get_defaults|]. intros d.
    apply validates_bind; [apply validates_set_defaults|]. intros _.
    apply validates_bind.
    { apply validates_foldM. intros acc x. unfold fuse_loop.
      apply validates_bind; [apply fuse_candidates_validates|]. intros f.
      destruct recursive; [|apply validates_ret].
      apply validates_bind.
      { unfold global_entry_of.
        destruct (snd (fst f)); [apply validates_ret|].
        destruct x; [apply validates_raise|apply validates_ret]. }
      intros g. apply validates_bind; [apply Hcall|]. intros sd2.
      apply validates_ret. }
    intros r. apply validates_bind.
    { apply validates_foldM. intros acc x. unfold fuse_nested.
      destruct (lookup_node _ x) as [[| | | |inner|]|];
        try apply validates_ret.
      apply validates_bind; [apply Hcall|]. intros sd2.
      apply validates_ret. }
    intros sd3. unfold finish_pass. apply validates_bind.
    { destruct (0 <? snd r)%nat; [|apply validates_ret].
      destruct tile; by apply validates_log. }
    intros _. apply validates_bind; [|intros _; apply validates_ret].
    destruct validate_all; [|apply validates_ret].
    apply validates_bind; [by apply validates_log|]. intros _.
    destruct (validate_state _ _); [apply validates_ret|apply validates_raise]. }
  destruct view as [|i|i ns|sts]; cbn [greedy_fuse_body];
    [|apply Hgraph|apply Hgraph|apply validates_raise].
  unfold fuse_in_sdfg.
  apply validates_bind; [by apply validates_log|]. intros _.
  apply validates_bind; [apply validates_lift|]. intros sd0.
  apply validates_bind; [by apply validates_log|]. intros _.
  apply validates_bind; [apply validates_lift|]. intros sd1.
  apply validates_foldM. intros sd graph. apply Hcall.
Qed.

End Validation.

(** X14. Every fusion is validated, whatever validate_all is: in what a
    run of greedy_fuse adds to the trace, each application of
    CompositeFusion is followed at once by a validation of the whole SDFG.
    Only a run that raises can end on a fusion (the fusion itself raised);
    a run that returns has validated the last fusion too. *)
Theorem greedy_fuse_validates_every_fusion `{Collaborators} (fuel : nat)
    (sdfg : SDFG) (view : GraphView) (validate_all : bool)
    (device : DeviceType.t) (recursive tile : bool) (s : Store) :
  match greedy_fuse fuel sdfg view validate_all device recursive tile s with
  | Done _ s' =>
      exists evs, trace s' = (trace s ++ evs)%list
                  /\ fusions_validated evs /\ settled evs
  | Raised _ s' =>
      exists evs, trace s' = (trace s ++ evs)%list
                  /\ fusions_validated evs
  | OutOfFuel => True
  end.
Proof.
  revert sdfg view validate_all device recursive tile s.
  induction fuel as [|fuel IH];
    intros sdfg view validate_all device recursive tile.
  - apply validates_out_of_fuel.
  - apply (greedy_fuse_body_validates (greedy_fuse fuel)). exact IH.
Qed.

(** ** A fusion that leaves an invalid SDFG *)

(** X15. A fusion after which the SDFG does not validate aborts the pass,
    whatever validate_all is: on a state, when the first candidate set of
    the enumerator has more than one map and the SDFG that CompositeFusion
    leaves is rejected by the validator, greedy_fuse raises
    InvalidSDFGError right after that validation; nothing else is fused,
    printed or validated, and the defaults stay as the pass set them. *)
Theorem greedy_fuse_rejected_fusion_raises `{Collaborators} (fuel : nat)
    (sdfg sd0 sd1 : SDFG) (i : nat) (validate_all : bool)
    (device : DeviceType.t) (recursive tile : bool) (s : Store)
    (map_entries : list nid) (rest : list (list nid)) (g : nid) :
  let d := set_fusion_defaults tile device (CompositeFusion s) in
  apply_transformations_repeated_MapFusion validate_all sdfg = Ok sd0 ->
  GreedyEnumerator sd0 i (fst <$> nodes (graph_of sd0 i)) tile
  = map_entries :: rest ->
  (1 < length map_entries)%nat ->
  CompositeFusion_apply d sd0 i map_entries = Ok (sd1, g) ->
  validate_sdfg sd1 = false ->
  greedy_fuse (S fuel) sdfg (ViewState i) validate_all device recursive
              tile s
  = Raised InvalidSDFGError
           {| trace := (trace s ++ [EvMapFusion validate_all;
                                    EvCompositeFusion i map_entries d;
                                    EvValidateSDFG])%list;
              CompositeFusion := d |}.
Proof.
  intros d Hmf Hen Hlen Happly Hval.
  cbn [greedy_fuse greedy_fuse_body]. unfold fuse_in_graph.
  unfold mbind at 1, M_bind at 1. unfold mbind at 1, M_bind at 1.
  cbn [log]. rewrite Hmf. cbn [lift mret M_ret].
  unfold mbind at 1, M_bind at 1. cbn [get_defaults CompositeFusion].
  unfold mbind at 1, M_bind at 1. cbn [set_defaults trace CompositeFusion].
  cbn [view_nodes].
  replace (if tile then true else false) with tile by (by destruct tile).
  rewrite Hen. fold d.
  unfold mbind at 1, M_bind at 1. rewrite foldM_cons.
  unfold mbind at 1, M_bind at 1. unfold fuse_loop.
  unfold mbind at 1, M_bind at 1. unfold fuse_candidates. cbn [fst snd].
  apply Nat.ltb_lt in Hlen. rewrite Hlen.
  unfold mbind, M_bind, get_defaults, log. cbn [CompositeFusion trace].
  rewrite Happly. cbn [lift mret M_ret fst snd]. rewrite Hval.
  cbn [raise trace CompositeFusion]. by rewrite <- !app_assoc.
Qed.

Lemma greedy_fuse_rejected_fusion_raises_witness :
  let C := with_validator Demo.collaborators (fun _ => false) in
  let d := set_fusion_defaults false DeviceType.CPU
             (CompositeFusion initial_store) in
  @apply_transformations_repeated_MapFusion C false Demo.two_maps
  = Ok Demo.two_maps
  /\ @GreedyEnumerator C Demo.two_maps 0%nat
       (fst <$> nodes (graph_of Demo.two_maps 0)) false
     = [0%nat; 4%nat] :: []
  /\ (1 < length [0%nat; 4%nat])%nat
  /\ @CompositeFusion_apply C d Demo.two_maps 0%nat [0%nat; 4%nat]
     = Ok (Demo.two_maps, 0%nat)
  /\ @validate_sdfg C Demo.two_maps = false
  /\ @greedy_fuse C 1 Demo.two_maps (ViewState 0) false DeviceType.CPU
       true false initial_store
     = Raised InvalidSDFGError
              {| trace := (trace initial_store
                           ++ [EvMapFusion false;
                               EvCompositeFusion 0 [0%nat; 4%nat] d;
                               EvValidateSDFG])%list;
                 CompositeFusion := d |}.
Proof.
  intros C d.
  assert (H1 : @apply_transformations_repeated_MapFusion C false
                 Demo.two_maps = Ok Demo.two_maps) by reflexivity.
  assert (H2 : @GreedyEnumerator C Demo.two_maps 0%nat
                 (fst <$> nodes (graph_of Demo.two_maps 0)) false
               = [0%nat; 4%nat] :: []) by (vm_compute; reflexivity).
  assert (H3 : (1 < length [0%nat; 4%nat])%nat) by (cbn; lia).
  assert (H4 : @CompositeFusion_apply C d Demo.two_maps 0%nat
                 [0%nat; 4%nat] = Ok (Demo.two_maps, 0%nat))
    by reflexivity.
  assert (H5 : @validate_sdfg C Demo.two_maps = false) by reflexivity.
  split; [exact H1|]. split; [exact H2|]. split; [exact H3|].
  split; [exact H4|]. split; [exact H5|].
  exact (@greedy_fuse_rejected_fusion_raises C 0 Demo.two_maps
           Demo.two_maps Demo.two_maps 0%nat false DeviceType.CPU true
           false initial_store [0%nat; 4%nat] [] 0%nat H1 H2 H3 H4 H5).
Defined.

(** ** auto_optimize *)

(** *** The steps of the pipeline *)

Lemma adds_ret {A} (P : Step -> Prop) (a : A) : adds P (mret a).
Proof. intros r. cbn. exists []. by rewrite app_nil_r. Qed.

Lemma adds_abort {A} (P : Step -> Prop) (e : Exn) : adds P (abort (A:=A) e).
Proof. intros r. cbn. exists []. by rewrite app_nil_r. Qed.

Lemma adds_attempt {A} (P : Step -> Prop) (x : result A) :
  adds P (attempt x).
Proof. destruct x; [apply adds_ret|apply adds_abort]. Qed.

Lemma adds_unfinished {A} (P : Step -> Prop) : adds P (unfinished (A:=A)).
Proof. by intros r. Qed.

Lemma adds_step (P : Step -> Prop) (st : Step) : P st -> adds P (step st).
Proof.
  intros Hst r. cbn. exists [st]. split; [done|by constructor].
Qed.

Lemma adds_run {A} (P : Step -> Prop) (c : M A) :
  (forall ev, P (StEvent ev)) -> adds P (run c).
Proof.
  intros HP r. unfold run.
  destruct (c _) as [a s|e s|]; [| |done]; cbn;
    exists (StEvent <$> trace s); (split; [done|]);
    apply Forall_fmap, Forall_forall; intros ev _; apply HP.
Qed.

Lemma adds_bind {A B} (P : Step -> Prop) (c : Pipeline A)
    (f : A -> Pipeline B) :
  adds P c -> (forall a, adds P (f a)) -> adds P (c ≫= f).
Proof.
  intros Hc Hf r. specialize (Hc r). unfold mbind, Pipeline_bind.
  destruct (c r) as [a r1|e r1|]; [|done|done].
  destruct Hc as (sts & Hsts & HP). specialize (Hf a r1).
  destruct (f a r1) as [b r2|e r2|]; [| |done];
    destruct Hf as (sts' & Hsts' & HP'); exists (sts ++ sts')%list;
    (split; [by rewrite Hsts', Hsts, app_assoc|by apply Forall_app]).
Qed.

Lemma foldP_cons {S A} (body : S -> A -> Pipeline S) (acc : S) x
    (l : list A) :
  foldP body acc (x :: l) = (acc' ← body acc x; foldP body acc' l).
Proof. done. Qed.

Lemma adds_foldP {S A} (P : Step -> Prop) (body : S -> A -> Pipeline S)
    (l : list A) :
  (forall acc x, adds P (body acc x)) ->
  forall acc, adds P (foldP body acc l).
Proof.
  intros Hbody. induction l as [|x l IH]; intros acc.
  - apply adds_ret.
  - rewrite foldP_cons. by apply adds_bind.
Qed.

Lemma adds_for_nested_sdfgs_at (P : Step -> Prop)
    (f : SDFGPath -> SDFG -> Pipeline SDFG) (path : SDFGPath) (sd : SDFG) :
  (forall p nsd, adds P (f p nsd)) ->
  adds P (for_nested_sdfgs_at f path sd).
Proof.
  intros Hf. unfold for_nested_sdfgs_at.
  apply adds_bind; [|intros sts; apply adds_ret].
  apply adds_foldP. intros acc st.
  apply adds_bind; [|intros nds; apply adds_ret].
  apply adds_foldP. intros acc' p.
  destruct (snd p); try apply adds_ret.
  apply adds_bind; [apply Hf|]. intros inner'. apply adds_ret.
Qed.

Lemma adds_for_all_sdfgs (P : Step -> Prop) (fuel : nat)
    (f : SDFGPath -> SDFG -> Pipeline SDFG) :
  (forall p nsd, adds P (f p nsd)) ->
  forall path sd, adds P (for_all_sdfgs fuel f path sd).
Proof.
  intros Hf. induction fuel as [|fuel IH]; intros path sd.
  - apply adds_unfinished.
  - cbn [for_all_sdfgs]. apply adds_bind; [apply Hf|]. intros sd'.
    by apply adds_for_nested_sdfgs_at.
Qed.

Lemma bind_Returned_inv {A B} (c : Pipeline A) (f : A -> Pipeline B)
    (r r' : Run) (b : B) :
  (c ≫= f) r = Returned b r' ->
  exists a r1, c r = Returned a r1 /\ f a r1 = Returned b r'.
Proof.
  unfold mbind, Pipeline_bind. destruct (c r) as [a r1|e r1|]; [|done..].
  intros Hf. by exists a, r1.
Qed.

(** *** The SDFGs of a program after a loop over all of them *)

Lemma fmap_concat {A B} (f : A -> B) (ls : list (list A)) :
  f <$> concat ls = concat ((fun l : list A => f <$> l) <$> ls).
Proof.
  induction ls as [|l ls IH]; [done|].
  cbn [concat]. rewrite fmap_app, IH. done.
Qed.

Lemma sdfgs_of_sdfg_map (fa : Data.t -> Data.t) (fe : Edge.t -> Edge.t)
    (sd : SDFG) :
  Forall (fun st : SDFGState =>
            Forall (fun p =>
                      sdfgs_of_node (map_node fa fe (snd p))
                      = map_everywhere fa fe <$> sdfgs_of_node (snd p))
                   (nodes st))
         (states sd) ->
  sdfgs_of_sdfg sdfgs_of_node (map_sdfg fa fe (map_node fa fe) sd)
  = map_everywhere fa fe <$> sdfgs_of_sdfg sdfgs_of_node sd.
Proof.
  intros Hall. unfold sdfgs_of_sdfg. rewrite fmap_cons.
  f_equal. rewrite fmap_concat. f_equal.
  unfold map_sdfg at 1. cbn [states].
  rewrite <- !list_fmap_compose. apply Forall_fmap_ext_1.
  eapply Forall_impl; [exact Hall|]. intros st Hst. cbn in *.
  rewrite fmap_concat. f_equal. rewrite <- !list_fmap_compose.
  apply Forall_fmap_ext_1. eapply Forall_impl; [exact Hst|].
  intros p Hp. cbn in *. exact Hp.
Qed.

Lemma sdfgs_of_node_map (fa : Data.t -> Data.t) (fe : Edge.t -> Edge.t)
    (n : Node) :
  sdfgs_of_node (map_node fa fe n)
  = map_everywhere fa fe <$> sdfgs_of_node n.
Proof.
  induction n as [| | | | |sd IH] using Node_nested_ind; try done.
  cbn [map_node sdfgs_of_node]. by apply sdfgs_of_sdfg_map.
Qed.

Lemma all_sdfgs_map_everywhere (fa : Data.t -> Data.t)
    (fe : Edge.t -> Edge.t) (sd : SDFG) :
  all_sdfgs (map_everywhere fa fe sd)
  = map_everywhere fa fe <$> all_sdfgs sd.
Proof.
  apply sdfgs_of_sdfg_map.
  apply (all_nodes_of_sdfg
           (fun n => sdfgs_of_node (map_node fa fe n)
                     = map_everywhere fa fe <$> sdfgs_of_node n)).
  apply sdfgs_of_node_map.
Qed.

Lemma all_sdfgs_map_arrays (fa : Data.t -> Data.t) (sd : SDFG) :
  all_sdfgs (map_arrays fa sd) = map_arrays fa sd :: tail (all_sdfgs sd).
Proof. done. Qed.

Lemma all_sdfgs_head (sd : SDFG) : all_sdfgs sd = sd :: tail (all_sdfgs sd).
Proof. done. Qed.

(** *** Lifetimes and flags, array by array and edge by edge *)

Lemma issymbolic_no_constants (e : SymExpr) :
  issymbolic e ∅ = false <-> free_symbols e = [].
Proof.
  unfold issymbolic. destruct (free_symbols e) as [|x l]; [done|].
  cbn. rewrite lookup_empty.
  rewrite bool_decide_eq_false_2; [done|]. by intros [? ?].
Qed.

Lemma make_persistent_settled (a : Data.t) :
  settled_lifetime (make_persistent a).
Proof.
  unfold settled_lifetime, make_persistent, is_View.
  destruct (Data.transient a) eqn:Ht; cbn [andb].
  2: { intros Ht'. by rewrite Ht in Ht'. }
  destruct (Data.kind a) eqn:Hk; cbn [negb andb];
    try (destruct (issymbolic (Data.total_size a) ∅) eqn:Hs; cbn [negb];
         [ intros _ _ Hfree; apply issymbolic_no_constants in Hfree;
           by rewrite Hfree in Hs
         | destruct (StorageType.eqb (Data.storage a) StorageType.Register)
             eqn:Hst; cbn [negb];
           [ intros _ _ _; left; by destruct (Data.storage a)
           | intros _ _ _; by right ] ]).
  intros _ Hv. by rewrite Hk in Hv.
Qed.

Lemma make_global_persistent_settled (a : Data.t) :
  settled_lifetime a -> settled_lifetime (make_global_persistent a).
Proof.
  unfold make_global_persistent.
  destruct (_ && _); [|done].
  destruct (StorageType.eqb _ _); [|done].
  intros _ _ _ _. by right.
Qed.

Lemma make_global_persistent_global (a : Data.t) :
  global_is_persistent (make_global_persistent a).
Proof.
  unfold global_is_persistent, make_global_persistent, is_View.
  destruct (Data.transient a) eqn:Ht; cbn [andb].
  2: { intros Ht'. by rewrite Ht in Ht'. }
  destruct (Data.kind a) eqn:Hk; cbn [negb];
    try (destruct (StorageType.eqb (Data.storage a) StorageType.GPU_Global)
           eqn:Hst; [done|];
         intros _ _ Hg; rewrite Hg in Hst; done).
Qed.

Lemma fmap_snd_id {K V} (l : list (K * V)) :
  (fun p : K * V => (fst p, id (snd p))) <$> l = l.
Proof.
  induction l as [|[k v] l IH]; [done|]. rewrite fmap_cons.
  by rewrite IH.
Qed.

Lemma map_everywhere_atomic (fa : Data.t -> Data.t) (sd : SDFG) :
  all_atomic (map_everywhere fa reset_nonatomic sd).
Proof.
  unfold all_atomic, map_everywhere, map_sdfg. cbn [states].
  apply Forall_fmap, Forall_forall. intros st _. cbn.
  apply Forall_fmap, Forall_forall. by intros e _.
Qed.

Lemma arrays_map_everywhere_id (fe : Edge.t -> Edge.t) (sd : SDFG) :
  arrays (map_everywhere id fe sd) = arrays sd.
Proof. unfold map_everywhere, map_sdfg. cbn [arrays]. apply fmap_snd_id. Qed.

(** What lines 510-528 leave. *)
Lemma set_lifetimes_spec (device : DeviceType.t) (sd : SDFG) :
  Forall (fun nsd => Forall (fun p => settled_lifetime (snd p)) (arrays nsd))
         (all_sdfgs (set_lifetimes device sd))
  /\ (device = DeviceType.GPU ->
      Forall (fun p => global_is_persistent (snd p))
             (arrays (set_lifetimes device sd))
      /\ Forall all_atomic (all_sdfgs (set_lifetimes device sd))).
Proof.
  assert (H1 : Forall (fun nsd =>
                         Forall (fun p => settled_lifetime (snd p))
                                (arrays nsd))
                      (all_sdfgs (map_everywhere make_persistent id sd))).
  { rewrite all_sdfgs_map_everywhere. apply Forall_fmap, Forall_forall.
    intros nsd _. unfold compose, map_everywhere, map_sdfg. cbn [arrays].
    apply Forall_fmap, Forall_forall. intros p _.
    apply make_persistent_settled. }
  unfold set_lifetimes. destruct device; cbn [DeviceType.eqb].
  1, 3: split; [exact H1|done].
  set (sd1 := map_everywhere make_persistent id sd) in *.
  split; [|intros _; split].
  - rewrite all_sdfgs_map_everywhere, all_sdfgs_map_arrays.
    rewrite (all_sdfgs_head sd1) in H1.
    apply Forall_cons in H1 as [Htop Hrest].
    apply Forall_fmap, Forall_cons. split.
    + unfold compose. rewrite arrays_map_everywhere_id.
      unfold map_arrays. cbn [arrays]. apply Forall_fmap.
      eapply Forall_impl; [exact Htop|]. intros p Hp.
      by apply make_global_persistent_settled.
    + eapply Forall_impl; [exact Hrest|]. intros nsd Hn.
      unfold compose. by rewrite arrays_map_everywhere_id.
  - rewrite arrays_map_everywhere_id. unfold map_arrays. cbn [arrays].
    apply Forall_fmap, Forall_forall.
    intros p _. apply make_global_persistent_global.
  - rewrite all_sdfgs_map_everywhere. apply Forall_fmap, Forall_forall.
    intros nsd _. apply map_everywhere_atomic.
Qed.

Section AutoOptimize.
Context `{Collaborators} `{Passes}.
Variables (fuel : nat) (cfg : Config) (env : Environments) (sdfg : SDFG)
          (device : DeviceType.t) (validate validate_all : bool)
          (symbols : list (string * Z))
          (trivial_fuse subgraph_fuse auto_parallelize : bool).

Lemma auto_optimize_Returned (r r' : Run) (sd' : SDFG) :
  auto_optimize fuel cfg env sdfg device validate validate_all symbols
                trivial_fuse subgraph_fuse auto_parallelize r
  = Returned sd' r' ->
  exists sd r1,
    optimization_passes fuel cfg env sdfg device validate validate_all
                        symbols trivial_fuse subgraph_fuse
                        auto_parallelize r
    = Returned sd r1
    /\ sd' = set_lifetimes device sd
    /\ final_validation validate validate_all sd' r1 = Returned tt r'.
Proof.
  unfold auto_optimize. intros Hrun.
  apply bind_Returned_inv in Hrun as (sd & r1 & Hpasses & Hrest).
  cbv zeta in Hrest.
  apply bind_Returned_inv in Hrest as ([] & r2 & Hval & Hret).
  cbn in Hret. injection Hret as <- <-.
  by exists sd, r1.
Qed.

End AutoOptimize.

(** X16. The validation at the end of auto_optimize (lines 531-532): when
    validate or validate_all is set and auto_optimize returns, the last
    step it took is that validation, and the SDFG it returns, as lines
    510-528 left it, has passed it. *)
Theorem auto_optimize_final_validation `{Collaborators} `{Passes}
    (fuel : nat) (cfg : Config) (env : Environments) (sdfg : SDFG)
    (device : DeviceType.t) (validate validate_all : bool)
    (symbols : list (string * Z))
    (trivial_fuse subgraph_fuse auto_parallelize : bool) (r : Run) :
  match auto_optimize fuel cfg env sdfg device validate validate_all
                      symbols trivial_fuse subgraph_fuse auto_parallelize r
  with
  | Returned sd' r' =>
      validate || validate_all = true ->
      last (steps r') = Some StValidate /\ validate_sdfg sd' = true
  | Failed _ _ | Unfinished => True
  end.
Proof.
  destruct (auto_optimize _ _ _ _ _ _ _ _ _ _ _ r) as [sd' r'| |] eqn:Hrun;
    [|done..].
  apply auto_optimize_Returned in Hrun as (sd & r1 & _ & -> & Hval).
  intros Hflag. unfold final_validation in Hval. rewrite Hflag in Hval.
  apply bind_Returned_inv in Hval as ([] & r2 & Hstep & Hcheck).
  cbn in Hstep. injection Hstep as <-.
  destruct (validate_sdfg (set_lifetimes device sd)) eqn:Hv; [|done].
  cbn in Hcheck. injection Hcheck as <-. cbn [steps].
  split; [apply last_snoc|done].
Qed.

(** X17. On the GPU the SDFG that auto_optimize returns has no edge marked
    non-atomic: in every state of the SDFG and of every SDFG nested in it,
    at any depth, wcr_nonatomic is False on every edge. *)
Theorem auto_optimize_gpu_resets_nonatomic `{Collaborators} `{Passes}
    (fuel : nat) (cfg : Config) (env : Environments) (sdfg : SDFG)
    (validate validate_all : bool) (symbols : list (string * Z))
    (trivial_fuse subgraph_fuse auto_parallelize : bool) (r : Run) :
  match auto_optimize fuel cfg env sdfg DeviceType.GPU validate
                      validate_all symbols trivial_fuse subgraph_fuse
                      auto_parallelize r
  with
  | Returned sd' _ => Forall all_atomic (all_sdfgs sd')
  | Failed _ _ | Unfinished => True
  end.
Proof.
  destruct (auto_optimize _ _ _ _ _ _ _ _ _ _ _ r) as [sd' r'| |] eqn:Hrun;
    [|done..].
  apply auto_optimize_Returned in Hrun as (sd & r1 & _ & -> & _).
  by apply set_lifetimes_spec.
Qed.

(** X18. In the SDFG that auto_optimize returns, on any device, every
    transient array that is no view and whose total size has no free
    symbol is in register storage or has persistent lifetime, in the SDFG
    and in every SDFG nested in it; on the GPU every transient array of
    the top SDFG that is no view and lives in GPU global memory has
    persistent lifetime. *)
Theorem auto_optimize_lifetimes `{Collaborators} `{Passes}
    (fuel : nat) (cfg : Config) (env : Environments) (sdfg : SDFG)
    (device : DeviceType.t) (validate validate_all : bool)
    (symbols : list (string * Z))
    (trivial_fuse subgraph_fuse auto_parallelize : bool) (r : Run) :
  match auto_optimize fuel cfg env sdfg device validate validate_all
                      symbols trivial_fuse subgraph_fuse auto_parallelize r
  with
  | Returned sd' _ =>
      Forall (fun nsd =>
                Forall (fun p => settled_lifetime (snd p)) (arrays nsd))
             (all_sdfgs sd')
      /\ (device = DeviceType.GPU ->
          Forall (fun p => global_is_persistent (snd p)) (arrays sd'))
  | Failed _ _ | Unfinished => True
  end.
Proof.
  destruct (auto_optimize _ _ _ _ _ _ _ _ _ _ _ r) as [sd' r'| |] eqn:Hrun;
    [|done..].
  apply auto_optimize_Returned in Hrun as (sd & r1 & _ & -> & _).
  destruct (set_lifetimes_spec device sd) as [H1 H2].
  split; [exact H1|]. intros Hd. by apply H2.
Qed.

(** A run of the pipeline on the GPU: it returns, the device-level library
    node has its device implementation, and the symbol the SDFG does not
    use is not specialized. *)
Example auto_optimize_gpu_example :
  let env := {| IntelMKL_is_installed := false;
                OpenBLAS_is_installed := false |} in
  match @auto_optimize Demo.collaborators DemoPasses.passes 8
          (Demo.config 128) env DemoPasses.gpu_program DeviceType.GPU
          true false [("N", 4); ("M", 5)] true true true initial_run
  with
  | Returned sd' r' =>
      LibraryNode.implementation <$> library_nodes sd'
      = [Some "CUDA (device)"]
      /\ omap (fun st => match st with
                         | StSpecialize _ | StValidate => Some st
                         | _ => None
                         end)
              (steps r')
         = [StSpecialize [("N", 4)]; StValidate]
  | Failed _ _ | Unfinished => False
  end.
Proof. vm_compute. done. Qed.

(** *** What the pipeline leaves out *)

Ltac pipeline_adds :=
  repeat first
    [ apply adds_ret
    | apply adds_attempt
    | apply adds_abort
    | apply adds_step; solve [done | cbn; tauto]
    | apply adds_run; solve [done | cbn; tauto]
    | apply adds_for_all_sdfgs; intros
    | apply adds_foldP; intros; unfold tile_wcrs_at
    | apply adds_bind; [|intros]
    | match goal with
      | |- adds _ (if ?b then _ else _) => destruct b eqn:?
      end ].

(** X19. On a device other than the GPU auto_optimize applies no GPU
    transformations, and does not call the strict transformations a second
    time: among the steps it takes, whether it returns or raises, there is
    neither apply_gpu_transformations nor a call of
    apply_strict_transformations that validates. *)
Theorem auto_optimize_gpu_steps_on_gpu_only `{Collaborators} `{Passes}
    (fuel : nat) (cfg : Config) (env : Environments) (sdfg : SDFG)
    (device : DeviceType.t) (validate validate_all : bool)
    (symbols : list (string * Z))
    (trivial_fuse subgraph_fuse auto_parallelize : bool) :
  device <> DeviceType.GPU ->
  adds (fun st => ~ gpu_step st)
       (auto_optimize fuel cfg env sdfg device validate validate_all symbols
                      trivial_fuse subgraph_fuse auto_parallelize).
Proof.
  intros Hdev.
  assert (Heqb : DeviceType.eqb device DeviceType.GPU = false)
    by by destruct device.
  unfold auto_optimize, optimization_passes, final_validation.
  rewrite Heqb. cbv zeta. pipeline_adds.
Qed.

Lemma auto_optimize_gpu_steps_on_gpu_only_witness :
  adds (fun st => ~ gpu_step st)
       (@auto_optimize Demo.collaborators DemoPasses.passes 8
          (Demo.config 128)
          {| IntelMKL_is_installed := false;
             OpenBLAS_is_installed := false |}
          DemoPasses.gpu_program DeviceType.CPU true false
          [("N", 4); ("M", 5)] true true true).
Proof.
  apply (@auto_optimize_gpu_steps_on_gpu_only
           Demo.collaborators DemoPasses.passes).
  discriminate.
Defined.

(** X20. auto_optimize specializes the SDFG for symbols of its argument
    symbols only, each with the value given there and in the order of the
    argument, and it prints the message about specializing only when there
    is at least one such symbol. *)
Theorem auto_optimize_specializes_given_symbols `{Collaborators} `{Passes}
    (fuel : nat) (cfg : Config) (env : Environments) (sdfg : SDFG)
    (device : DeviceType.t) (validate validate_all : bool)
    (symbols : list (string * Z))
    (trivial_fuse subgraph_fuse auto_parallelize : bool) :
  adds (specializes_within symbols)
       (auto_optimize fuel cfg env sdfg device validate validate_all symbols
                      trivial_fuse subgraph_fuse auto_parallelize).
Proof.
  unfold auto_optimize, optimization_passes, final_validation.
  cbv zeta. pipeline_adds.
  - apply adds_step. split; [|apply sublist_filter].
    intros Hnil.
    match goal with
    | Hlen : (0 <? length _)%nat = true |- _ =>
        rewrite Hnil in Hlen; discriminate Hlen
    end.
  - apply adds_step. apply sublist_filter.
Qed.

(** X21. Without auto_parallelize, auto_optimize neither propagates the
    states of any SDFG nor applies LoopToMap: none of the steps it takes,
    whether it returns or raises, is one of lines 407-414. *)
Theorem auto_optimize_without_auto_parallelize `{Collaborators} `{Passes}
    (fuel : nat) (cfg : Config) (env : Environments) (sdfg : SDFG)
    (device : DeviceType.t) (validate validate_all : bool)
    (symbols : list (string * Z)) (trivial_fuse subgraph_fuse : bool) :
  adds (fun st => ~ parallelizing_step st)
       (auto_optimize fuel cfg env sdfg device validate validate_all symbols
                      trivial_fuse subgraph_fuse false).
Proof.
  unfold auto_optimize, optimization_passes, final_validation.
  cbv zeta. pipeline_adds.
Qed.
